(** * HyDRA: a shallow embedding of the alignment pipeline's decision logic

    The definitions follow the Python sources module by module; the
    properties come after them, in modules of their own.

    - [Py]                the Python built-ins the code relies on ([str],
                          [str.lower], [str.strip], [str.split], [in]);
    - [IntraScale]        [multi_scale_fusion/intra_scale_interaction.py];
    - [Tsv]               the tab-separated files;
    - [Fusion]            [multi_scale_fusion/multi_scale_fusion.py]: the
                          answer parsing of [fusion_task], [add_to_sup_pairs];
    - [Decomposition]     [multi_scale_hypergraph_retrieval/
                          hypergraph_decomposition.py];
    - [Pipeline]          the iteration loop of [HyDRA_main.py];
    - [Difflib]           [difflib.SequenceMatcher.ratio], which
                          [text_similarity] calls;
    - [Dict]              insertion-ordered dictionaries;
    - [RelationAlignment] [scale_adaptive_entity_projection/
                          relation_alignment.py].

    Conventions.  Python integers are [Z].  A [set] is a [gset], a [dict]
    whose iteration order is irrelevant is a [gmap], a [dict] whose
    insertion order is observed is an association list.  Text files are
    modelled after the split into tab-separated fields: a line is the list
    of its fields and a field is the result of [int(field)], [None]
    standing for [ValueError].  The scores of the relation alignment are
    floats in the source: [RelationAlignment] evaluates them over the
    rationals, [RelationAlignment64], further down, in binary64. *)

From Stdlib Require Import ZArith QArith Qminmax Lia Lqa DecimalString Ascii String.
From Stdlib Require PrimFloat Uint63Axioms SpecFloat FloatAxioms.
From stdpp Require Import gmap strings list sorting.

Local Open Scope Z_scope.

(* ===================================================================== *)
(** * Python built-ins *)
(* ===================================================================== *)

Module Py.

(** [str(n)] for an integer. *)
Definition str (n : Z) : string := NilZero.string_of_int (Z.to_int n).

(** Characters are code points below 256. *)
Definition code (c : ascii) : nat := nat_of_ascii c.

(** [c.isspace()] *)
Definition isspace (c : ascii) : bool :=
  let n := code c in
  ((9 <=? n) && (n <=? 13) || (28 <=? n) && (n <=? 32)
   || (n =? 133) || (n =? 160))%nat.

(** [c.lower()]: A-Z and the upper-case letters of Latin-1. *)
Definition lower_char (c : ascii) : ascii :=
  let n := code c in
  if ((65 <=? n) && (n <=? 90)
      || (192 <=? n) && (n <=? 222) && negb (n =? 215))%nat
  then ascii_of_nat (n + 32) else c.

Definition chars (s : string) : list ascii := list_ascii_of_string s.
Definition of_chars (l : list ascii) : string := string_of_list_ascii l.

(** [s.lower()] *)
Definition lower (s : string) : string := of_chars (map lower_char (chars s)).

Fixpoint lstrip_chars (l : list ascii) : list ascii :=
  match l with
  | c :: l' => if isspace c then lstrip_chars l' else l
  | [] => []
  end.

(** [s.strip()] *)
Definition strip (s : string) : string :=
  of_chars (rev (lstrip_chars (rev (lstrip_chars (chars s))))).

(** [s.split()]: maximal runs of non-space characters. *)
Fixpoint split_chars (cur : list ascii) (l : list ascii) : list (list ascii) :=
  match l with
  | [] => match cur with [] => [] | _ => [rev cur] end
  | c :: l' =>
      if isspace c
      then match cur with
           | [] => split_chars [] l'
           | _ => rev cur :: split_chars [] l'
           end
      else split_chars (c :: cur) l'
  end.

Definition split (s : string) : list string :=
  map of_chars (split_chars [] (chars s)).

Fixpoint is_prefix (p l : list ascii) : bool :=
  match p, l with
  | [], _ => true
  | _ :: _, [] => false
  | a :: p', b :: l' => if Ascii.eqb a b then is_prefix p' l' else false
  end.

Fixpoint contains_chars (p l : list ascii) : bool :=
  is_prefix p l ||
  match l with
  | [] => false
  | _ :: l' => contains_chars p l'
  end.

(** [needle in hay] on strings. *)
Definition contains (needle hay : string) : bool :=
  contains_chars (chars needle) (chars hay).

End Py.

(* ===================================================================== *)
(** * intra_scale_interaction.py *)
(* ===================================================================== *)

Module IntraScale.

Local Open Scope string_scope.

(** The fixed iteration order [['L1', 'L2', 'L3']]. *)
Definition scales : list string := ["L1"; "L2"; "L3"].

(** [candidate_info.get(scale, [])] *)
Definition get_candidates (candidate_info : gmap string (list Z))
    (scale : string) : list Z :=
  default [] (candidate_info !! scale).

Record analysis := mk_analysis {
  candidate_count : nat;
  candidates : list Z;
  top_candidate : option Z;
  confidence_signal : string
}.

(** The body of the loop of [analyze_intra_scale_interaction]. *)
Definition analyze_scale (cands : list Z) : analysis :=
  {| candidate_count := length cands;
     candidates := cands;
     top_candidate := head cands;
     confidence_signal :=
       if (length cands =? 1)%nat then "strong"
       else if (length cands <=? 3)%nat then "medium"
       else "weak" |}.

Definition analyze_intra_scale_interaction
    (candidate_info : gmap string (list Z)) (ent_names_2 : gmap Z string)
    : gmap string analysis :=
  foldl (fun scale_analysis scale =>
           <[scale := analyze_scale (get_candidates candidate_info scale)]>
             scale_analysis)
        ∅ scales.

Record cross_scale_report := mk_report {
  has_conflict : bool;
  conflict_type : string;
  conflicting_scales : list string;
  top_candidates : list (string * Z);
  consensus_candidate : option Z;
  conflict_details : string
}.

(** [top_candidates]: an insertion-ordered dict, scale to rank-1 candidate. *)
Definition collect_top_candidates (candidate_info : gmap string (list Z))
    : list (string * Z) :=
  omap (fun scale =>
          match get_candidates candidate_info scale with
          | c :: _ => Some (scale, c)
          | [] => None
          end) scales.

(** [candidate_counts[kg2_id] += 1] on an insertion-ordered [defaultdict(int)]. *)
Fixpoint incr (k : Z) (counts : list (Z * nat)) : list (Z * nat) :=
  match counts with
  | [] => [(k, 1%nat)]
  | (k', n) :: rest =>
      if Z.eqb k k' then (k', S n) :: rest else (k', n) :: incr k rest
  end.

Definition count_candidates (top_values : list Z) : list (Z * nat) :=
  foldl (fun counts k => incr k counts) [] top_values.

(** [max(items, key=lambda x: x[1])]: the first item with the largest key. *)
Definition max_by_count (items : list (Z * nat)) : option (Z * nat) :=
  match items with
  | [] => None
  | x :: rest =>
      Some (foldl (fun best y => if (snd best <? snd y)%nat then y else best)
                  x rest)
  end.

(** [len(set(top_values)) == 1] for a non-empty list. *)
Definition all_same (top_values : list Z) : bool :=
  match top_values with
  | [] => false
  | v :: rest => forallb (Z.eqb v) rest
  end.

(** [str(x)] for [x] an integer or [None]. *)
Definition str_opt (o : option Z) : string :=
  match o with Some v => Py.str v | None => "None" end.

(** [str(l)] for a list of scale names. *)
Fixpoint repr_items (l : list string) : string :=
  match l with
  | [] => ""
  | [s] => "'" +:+ s +:+ "'"
  | s :: l' => "'" +:+ s +:+ "', " +:+ repr_items l'
  end.

Definition repr_list (l : list string) : string := "[" +:+ repr_items l +:+ "]".

Definition detect_cross_scale_conflicts
    (candidate_info : gmap string (list Z))
    (scale_analysis : gmap string analysis) : cross_scale_report :=
  let tops := collect_top_candidates candidate_info in
  if (length tops <=? 1)%nat then
    {| has_conflict := false;
       conflict_type := "none";
       conflicting_scales := [];
       top_candidates := tops;
       consensus_candidate := head (map snd tops);
       conflict_details := "No conflict: insufficient scales for comparison" |}
  else
    let top_values := map snd tops in
    if all_same top_values then
      {| has_conflict := false;
         conflict_type := "none";
         conflicting_scales := [];
         top_candidates := tops;
         consensus_candidate := head top_values;
         conflict_details := "No conflict: all scales agree on top candidate" |}
    else
      let candidate_counts := count_candidates top_values in
      let consensus := fst <$> max_by_count candidate_counts in
      let conflicting :=
        map fst (filter (fun sk => Some (snd sk) ≠ consensus) tops) in
      {| has_conflict := true;
         conflict_type := "cross_scale";
         conflicting_scales := conflicting;
         top_candidates := tops;
         consensus_candidate := consensus;
         conflict_details :=
           "Conflict detected: " +:+ Py.str (Z.of_nat (length conflicting))
           +:+ " scale(s) disagree. "
           +:+ "Consensus candidate: " +:+ str_opt consensus +:+ ", "
           +:+ "Conflicting scales: " +:+ repr_list conflicting |}.

(** [detect_intra_scale_conflicts]: scales with more than three candidates. *)
Definition detect_intra_scale_conflicts
    (candidate_info : gmap string (list Z))
    (scale_analysis : gmap string analysis) : list string :=
  filter (fun scale => (3 < length (get_candidates candidate_info scale))%nat)
         scales.

(** ** Notions used to state the majority vote *)

(** The number of scales whose rank-1 candidate is [v]. *)
Definition occurrences (v : Z) (l : list Z) : nat :=
  length (List.filter (Z.eqb v) l).

(** The distinct values of a list, in the order they are first met. *)
Definition first_seen (l : list Z) : list Z :=
  foldl (fun seen k => if bool_decide (k ∈ seen) then seen else app seen [k])
        [] l.

(** The candidate lists of the worked examples. *)
Definition example_candidates (l1 l2 l3 : list Z) : gmap string (list Z) :=
  <["L1" := l1]> (<["L2" := l2]> (<["L3" := l3]> ∅)).

End IntraScale.


(* ===================================================================== *)
(** * Tab-separated files *)
(* ===================================================================== *)

Module Tsv.

(** A field is the outcome of [int(field)]; a line is its list of fields
    ([line.strip().split('\t')]); a missing file is [None]. *)
Definition field : Type := option Z.
Definition line : Type := list field.
Definition file : Type := option (list line).

(** [if len(parts) >= 2: int(parts[0]); int(parts[1])], [None] for a line
    that is skipped (too short, or a [ValueError]). *)
Definition parse_pair (l : line) : option (Z * Z) :=
  match l with
  | Some a :: Some b :: _ => Some (a, b)
  | _ => None
  end.

(** [f.write(f"{a}\t{b}\n")] *)
Definition line_of_pair (p : Z * Z) : line := [Some p.1; Some p.2].

End Tsv.

(* ===================================================================== *)
(** * multi_scale_fusion.py *)
(* ===================================================================== *)

Module Fusion.

Import Tsv.
Local Open Scope string_scope.

(** ** Answer parsing in [fusion_task] *)

(** The [# Parse answer] block: [answer] is the stripped reply,
    [all_candidates] the candidate set in its iteration order.  The result
    is the KG2 id put on the queue, if any. *)
Definition parse_answer (answer : string) (all_candidates : list Z)
    : option Z :=
  if String.eqb (Py.lower answer) "no" then None
  else List.find (fun kg2_id => Py.contains (Py.str kg2_id) answer)
                 all_candidates.

(** [all_candidates]: the union of the three candidate lists. *)
Definition all_candidates (candidate_info : gmap string (list Z)) : gset Z :=
  foldl (fun acc scale =>
           acc ∪ list_to_set (IntraScale.get_candidates candidate_info scale))
        ∅ IntraScale.scales.

Section Broker.

(** The iteration order of a Python [set] of integers is not modelled: it is
    any enumeration of the set. *)
Variable set_iter : gset Z -> list Z.

(** The decision oracle: the reply to the request built for an entity, or
    [None] when anything in the [try] block raises. *)
Variable oracle : Z -> gmap string (list Z) -> option string.

Definition fusion_task (kg1_entity : Z) (candidate_info : gmap string (list Z))
    : list (Z * Z) :=
  let candidates := all_candidates candidate_info in
  if decide (candidates = ∅) then []
  else
    match oracle kg1_entity candidate_info with
    | None => []
    | Some content =>
        let answer := Py.strip content in
        match parse_answer answer (set_iter candidates) with
        | Some kg2_id => [(kg1_entity, kg2_id)]
        | None => []
        end
    end.

(** One task per key of [multi_scale_pairs]; the pairs the tasks append. *)
Definition run_tasks (multi_scale_pairs : gmap Z (gmap string (list Z)))
    : list (Z * Z) :=
  flat_map (fun kc => fusion_task kc.1 kc.2) (map_to_list multi_scale_pairs).

End Broker.

(** ** [add_to_sup_pairs] *)

(** The two files the function touches. *)
Record files := mk_files {
  sup_pairs_file : file;
  backup_file : file
}.

Record loaded := mk_loaded {
  sup_pairs : gset (Z * Z);
  kg1_ids : gset Z;
  kg2_ids : gset Z
}.

(** [# Load existing sup_pairs] *)
Definition load_sup_pairs (f : file) : loaded :=
  match f with
  | None => mk_loaded ∅ ∅ ∅
  | Some lines =>
      foldl (fun acc l =>
               match parse_pair l with
               | Some (a, b) =>
                   mk_loaded ({[ (a, b) ]} ∪ sup_pairs acc)
                             ({[ a ]} ∪ kg1_ids acc)
                             ({[ b ]} ∪ kg2_ids acc)
               | None => acc
               end)
            (mk_loaded ∅ ∅ ∅) lines
  end.

(** The three [continue] tests of [# Filter eligible entity pairs]. *)
Definition eligible (ld : loaded) (p : Z * Z) : bool :=
  if bool_decide (p.1 ∈ kg1_ids ld) then false
  else if bool_decide (p.2 ∈ kg2_ids ld) then false
  else if bool_decide (p ∈ sup_pairs ld) then false
  else true.

(** The sort key [(x[0], x[1])]. *)
Definition key_le (p q : Z * Z) : Prop :=
  p.1 < q.1 \/ (p.1 = q.1 /\ p.2 <= q.2).

#[global] Instance key_le_dec : RelDecision key_le.
Proof. intros p q. unfold key_le. apply _. Defined.

(** [sorted(s, key=lambda x: (x[0], x[1]))] of a set. *)
Definition sorted_pairs (s : gset (Z * Z)) : list (Z * Z) :=
  merge_sort key_le (elements s).

(** Returns the number of added pairs and the files afterwards. *)
Definition add_to_sup_pairs (fs : files) (aligned_pairs : list (Z * Z))
    : nat * files :=
  match aligned_pairs with
  | [] => (0%nat, fs)
  | _ =>
      let ld := load_sup_pairs (sup_pairs_file fs) in
      let new_pairs := List.filter (eligible ld) aligned_pairs in
      match new_pairs with
      | [] => (0%nat, fs)
      | _ =>
          let all_pairs := sup_pairs ld ∪ list_to_set new_pairs in
          let backup :=
            match sup_pairs_file fs with
            | Some old => Some old
            | None => backup_file fs
            end in
          (length new_pairs,
           {| sup_pairs_file := Some (map line_of_pair (sorted_pairs all_pairs));
              backup_file := backup |})
      end
  end.

(** The supervision set held by the files. *)
Definition supervision_set (fs : files) : gset (Z * Z) :=
  sup_pairs (load_sup_pairs (sup_pairs_file fs)).

(** Each KG1 id and each KG2 id occurs in at most one pair. *)
Definition one_to_one (s : gset (Z * Z)) : Prop :=
  forall p q, p ∈ s -> q ∈ s -> (p.1 = q.1 \/ p.2 = q.2) -> p = q.

(** A sequence of merges. *)
Definition merge_all (fs : files) (batches : list (list (Z * Z))) : files :=
  foldl (fun fs batch => (add_to_sup_pairs fs batch).2) fs batches.

(** [deduplicate_output_file]: the set of well-formed pairs of the file,
    which is rewritten in sorted order. *)
Definition deduplicate_output_file (f : file) : gset (Z * Z) * file :=
  match f with
  | None => (∅, None)
  | Some lines =>
      let unique_pairs : gset (Z * Z) := list_to_set (omap parse_pair lines) in
      (unique_pairs, Some (map line_of_pair (merge_sort key_le (elements unique_pairs))))
  end.

(** ** Notions used to state the answer parsing *)

(** [needle] occurs in [hay]. *)
Definition is_substring (needle hay : string) : Prop :=
  exists pre post, Py.chars hay = (pre ++ Py.chars needle ++ post)%list.

(** [k] is the first candidate, in iteration order, whose decimal form
    occurs in the answer. *)
Definition first_match (answer : string) (cands : list Z) (k : Z) : Prop :=
  exists l1 l2,
    cands = (l1 ++ k :: l2)%list
    /\ is_substring (Py.str k) answer
    /\ forall c, c ∈ l1 -> ~ is_substring (Py.str c) answer.

(** The strict order of the sort key. *)
Definition key_lt (p q : Z * Z) : Prop :=
  p.1 < q.1 \/ (p.1 = q.1 /\ p.2 < q.2).

(** The files and the batch of the example that breaks the invariant. *)
Definition example_files : files :=
  {| sup_pairs_file := Some [[Some 1; Some 100]]; backup_file := None |}.

Definition example_batch : list (Z * Z) := [(2, 300); (3, 300)].

End Fusion.

(* ===================================================================== *)
(** * hypergraph_decomposition.py *)
(* ===================================================================== *)

Module Decomposition.

(** [(head, rel, tail, time_start, time_end)] *)
Record triple := mk_triple {
  head_id : Z; rel_id : Z; tail_id : Z; time_start : Z; time_end : Z
}.

(** The attributes of a [HypergraphDecomposition] object. *)
Record decomposer := mk_decomposer {
  entity_pairs : list (Z * Z);
  kg1_triples : list triple;
  kg2_triples : list triple;
  kg1_entity_times : gmap Z (gset Z);
  kg2_entity_times : gmap Z (gset Z);
  kg1_entity_relations : gmap Z (gset (Z * Z));
  kg2_entity_relations : gmap Z (gset (Z * Z));
  relation_alignment : gmap Z (gset Z);
  temporal_aspects : gmap Z (Z * list (Z * Z));
  relational_aspects : gmap Z (Z * gset (Z * Z));
  aspect_to_original : gmap Z Z;
  temporal_aspect_counter : Z;
  relational_aspect_counter : Z
}.

(** [__init__] *)
Definition init : decomposer :=
  {| entity_pairs := []; kg1_triples := []; kg2_triples := [];
     kg1_entity_times := ∅; kg2_entity_times := ∅;
     kg1_entity_relations := ∅; kg2_entity_relations := ∅;
     relation_alignment := ∅;
     temporal_aspects := ∅; relational_aspects := ∅;
     aspect_to_original := ∅;
     temporal_aspect_counter := 1000000;
     relational_aspect_counter := 2000000 |}.

(** [d[k].add(x)] on a [defaultdict(set)]. *)
Definition add_to `{Countable A} (k : Z) (x : A) (d : gmap Z (gset A))
    : gmap Z (gset A) :=
  <[k := {[ x ]} ∪ default ∅ (d !! k)]> d.

(** [range(a, b + 1)] *)
Definition range_incl (a b : Z) : list Z := seqZ a (b + 1 - a).

(** One graph's half of [_extract_entity_temporal_info]. *)
Definition extract_times (triples : list triple) (times : gmap Z (gset Z))
    : gmap Z (gset Z) :=
  foldl (fun times t =>
           foldl (fun times entity_id =>
                    foldl (fun times time_id => add_to entity_id time_id times)
                          times (range_incl (time_start t) (time_end t)))
                 times [head_id t; tail_id t])
        times triples.

(** One graph's half of [_extract_entity_relation_info]. *)
Definition extract_relations (triples : list triple)
    (rels : gmap Z (gset (Z * Z))) : gmap Z (gset (Z * Z)) :=
  foldl (fun rels t => add_to (head_id t) (rel_id t, tail_id t) rels)
        rels triples.

(** [load_data], from the well-formed records of the frontier file, of the
    two triples files and of the relation-alignment file (columns 0 and 2). *)
Definition load_data (pairs : list (Z * Z)) (triples1 triples2 : list triple)
    (alignment_rows : list (Z * Z)) (d : decomposer) : decomposer :=
  {| entity_pairs := entity_pairs d ++ pairs;
     kg1_triples := kg1_triples d ++ triples1;
     kg2_triples := kg2_triples d ++ triples2;
     kg1_entity_times :=
       extract_times (kg1_triples d ++ triples1) (kg1_entity_times d);
     kg2_entity_times :=
       extract_times (kg2_triples d ++ triples2) (kg2_entity_times d);
     kg1_entity_relations :=
       extract_relations (kg1_triples d ++ triples1) (kg1_entity_relations d);
     kg2_entity_relations :=
       extract_relations (kg2_triples d ++ triples2) (kg2_entity_relations d);
     relation_alignment :=
       foldl (fun al row => add_to row.1 row.2 al)
             (relation_alignment d) alignment_rows;
     temporal_aspects := temporal_aspects d;
     relational_aspects := relational_aspects d;
     aspect_to_original := aspect_to_original d;
     temporal_aspect_counter := temporal_aspect_counter d;
     relational_aspect_counter := relational_aspect_counter d |}.

(** The loop of [_get_common_time_intervals] over [sorted_times[1:]]. *)
Fixpoint merge_times (intervals : list (Z * Z)) (start end_ : Z)
    (times : list Z) : list (Z * Z) :=
  match times with
  | [] => intervals ++ [(start, end_)]
  | time_id :: rest =>
      if time_id =? end_ + 1
      then merge_times intervals start time_id rest
      else merge_times (intervals ++ [(start, end_)]) time_id time_id rest
  end.

(** [sorted(s)] of a set of integers. *)
Definition sorted (s : gset Z) : list Z := merge_sort Z.le (elements s).

(** The function on the two time-id sets. *)
Definition common_time_intervals (times1 times2 : gset Z) : list (Z * Z) :=
  let common_times := times1 ∩ times2 in
  if decide (common_times = ∅) then []
  else
    match sorted common_times with
    | [] => []
    | t0 :: rest => merge_times [] t0 t0 rest
    end.

Definition _get_common_time_intervals (d : decomposer) (kg1_id kg2_id : Z)
    : list (Z * Z) :=
  common_time_intervals (default ∅ (kg1_entity_times d !! kg1_id))
                        (default ∅ (kg2_entity_times d !! kg2_id)).

Definition _get_common_relations (d : decomposer) (kg1_id kg2_id : Z)
    : gset (Z * Z) :=
  let kg1_rels := default ∅ (kg1_entity_relations d !! kg1_id) in
  let kg2_rels := default ∅ (kg2_entity_relations d !! kg2_id) in
  if decide (relation_alignment d = ∅) then ∅
  else
    let kg1_rel_ids : gset Z := set_map fst kg1_rels in
    let kg2_aligned_rel_ids : gset Z :=
      ⋃ (map (fun r => default ∅ (relation_alignment d !! r))
             (elements kg1_rel_ids)) in
    filter (fun rt => rt.1 ∈ kg2_aligned_rel_ids) kg2_rels.

(** The two result lists of [decompose]; the mapping is in the object. *)
Record results := mk_results {
  res_temporal : list (Z * Z);
  res_relational : list (Z * Z)
}.

(** The temporal half of the loop body. *)
Definition temporal_step (kg1_id kg2_id : Z) (s : decomposer * results)
    : decomposer * results :=
  let (d, r) := s in
  match _get_common_time_intervals d kg1_id kg2_id with
  | [] => s
  | common_intervals =>
      let aspect_id := temporal_aspect_counter d in
      ({| entity_pairs := entity_pairs d;
          kg1_triples := kg1_triples d; kg2_triples := kg2_triples d;
          kg1_entity_times := kg1_entity_times d;
          kg2_entity_times := kg2_entity_times d;
          kg1_entity_relations := kg1_entity_relations d;
          kg2_entity_relations := kg2_entity_relations d;
          relation_alignment := relation_alignment d;
          temporal_aspects :=
            <[aspect_id := (kg2_id, common_intervals)]> (temporal_aspects d);
          relational_aspects := relational_aspects d;
          aspect_to_original := <[aspect_id := kg2_id]> (aspect_to_original d);
          temporal_aspect_counter := aspect_id + 1;
          relational_aspect_counter := relational_aspect_counter d |},
       {| res_temporal := res_temporal r ++ [(kg1_id, aspect_id)];
          res_relational := res_relational r |})
  end.

(** The relational half of the loop body. *)
Definition relational_step (kg1_id kg2_id : Z) (s : decomposer * results)
    : decomposer * results :=
  let (d, r) := s in
  let common_rels := _get_common_relations d kg1_id kg2_id in
  if decide (common_rels = ∅) then s
  else
    let aspect_id := relational_aspect_counter d in
    ({| entity_pairs := entity_pairs d;
        kg1_triples := kg1_triples d; kg2_triples := kg2_triples d;
        kg1_entity_times := kg1_entity_times d;
        kg2_entity_times := kg2_entity_times d;
        kg1_entity_relations := kg1_entity_relations d;
        kg2_entity_relations := kg2_entity_relations d;
        relation_alignment := relation_alignment d;
        temporal_aspects := temporal_aspects d;
        relational_aspects :=
          <[aspect_id := (kg2_id, common_rels)]> (relational_aspects d);
        aspect_to_original := <[aspect_id := kg2_id]> (aspect_to_original d);
        temporal_aspect_counter := temporal_aspect_counter d;
        relational_aspect_counter := aspect_id + 1 |},
     {| res_temporal := res_temporal r;
        res_relational := res_relational r ++ [(kg1_id, aspect_id)] |}).

Definition decompose_step (s : decomposer * results) (p : Z * Z)
    : decomposer * results :=
  relational_step p.1 p.2 (temporal_step p.1 p.2 s).

(** The loop of [decompose] over a list of pairs. *)
Definition decompose_loop (pairs : list (Z * Z)) (s : decomposer * results)
    : decomposer * results :=
  foldl decompose_step s pairs.

(** [decompose]: the object afterwards and the returned lists. *)
Definition decompose (d : decomposer) : decomposer * results :=
  decompose_loop (entity_pairs d) (d, mk_results [] []).

(** The ids that occur in the loaded data: the real entity ids. *)
Definition real_entity_ids (d : decomposer) : gset Z :=
  list_to_set (map fst (entity_pairs d)) ∪ list_to_set (map snd (entity_pairs d))
  ∪ list_to_set (map head_id (kg1_triples d ++ kg2_triples d))
  ∪ list_to_set (map tail_id (kg1_triples d ++ kg2_triples d)).

(** ** Notions used to state the interval properties *)

(** [x] ends at least two before [y] starts: the two intervals neither
    overlap nor touch. *)
Definition apart (x y : Z * Z) : Prop := x.2 + 1 < y.1.

(** [t] lies in one of the intervals. *)
Definition covered (intervals : list (Z * Z)) (t : Z) : Prop :=
  exists s e, (s, e) ∈ intervals /\ s <= t <= e.

(** ** Notions used to state the allocation of aspect ids *)

(** The pair yields a temporal aspect. *)
Definition has_temporal (d : decomposer) (p : Z * Z) : bool :=
  match _get_common_time_intervals d p.1 p.2 with
  | [] => false
  | _ => true
  end.

(** The pair yields a relational aspect. *)
Definition has_relational (d : decomposer) (p : Z * Z) : bool :=
  negb (bool_decide (_get_common_relations d p.1 p.2 = ∅)).

(** The aspect ids of a run, in allocation order. *)
Definition temporal_ids (r : results) : list Z := map snd (res_temporal r).
Definition relational_ids (r : results) : list Z := map snd (res_relational r).

(** The loaded data of two objects are the same. *)
Definition same_data (d d' : decomposer) : Prop :=
  entity_pairs d = entity_pairs d'
  /\ kg1_triples d = kg1_triples d' /\ kg2_triples d = kg2_triples d'
  /\ kg1_entity_times d = kg1_entity_times d'
  /\ kg2_entity_times d = kg2_entity_times d'
  /\ kg1_entity_relations d = kg1_entity_relations d'
  /\ kg2_entity_relations d = kg2_entity_relations d'
  /\ relation_alignment d = relation_alignment d'.

(** A frontier whose KG2 entity carries the id 1000000. *)
Definition high_id_decomposer : decomposer :=
  load_data [(1, 1000000)]
            [mk_triple 1 7 2 5 5] [mk_triple 1000000 8 3 5 5] [] init.

(** A frontier of [n] pairs, each with a common time point and a common
    relation. *)
Definition long_decomposer (n : nat) : decomposer :=
  load_data (replicate n (1, 2))
            [mk_triple 1 7 3 5 5] [mk_triple 2 8 4 5 5] [(7, 8)] init.

End Decomposition.

(* ===================================================================== *)
(** * HyDRA_main.py *)
(* ===================================================================== *)

Module Pipeline.

Import Tsv.

(** The lines of [count_unique_kg1_entities] that contribute an id:
    [len(parts) >= 2] and [int(parts[0])] succeeds. *)
Definition kg1_of_line (l : line) : option Z :=
  match l with
  | Some kg1_id :: _ :: _ => Some kg1_id
  | _ => None
  end.

(** [count_unique_kg1_entities], on the frontier file
    [message_pool/integration_top_pair.txt]. *)
Definition count_unique_kg1_entities (frontier : file) : Z :=
  match frontier with
  | None => 0
  | Some lines =>
      let kg1_entities : gset Z := list_to_set (omap kg1_of_line lines) in
      Z.of_nat (size kg1_entities)
  end.

(** The stages the controller invokes, in the order it invokes them. *)
Inductive event :=
| EvS4Training (iteration : Z)
| EvCount (iteration : Z) (kg1_count : Z)
| EvRetrieval (iteration : Z)
| EvFusion (iteration : Z).

(** Everything outside the process: what is observed of the data
    directory and what the stages do to it. *)
Record stages (world : Type) := mk_stages {
  data_dir_exists : world -> bool;
  check_s4_output : world -> bool;
  frontier_file : world -> file;
  run_s4_training : world -> bool * world;
  run_s4_to_retrieval : Z -> world -> bool * world;
  run_multi_scale_fusion : world -> bool * world
}.

Arguments data_dir_exists {world}.
Arguments check_s4_output {world}.
Arguments frontier_file {world}.
Arguments run_s4_training {world}.
Arguments run_s4_to_retrieval {world}.
Arguments run_multi_scale_fusion {world}.

(** The arguments of [run_full_pipeline]. *)
Record options := mk_options {
  skip_s4 : bool;
  only_s4 : bool;
  max_iterations : Z;
  min_kg1_entities : Z
}.

(** The defaults: three iterations, threshold 50. *)
Definition default_options : options := mk_options false false 3 50.

Record loop_state (world : Type) := mk_state {
  iteration : Z;
  current : world;
  all_success_steps : list string;
  trace : list event
}.

Arguments iteration {world}.
Arguments current {world}.
Arguments all_success_steps {world}.
Arguments trace {world}.
Arguments mk_state {world}.

Inductive control (world : Type) :=
| Continue (st : loop_state world)
| Break (st : loop_state world)
| Return (b : bool) (st : loop_state world).

Arguments Continue {world}.
Arguments Break {world}.
Arguments Return {world}.

Section Controller.

Context {world : Type} (env : stages world) (opt : options).

(** [# Step 1: S4 Training]: [inl] is [return False]; otherwise the world,
    the trace and [success_steps] after the step. *)
Definition s4_step (i : Z) (w : world) (tr : list event)
    : loop_state world + (world * list event * list string) :=
  if negb (skip_s4 opt) then
    if check_s4_output env w && (1 <? i) then
      inr (w, tr, ["S4 (already exists)"%string])
    else
      let (ok, w') := run_s4_training env w in
      let tr' := tr ++ [EvS4Training i] in
      if ok then inr (w', tr', ["S4 Training"%string])
      else if i =? 1 then inl (mk_state i w' [] tr')
      else inr (w', tr', [])
  else
    if negb (check_s4_output env w) then
      if i =? 1 then inl (mk_state i w [] tr)
      else inr (w, tr, [])
    else inr (w, tr, ["S4 (skipped)"%string]).

(** One pass through the body of the [while] loop. *)
Definition body (st : loop_state world) : control world :=
  let i := iteration st + 1 in
  match s4_step i (current st) (trace st) with
  | inl failed =>
      Return false (mk_state i (current failed) (all_success_steps st)
                             (trace failed))
  | inr (w1, tr1, success_steps) =>
      let kg1_count := count_unique_kg1_entities (frontier_file env w1) in
      let tr2 := tr1 ++ [EvCount i kg1_count] in
      if kg1_count <? min_kg1_entities opt then
        Break (mk_state i w1 (all_success_steps st ++ success_steps) tr2)
      else
        let (ok2, w2) := run_s4_to_retrieval env i w1 in
        let tr3 := tr2 ++ [EvRetrieval i] in
        if negb ok2 then
          if i =? 1 then Return false (mk_state i w2 (all_success_steps st) tr3)
          else Continue (mk_state i w2 (all_success_steps st) tr3)
        else
          let (ok3, w3) := run_multi_scale_fusion env w2 in
          let tr4 := tr3 ++ [EvFusion i] in
          if negb ok3 then
            if i =? 1
            then Return false (mk_state i w3 (all_success_steps st) tr4)
            else Continue (mk_state i w3 (all_success_steps st) tr4)
          else
            let st' :=
              mk_state i w3
                (all_success_steps st ++ success_steps
                 ++ ["S4 to Retrieval"%string; "Multi-Scale Fusion"%string])
                tr4 in
            if max_iterations opt <=? i then Break st' else Continue st'
  end.

(** [while iteration < max_iterations: ...], then [return True]. *)
Fixpoint loop (fuel : nat) (st : loop_state world) : bool * loop_state world :=
  match fuel with
  | O => (true, st)
  | S fuel' =>
      if iteration st <? max_iterations opt then
        match body st with
        | Continue st' => loop fuel' st'
        | Break st' => (true, st')
        | Return b st' => (b, st')
        end
      else (true, st)
  end.

(** The iterations left before the loop condition fails. *)
Definition iterations_left (st : loop_state world) : nat :=
  Z.to_nat (max_iterations opt - iteration st).

Definition run_loop (st : loop_state world) : bool * loop_state world :=
  loop (iterations_left st) st.

(** The [only_s4] branch. *)
Definition run_only_s4 (st : loop_state world) : bool * loop_state world :=
  let w := current st in
  if negb (skip_s4 opt) then
    if check_s4_output env w then (true, st)
    else
      let (ok, w') := run_s4_training env w in
      (ok, mk_state (iteration st) w' (all_success_steps st)
                    (trace st ++ [EvS4Training 0]))
  else
    if negb (check_s4_output env w) then (false, st) else (true, st).

(** The state before the first iteration. *)
Definition start (w : world) : loop_state world := mk_state 0 w [] [].

Definition run_full_pipeline (w : world) : bool * loop_state world :=
  if negb (data_dir_exists env w) then (false, start w)
  else if only_s4 opt then run_only_s4 (start w)
  else run_loop (start w).

(** The states at the head of the loop in the run from [st0]. *)
Inductive reachable (st0 : loop_state world) : loop_state world -> Prop :=
| reach_start : reachable st0 st0
| reach_next st st' :
    reachable st0 st -> iteration st < max_iterations opt ->
    body st = Continue st' -> reachable st0 st'.

End Controller.

(** A data directory for the worked example: the frontier file, the frontier
    files later fusion passes leave behind, and the supervision pairs. *)
Record example_world := mk_world {
  ex_frontier : file;
  ex_next : list file;
  ex_sup_pairs : list (Z * Z)
}.

(** A frontier with [n] distinct KG1 ids, each with two candidates. *)
Definition frontier_of_size (n : Z) : file :=
  Some (flat_map (fun k => [[Some k; Some (k + 50000)];
                            [Some k; Some (k + 60000)]])
                 (seqZ 0 n)).

(** Fusion confirms the first frontier pair of every KG1 id and leaves the
    next frontier. *)
Definition example_fusion (w : example_world) : bool * example_world :=
  let confirmed :=
    match ex_frontier w with
    | Some lines => omap (fun l => match l with
                                   | [Some a; Some b] =>
                                       if b <? a + 60000 then Some (a, b) else None
                                   | _ => None
                                   end) lines
    | None => []
    end in
  (true,
   {| ex_frontier := default None (head (ex_next w));
      ex_next := tail (ex_next w);
      ex_sup_pairs := ex_sup_pairs w ++ confirmed |}).

Definition example_stages : stages example_world :=
  {| data_dir_exists := fun _ => true;
     check_s4_output := fun w => bool_decide (ex_frontier w <> None);
     frontier_file := ex_frontier;
     run_s4_training := fun w => (true, w);
     run_s4_to_retrieval := fun _ w => (true, w);
     run_multi_scale_fusion := example_fusion |}.

(** Frontiers with 200, 80 and 40 distinct KG1 ids. *)
Definition example_start : example_world :=
  {| ex_frontier := frontier_of_size 200;
     ex_next := [frontier_of_size 80; frontier_of_size 40];
     ex_sup_pairs := [] |}.

Definition example_run : bool * loop_state example_world :=
  run_full_pipeline example_stages default_options example_start.

(** The state at the head of the loop after [n] full iterations of the
    example. *)
Fixpoint example_head (n : nat) : loop_state example_world :=
  match n with
  | O => start example_start
  | S n' =>
      match body example_stages default_options (example_head n') with
      | Continue st | Break st | Return _ st => st
      end
  end.

End Pipeline.

(* ===================================================================== *)
(** * difflib.SequenceMatcher(None, a, b).ratio() *)
(* ===================================================================== *)

(** [text_similarity] calls the standard library's [SequenceMatcher] with
    no junk predicate and the default [autojunk=True].  The model follows
    CPython's [difflib]: [__chain_b], [find_longest_match],
    [get_matching_blocks] and [ratio].  With no junk predicate [bjunk] is
    empty, so the two loops of [find_longest_match] guarded by [isbjunk]
    never run and are left out. *)

Module Difflib.

Section Matcher.

Variables a b : list ascii.

(** The positions of [elt] in [b], ascending. *)
Fixpoint indices_from (j : nat) (l : list ascii) (elt : ascii) : list nat :=
  match l with
  | [] => []
  | c :: l' =>
      if Ascii.eqb c elt then j :: indices_from (S j) l' elt
      else indices_from (S j) l' elt
  end.

(** [bpopular]: with 200 elements or more, those occurring more than
    [n // 100 + 1] times. *)
Definition popular (elt : ascii) : bool :=
  let n := length b in
  ((200 <=? n) && (n / 100 + 1 <? length (indices_from 0 b elt)))%nat.

(** [b2j.get(elt, [])] after [__chain_b]. *)
Definition b2j (elt : ascii) : list nat :=
  if popular elt then [] else indices_from 0 b elt.

Record best := mk_best { besti : nat; bestj : nat; bestsize : nat }.

(** [j2len.get(j - 1, 0)] *)
Definition j2len_prev (j2len : nat -> nat) (j : nat) : nat :=
  match j with
  | O => O
  | S j' => j2len j'
  end.

(** The inner loop [for j in b2j.get(a[i], nothing)]. *)
Fixpoint scan_row (blo bhi i : nat) (j2len : nat -> nat) (js : list nat)
    (newj2len : nat -> nat) (bst : best) : (nat -> nat) * best :=
  match js with
  | [] => (newj2len, bst)
  | j :: js' =>
      if (j <? blo)%nat then scan_row blo bhi i j2len js' newj2len bst
      else if (bhi <=? j)%nat then (newj2len, bst)
      else
        let k := S (j2len_prev j2len j) in
        let newj2len' := fun j' => if (j' =? j)%nat then k else newj2len j' in
        let bst' :=
          if (bestsize bst <? k)%nat
          then mk_best (i + 1 - k) (j + 1 - k) k else bst in
        scan_row blo bhi i j2len js' newj2len' bst'
  end.

(** The outer loop [for i in range(alo, ahi)]. *)
Definition scan_rows (alo ahi blo bhi : nat) : (nat -> nat) * best :=
  foldl (fun st i =>
           let js := match a !! i with Some elt => b2j elt | None => [] end in
           scan_row blo bhi i st.1 js (fun _ => O) st.2)
        (fun _ => O, mk_best alo blo 0)
        (seq alo (ahi - alo)).

(** [while besti > alo and bestj > blo and a[besti-1] == b[bestj-1]] *)
Fixpoint extend_left (fuel alo blo : nat) (bst : best) : best :=
  match fuel with
  | O => bst
  | S fuel' =>
      if ((alo <? besti bst) && (blo <? bestj bst))%nat then
        match a !! (besti bst - 1)%nat, b !! (bestj bst - 1)%nat with
        | Some x, Some y =>
            if Ascii.eqb x y
            then extend_left fuel' alo blo
                   (mk_best (besti bst - 1) (bestj bst - 1) (S (bestsize bst)))
            else bst
        | _, _ => bst
        end
      else bst
  end.

(** [while besti+bestsize < ahi and bestj+bestsize < bhi and
    a[besti+bestsize] == b[bestj+bestsize]] *)
Fixpoint extend_right (fuel ahi bhi : nat) (bst : best) : best :=
  match fuel with
  | O => bst
  | S fuel' =>
      if ((besti bst + bestsize bst <? ahi)
          && (bestj bst + bestsize bst <? bhi))%nat then
        match a !! (besti bst + bestsize bst)%nat,
              b !! (bestj bst + bestsize bst)%nat with
        | Some x, Some y =>
            if Ascii.eqb x y
            then extend_right fuel' ahi bhi
                   (mk_best (besti bst) (bestj bst) (S (bestsize bst)))
            else bst
        | _, _ => bst
        end
      else bst
  end.

(** Each turn of the first loop lowers [besti], each turn of the second
    raises [besti + bestsize] towards [ahi]: the loops end within the fuel
    given here. *)
Definition find_longest_match (alo ahi blo bhi : nat) : best :=
  let bst := (scan_rows alo ahi blo bhi).2 in
  let bst := extend_left (besti bst) alo blo bst in
  extend_right (ahi - (besti bst + bestsize bst)) ahi bhi bst.

(** [get_matching_blocks]: the work list holds independent sub-ranges, the
    part left of a match and the part right of it; they are taken here by
    recursion.  The order of the blocks does not matter to [ratio]. *)
Fixpoint matching_blocks (fuel alo ahi blo bhi : nat) : list best :=
  match fuel with
  | O => []
  | S fuel' =>
      let x := find_longest_match alo ahi blo bhi in
      let i := besti x in
      let j := bestj x in
      let k := bestsize x in
      if (k =? 0)%nat then []
      else
        x :: (if ((alo <? i) && (blo <? j))%nat
              then matching_blocks fuel' alo i blo j else [])
          ++ (if ((i + k <? ahi) && (j + k <? bhi))%nat
              then matching_blocks fuel' (i + k) ahi (j + k) bhi else [])
  end.

(** A block is not empty, so a sub-range is shorter than its range:
    [S (ahi - alo)] levels of recursion are enough. *)
Definition get_matching_blocks : list best :=
  matching_blocks (S (length a)) 0 (length a) 0 (length b).

Definition matches : nat := sum_list (map bestsize get_matching_blocks).

(** [_calculate_ratio(matches, len(a) + len(b))], as an exact fraction. *)
Definition ratio : Q :=
  let total := (length a + length b)%nat in
  if (total =? 0)%nat then 1%Q
  else (inject_Z (2 * Z.of_nat matches) / inject_Z (Z.of_nat total))%Q.

End Matcher.

End Difflib.

(* ===================================================================== *)
(** * Insertion-ordered dictionaries *)
(* ===================================================================== *)

Module Dict.

Section Ops.

Context {K V : Type} `{EqDecision K}.

(** [d.get(k)] *)
Fixpoint get (k : K) (d : list (K * V)) : option V :=
  match d with
  | [] => None
  | (k', v) :: d' => if decide (k = k') then Some v else get k d'
  end.

(** [d[k] = v]: an existing key keeps its place, a new one goes last. *)
Fixpoint set (k : K) (v : V) (d : list (K * V)) : list (K * V) :=
  match d with
  | [] => [(k, v)]
  | (k', v') :: d' =>
      if decide (k = k') then (k', v) :: d' else (k', v') :: set k v d'
  end.

End Ops.

End Dict.

(* ===================================================================== *)
(** * relation_alignment.py *)
(* ===================================================================== *)

(** Scores are Python floats in the source; here they are the exact
    rationals the float operations approximate.  [RelationAlignment64]
    holds the scores as the floats themselves. *)

Module RelationAlignment.

Import Decomposition.
Local Open Scope string_scope.

Definition stopwords : gset string :=
  list_to_set ["a"; "an"; "the"; "of"; "in"; "on"; "at"; "to"; "for";
               "with"; "by"; "or"; "and"].

(** [set(name_lower.split()) - stopwords] *)
Definition words (name_lower : string) : gset string :=
  list_to_set (Py.split name_lower) ∖ stopwords.

(** [len(words1 & words2) / len(words1 | words2) if (words1 | words2) else 0] *)
Definition word_overlap (words1 words2 : gset string) : Q :=
  if decide (words1 ∪ words2 = ∅) then 0%Q
  else (inject_Z (Z.of_nat (size (words1 ∩ words2)))
        / inject_Z (Z.of_nat (size (words1 ∪ words2))))%Q.

(** [SequenceMatcher(None, s1, s2).ratio()] *)
Definition sequence_similarity (s1 s2 : string) : Q :=
  Difflib.ratio (Py.chars s1) (Py.chars s2).

Definition text_similarity (name1 name2 : string) : Q :=
  let name1_lower := Py.lower name1 in
  let name2_lower := Py.lower name2 in
  if String.eqb name1_lower name2_lower then 1%Q
  else
    let similarity := sequence_similarity name1_lower name2_lower in
    let words1 := words name1_lower in
    let words2 := words name2_lower in
    if negb (bool_decide (words1 = ∅)) && negb (bool_decide (words2 = ∅))
    then ((6 # 10) * similarity + (4 # 10) * word_overlap words1 words2)%Q
    else similarity.

(** [load_relations]: the dict built from the well-formed rows. *)
Definition load_relations (rows : list (Z * string)) : list (Z * string) :=
  foldl (fun relations row => Dict.set row.1 row.2 relations) [] rows.

(** [kg_entity_rels[head][rel].add(tail)]: the outer dict is only looked
    up, the inner one is iterated. *)
Definition entity_rels (triples : list triple) : gmap Z (list (Z * gset Z)) :=
  foldl (fun d t =>
           let inner := default [] (d !! head_id t) in
           let tails := default ∅ (Dict.get (rel_id t) inner) in
           <[head_id t := Dict.set (rel_id t) ({[ tail_id t ]} ∪ tails) inner]> d)
        ∅ triples.

(** [cooccurrence[key] += 1] *)
Definition bump (key : Z * Z) (c : list (Z * Z * nat)) : list (Z * Z * nat) :=
  Dict.set key (S (default O (Dict.get key c))) c.

Definition compute_cooccurrence_patterns (kg1_triples kg2_triples : list triple)
    (entity_pairs : list (Z * Z)) : list (Z * Z * nat) :=
  let kg1_to_kg2 : gmap Z Z :=
    foldl (fun m p => <[p.1 := p.2]> m) ∅ entity_pairs in
  let kg1_entity_rels := entity_rels kg1_triples in
  let kg2_entity_rels := entity_rels kg2_triples in
  foldl (fun cooccurrence p =>
    let kg1_rels := default [] (kg1_entity_rels !! p.1) in
    let kg2_rels := default [] (kg2_entity_rels !! p.2) in
    foldl (fun cooccurrence r1 =>
      foldl (fun cooccurrence r2 =>
        let aligned_tails :=
          existsb (fun kg1_tail =>
                     match kg1_to_kg2 !! kg1_tail with
                     | Some kg2_aligned_tail =>
                         bool_decide (kg2_aligned_tail ∈ r2.2)
                     | None => false
                     end)
                  (elements r1.2) in
        if aligned_tails then bump (r1.1, r2.1) cooccurrence else cooccurrence)
      cooccurrence kg2_rels)
    cooccurrence kg1_rels)
  [] entity_pairs.

(** [(kg1_rel_id, kg2_rel_id, score, method)] *)
Record alignment := mk_alignment {
  al_kg1 : Z; al_kg2 : Z; al_score : Q; al_method : string
}.

(** [l.sort(key=lambda x: x[2], reverse=True)]: stable, descending. *)
Fixpoint insert_desc (x : alignment) (l : list alignment) : list alignment :=
  match l with
  | [] => [x]
  | y :: l' =>
      if Qle_bool (al_score y) (al_score x) then x :: l
      else y :: insert_desc x l'
  end.

Definition sort_desc (l : list alignment) : list alignment :=
  foldr insert_desc [] l.

(** [# Method 1: Text similarity] *)
Definition text_alignments (kg1_relations kg2_relations : list (Z * string))
    (text_sim_threshold : Q) : list alignment :=
  sort_desc
    (flat_map (fun r1 =>
       flat_map (fun r2 =>
         let similarity := text_similarity r1.2 r2.2 in
         if Qle_bool text_sim_threshold similarity
         then [mk_alignment r1.1 r2.1 similarity "text_similarity"]
         else [])
       kg2_relations)
     kg1_relations).

(** [max(cooccurrence.values()) if cooccurrence else 1] *)
Definition max_count (c : list (Z * Z * nat)) : nat :=
  match c with
  | [] => 1%nat
  | _ => foldr Nat.max O (map snd c)
  end.

(** [# Method 2: Co-occurrence patterns], when both triple lists are
    non-empty. *)
Definition cooccurrence_alignments (c : list (Z * Z * nat)) : list alignment :=
  let max_cooccur := max_count c in
  map (fun kc =>
         let normalized_score :=
           if (0 <? max_cooccur)%nat
           then Qmin 1 (inject_Z (Z.of_nat kc.2)
                        / inject_Z (Z.of_nat max_cooccur))%Q
           else 0%Q in
         mk_alignment kc.1.1 kc.1.2 normalized_score "cooccurrence")
      c.

(** [# Deduplicate and merge identical relation pairs] *)
Definition merge_alignment (alignment_dict : list (Z * Z * alignment))
    (x : alignment) : list (Z * Z * alignment) :=
  let key := (al_kg1 x, al_kg2 x) in
  match Dict.get key alignment_dict with
  | None => Dict.set key x alignment_dict
  | Some old =>
      if negb (Qle_bool (al_score x) (al_score old))
      then Dict.set key x alignment_dict
      else alignment_dict
  end.

(** [find_relation_alignments], on the loaded relation dicts, frontier
    pairs and triples. *)
Definition find_relation_alignments
    (kg1_relations kg2_relations : list (Z * string))
    (entity_pairs : list (Z * Z)) (kg1_triples kg2_triples : list triple)
    (use_cooccurrence : bool) (text_sim_threshold : Q) : list alignment :=
  match kg1_relations, kg2_relations with
  | [], _ | _, [] => []
  | _, _ =>
      let alignments :=
        app (text_alignments kg1_relations kg2_relations text_sim_threshold)
          (if use_cooccurrence then
              match entity_pairs, kg1_triples, kg2_triples with
              | _ :: _, _ :: _, _ :: _ =>
                  cooccurrence_alignments
                    (compute_cooccurrence_patterns kg1_triples kg2_triples
                                                   entity_pairs)
              | _, _, _ => []
              end
            else []) in
      let alignment_dict := foldl merge_alignment [] alignments in
      sort_desc (map snd alignment_dict)
  end.

End RelationAlignment.

(* ===================================================================== *)
(** * Further parts of the sources

    - [PipelineTrace]   notions on the trace of [run_full_pipeline];
    - [Aspects]         [create_aspect_entities_for_retrieval] of
                        [hypergraph_decomposition.py];
    - [AlignmentOrder]  notions on the list [find_relation_alignments]
                        returns;
    - [Cooccurrence]    notions on [compute_cooccurrence_patterns];
    - [Projection]      [link_retrieval_results_to_original],
                        [create_multi_scale_hypergraph_representation] and
                        steps 8 and 9 of [s4_to_retrieval] in
                        [entity_projection.py];
    - [FusionMain]      [load_multi_scale_pairs] and [multi_scale_fusion]
                        of [multi_scale_fusion.py];
    - [EntityFile]      the replacement and restoring of [ent_ids_1] in
                        [s4_to_retrieval] and [ensure_ent_ids_1_restored]
                        of [HyDRA_main.py];
    - [RelationAlignment64]
                        [relation_alignment.py] on the files of the data
                        directory, with loaders that raise and scores in
                        binary64;
    - [AlignmentFile]   [run_relation_alignment.py],
                        [save_relation_alignments] and the reading of the
                        alignment file in [_load_relation_alignment]. *)
(* ===================================================================== *)

(* ===================================================================== *)
(** * Notions used to state the order of the stages *)
(* ===================================================================== *)

Module PipelineTrace.

Import Pipeline.

(** The iteration an event belongs to. *)
Definition event_iteration (e : event) : Z :=
  match e with
  | EvS4Training i => i
  | EvCount i _ => i
  | EvRetrieval i => i
  | EvFusion i => i
  end.

(** The place of a stage in the body of the loop. *)
Definition stage_rank (e : event) : Z :=
  match e with
  | EvS4Training _ => 0
  | EvCount _ _ => 1
  | EvRetrieval _ => 2
  | EvFusion _ => 3
  end.

(** [e] comes before [e']: in an earlier iteration, or earlier in the body
    of the same iteration. *)
Definition event_lt (e e' : event) : Prop :=
  event_iteration e < event_iteration e'
  \/ (event_iteration e = event_iteration e' /\ stage_rank e < stage_rank e').

(** The state a pass through the body leaves, however it ends. *)
Definition state_of {world : Type} (c : control world) : loop_state world :=
  match c with
  | Continue st => st
  | Break st => st
  | Return _ st => st
  end.

(** The events of one iteration: they carry its number, come in the order
    of the body, and retrieval and fusion stand behind their guards. *)
Definition iteration_events (opt : options) (i : Z) (new : list event)
    : Prop :=
  StronglySorted event_lt new
  /\ (forall e, e ∈ new -> event_iteration e = i)
  /\ (EvRetrieval i ∈ new ->
      exists c, EvCount i c ∈ new /\ min_kg1_entities opt <= c)
  /\ (EvFusion i ∈ new -> EvRetrieval i ∈ new).

(** What holds of the trace at every point of a run: the events are in the
    order of the iterations and of the body, none is ahead of the iteration
    counter, and retrieval and fusion stand behind their guards. *)
Definition ordered_state (opt : options) {world : Type}
    (st : loop_state world) : Prop :=
  0 <= iteration st
  /\ StronglySorted event_lt (trace st)
  /\ (forall e, e ∈ trace st -> 0 <= event_iteration e <= iteration st)
  /\ (forall i, EvRetrieval i ∈ trace st ->
        exists c, EvCount i c ∈ trace st /\ min_kg1_entities opt <= c)
  /\ (forall i, EvFusion i ∈ trace st -> EvRetrieval i ∈ trace st).

End PipelineTrace.

(* ===================================================================== *)
(** * hypergraph_decomposition.py: the aspect ids handed to retrieval *)
(* ===================================================================== *)

Module Aspects.

Import Decomposition.

(** [create_aspect_entities_for_retrieval], on the lists [decompose]
    returns. *)
Definition create_aspect_entities_for_retrieval (r : results) : gset Z :=
  foldl (fun all_aspect_ids p => {[ p.2 ]} ∪ all_aspect_ids)
    (foldl (fun all_aspect_ids p => {[ p.2 ]} ∪ all_aspect_ids)
           ∅ (res_temporal r))
    (res_relational r).

(** The triple is a fact about entity [e], as head or tail, that holds at
    time [t]. *)
Definition spans (tr : triple) (e t : Z) : Prop :=
  (head_id tr = e \/ tail_id tr = e) /\ time_start tr <= t <= time_end tr.

End Aspects.

(* ===================================================================== *)
(** * Notions used to state the shape of the alignment list *)
(* ===================================================================== *)

Module AlignmentOrder.

Import RelationAlignment.

(** The key of the dict that merges the alignments. *)
Definition al_key (x : alignment) : Z * Z := (al_kg1 x, al_kg2 x).


End AlignmentOrder.

(* ===================================================================== *)
(** * Notions used to state what the co-occurrence counts count *)
(* ===================================================================== *)

Module Cooccurrence.

Import Decomposition RelationAlignment.

(** [kg1_to_kg2] of [compute_cooccurrence_patterns]: for a KG1 id that
    several pairs list, the last pair decides. *)
Definition kg1_to_kg2 (entity_pairs : list (Z * Z)) : gmap Z Z :=
  foldl (fun m p => <[p.1 := p.2]> m) ∅ entity_pairs.

(** The tails of the triples with a given head and relation. *)
Definition tails_of (triples : list triple) (head rel : Z) : gset Z :=
  list_to_set
    (map tail_id
       (List.filter (fun t => Z.eqb (head_id t) head && Z.eqb (rel_id t) rel)
                    triples)).

(** The relations [r1] and [r2] co-occur at the pair [p]: a KG1 fact
    [(p.1, r1, t1)] and a KG2 fact [(p.2, r2, t2)] have tails that
    [kg1_to_kg2] pairs. *)
Definition cooccur (kg1_triples kg2_triples : list triple)
    (entity_pairs : list (Z * Z)) (r1 r2 : Z) (p : Z * Z) : Prop :=
  exists tr1 tr2,
    tr1 ∈ kg1_triples /\ tr2 ∈ kg2_triples
    /\ head_id tr1 = p.1 /\ rel_id tr1 = r1
    /\ head_id tr2 = p.2 /\ rel_id tr2 = r2
    /\ kg1_to_kg2 entity_pairs !! tail_id tr1 = Some (tail_id tr2).

(** [cooccurrence.get(key, 0)] *)
Definition count_of (key : Z * Z) (c : list (Z * Z * nat)) : nat :=
  default O (Dict.get key c).

End Cooccurrence.

(* ===================================================================== *)
(** * entity_projection.py: linking and the three scale files *)
(* ===================================================================== *)

Module Projection.

Import Tsv.

(** The body of the loop of [link_retrieval_results_to_original]: the lines
    written for one input line, [None] when [int(parts[1])] raises.  The
    first field is copied as it stands. *)
Definition link_line (aspect_mapping : gmap Z Z) (l : line)
    : option (list line) :=
  match l with
  | kg1_id :: Some retrieved_id :: _ =>
      match aspect_mapping !! retrieved_id with
      | Some original_id =>
          Some [[kg1_id; Some original_id; Some retrieved_id]]
      | None => Some [[kg1_id; Some retrieved_id]]
      end
  | _ :: None :: _ => None
  | _ => Some []
  end.

(** The loop: whether it ran to the end, and the lines written. *)
Fixpoint link_lines (aspect_mapping : gmap Z Z) (lines : list line)
    : bool * list line :=
  match lines with
  | [] => (true, [])
  | l :: rest =>
      match link_line aspect_mapping l with
      | Some written =>
          let (ok, out) := link_lines aspect_mapping rest in
          (ok, written ++ out)
      | None => (false, [])
      end
  end.

(** [link_retrieval_results_to_original]: [false] when it raises; the
    linked file afterwards. *)
Definition link_retrieval_results_to_original (aspect_mapping : gmap Z Z)
    (retrieval_output_file linked_output_file : file) : bool * file :=
  match retrieval_output_file with
  | None => (true, linked_output_file)
  | Some lines =>
      let (ok, out) := link_lines aspect_mapping lines in (ok, Some out)
  end.

(** The files of [message_pool/multi_scale_hypergraph]. *)
Record scale_files := mk_scale_files {
  L1_hypergraph : file;
  L2_hypergraph : file;
  L3_hypergraph : file
}.

(** The files of [message_pool] that steps 8 and 9 read and write. *)
Record message_pool := mk_message_pool {
  integration_top_pair : file;
  retriever_outputs : file;
  retriever_outputs_linked : file;
  multi_scale_hypergraph : scale_files
}.

(** [if os.path.exists(source_file): shutil.copy2(source_file, target_file)] *)
Definition copy_if_exists (source target : file) : file :=
  match source with
  | Some _ => source
  | None => target
  end.

(** [create_multi_scale_hypergraph_representation] *)
Definition create_multi_scale_hypergraph_representation (mp : message_pool)
    : message_pool :=
  {| integration_top_pair := integration_top_pair mp;
     retriever_outputs := retriever_outputs mp;
     retriever_outputs_linked := retriever_outputs_linked mp;
     multi_scale_hypergraph :=
       {| L1_hypergraph :=
            copy_if_exists (integration_top_pair mp)
                           (L1_hypergraph (multi_scale_hypergraph mp));
          L2_hypergraph :=
            copy_if_exists (retriever_outputs mp)
                           (L2_hypergraph (multi_scale_hypergraph mp));
          L3_hypergraph :=
            copy_if_exists (retriever_outputs_linked mp)
                           (L3_hypergraph (multi_scale_hypergraph mp)) |} |}.

(** Steps 8 and 9 of [s4_to_retrieval]: [false] when step 8 raises, in
    which case step 9 does not run. *)
Definition link_and_represent (aspect_mapping : gmap Z Z) (mp : message_pool)
    : bool * message_pool :=
  let (ok, linked) :=
    if decide (aspect_mapping = ∅) then
      (true, copy_if_exists (retriever_outputs mp)
                            (retriever_outputs_linked mp))
    else
      link_retrieval_results_to_original aspect_mapping
        (retriever_outputs mp) (retriever_outputs_linked mp) in
  let mp' :=
    {| integration_top_pair := integration_top_pair mp;
       retriever_outputs := retriever_outputs mp;
       retriever_outputs_linked := linked;
       multi_scale_hypergraph := multi_scale_hypergraph mp |} in
  if ok then (true, create_multi_scale_hypergraph_representation mp')
  else (false, mp').

(** ** Notions used to state what the scale files hold *)

(** The well-formed pairs of a file, in file order. *)
Definition file_pairs (f : file) : list (Z * Z) :=
  match f with
  | Some lines => omap parse_pair lines
  | None => []
  end.

(** The candidates a file lists for a KG1 entity, in file order. *)
Definition candidates_of (f : file) (kg1_id : Z) : list Z :=
  map snd (List.filter (fun p => Z.eqb p.1 kg1_id) (file_pairs f)).

(** An aspect id stands for its original entity, any other id for
    itself. *)
Definition resolve (aspect_mapping : gmap Z Z) (retrieved_id : Z) : Z :=
  default retrieved_id (aspect_mapping !! retrieved_id).

End Projection.

(* ===================================================================== *)
(** * multi_scale_fusion.py: loading the scales and the main function *)
(* ===================================================================== *)

Module FusionMain.

Import Tsv Fusion Projection.
Local Open Scope string_scope.

(** The default of [multi_scale_pairs]:
    [{'L1': [], 'L2': [], 'L3': []}]. *)
Definition empty_entry : gmap string (list Z) :=
  <["L1" := []]> (<["L2" := []]> (<["L3" := []]> ∅)).

(** [multi_scale_pairs[kg1_id][scale].append(kg2_id)] *)
Definition append_candidate (scale : string) (kg1_id kg2_id : Z)
    (multi_scale_pairs : gmap Z (gmap string (list Z)))
    : gmap Z (gmap string (list Z)) :=
  let entry := default empty_entry (multi_scale_pairs !! kg1_id) in
  <[kg1_id :=
      <[scale := app (IntraScale.get_candidates entry scale) [kg2_id]]> entry]>
    multi_scale_pairs.

(** The body of the loop over the scale files. *)
Definition load_scale (scale : string) (f : file)
    (multi_scale_pairs : gmap Z (gmap string (list Z)))
    : gmap Z (gmap string (list Z)) :=
  match f with
  | None => multi_scale_pairs
  | Some lines =>
      foldl (fun msp l =>
               match parse_pair l with
               | Some (kg1_id, kg2_id) =>
                   append_candidate scale kg1_id kg2_id msp
               | None => msp
               end)
            multi_scale_pairs lines
  end.

(** [load_multi_scale_pairs] *)
Definition load_multi_scale_pairs (fs : scale_files)
    : gmap Z (gmap string (list Z)) :=
  load_scale "L3" (L3_hypergraph fs)
    (load_scale "L2" (L2_hypergraph fs)
       (load_scale "L1" (L1_hypergraph fs) ∅)).

(** The file of a scale. *)
Definition scale_file (fs : scale_files) (scale : string) : file :=
  if String.eqb scale "L1" then L1_hypergraph fs
  else if String.eqb scale "L2" then L2_hypergraph fs
  else if String.eqb scale "L3" then L3_hypergraph fs
  else None.

(** An entry holds the three scales and nothing else. *)
Definition three_scales (entry : gmap string (list Z)) : Prop :=
  forall s, is_Some (entry !! s) <-> s ∈ IntraScale.scales.

(** No KG1 id occurs in two pairs. *)
Definition kg1_unique (s : gset (Z * Z)) : Prop :=
  forall p q, p ∈ s -> q ∈ s -> p.1 = q.1 -> p = q.

(** The files [multi_scale_fusion] reads and writes. *)
Record fusion_dir := mk_fusion_dir {
  scales_dir : scale_files;
  fusion_results : file;
  sup_files : files
}.

Section Main.

(** The iteration order of a set of integers and of a set of pairs, the
    decision oracle, and the order in which the tasks put their results on
    the queue. *)
Variable set_iter : gset Z -> list Z.
Variable pair_iter : gset (Z * Z) -> list (Z * Z).
Variable oracle : Z -> gmap string (list Z) -> option string.
Variable queue_order : list (Z * Z) -> list (Z * Z).

(** [multi_scale_fusion]: the returned pairs and the files afterwards. *)
Definition multi_scale_fusion (w : fusion_dir)
    : list (Z * Z) * fusion_dir :=
  let multi_scale_pairs := load_multi_scale_pairs (scales_dir w) in
  if decide (multi_scale_pairs = ∅) then ([], w)
  else
    let queue := queue_order (run_tasks set_iter oracle multi_scale_pairs) in
    let (unique_pairs, output) :=
      deduplicate_output_file (Some (map line_of_pair queue)) in
    let aligned_pairs :=
      if decide (unique_pairs = ∅) then [] else pair_iter unique_pairs in
    let sup' :=
      match aligned_pairs with
      | [] => sup_files w
      | _ => (add_to_sup_pairs (sup_files w) aligned_pairs).2
      end in
    (aligned_pairs,
     {| scales_dir := scales_dir w;
        fusion_results := output;
        sup_files := sup' |}).

End Main.

End FusionMain.

(* ===================================================================== *)
(** * The file ent_ids_1 and its backup *)
(* ===================================================================== *)

Module EntityFile.

Local Open Scope string_scope.

(** The files [ent_ids_1], [ent_ids_1.backup] and
    [message_pool/query_ent_ids_1.txt], each the list of its lines or
    [None] when it does not exist. *)
Record ent_files := mk_ent_files {
  ent_ids_1 : option (list string);
  ent_ids_1_backup : option (list string);
  query_ent_ids_1 : option (list string)
}.

(** [sum(1 for line in f if line.strip())] *)
Definition line_count (lines : list string) : nat :=
  length (List.filter (fun line => negb (String.eqb (Py.strip line) ""))
                      lines).

(** [shutil.move(backup_path, ent_ids_1_path)] when the backup exists. *)
Definition restore_from_backup (w : ent_files) : ent_files :=
  match ent_ids_1_backup w with
  | Some saved =>
      {| ent_ids_1 := Some saved;
         ent_ids_1_backup := None;
         query_ent_ids_1 := query_ent_ids_1 w |}
  | None => w
  end.

(** [ensure_ent_ids_1_restored] of [HyDRA_main.py] *)
Definition ensure_ent_ids_1_restored (w : ent_files) : bool * ent_files :=
  let w' := restore_from_backup w in
  match ent_ids_1 w' with
  | Some lines =>
      if (line_count lines <? 1000)%nat then (false, w') else (true, w')
  | None => (false, w')
  end.

Section Retrieval.

(** Steps 7 to 9 of [s4_to_retrieval]: neural retrieval, linking and the
    scale files; [false] when one of them raises. *)
Variable retrieve : ent_files -> bool * ent_files.

(** [s4_to_retrieval] from step 6 on, the [finally] block included:
    whether [True] is returned, and the files afterwards.  When the query
    file is missing the second copy raises before [use_temp_file] is set,
    so that nothing is restored. *)
Definition replace_retrieve_restore (w : ent_files) : bool * ent_files :=
  match ent_ids_1 w with
  | Some original =>
      match query_ent_ids_1 w with
      | Some query =>
          let (ok, w2) :=
            retrieve {| ent_ids_1 := Some query;
                        ent_ids_1_backup := Some original;
                        query_ent_ids_1 := Some query |} in
          (ok, restore_from_backup w2)
      | None =>
          (false,
           {| ent_ids_1 := Some original;
              ent_ids_1_backup := Some original;
              query_ent_ids_1 := None |})
      end
  | None => retrieve w
  end.

End Retrieval.

(** The state between step 6 and the [finally] block. *)
Definition replaced (w : ent_files) : ent_files :=
  match ent_ids_1 w, query_ent_ids_1 w with
  | Some original, Some query =>
      {| ent_ids_1 := Some query;
         ent_ids_1_backup := Some original;
         query_ent_ids_1 := Some query |}
  | _, _ => w
  end.

End EntityFile.

(* ===================================================================== *)
(** * relation_alignment.py on the files, with the floats of the source *)
(* ===================================================================== *)

(** Python's [float] is the binary64 format of IEEE 754 with rounding to
    the nearest, ties to even: the primitive floats of the kernel.  A score
    below is the number the interpreter computes, and a comparison of two
    scores is the comparison the interpreter makes.

    The loaders of [relation_alignment.py] call [int] outside any [try]: a
    field that is no integer raises [ValueError], and nothing catches it
    before [run_s4_to_retrieval] of [HyDRA_main.py].  A computation that
    raises is [None].

    The relation files hold names, so their lines are kept as text: a line
    is the list of the fields [line.strip().split('\t')] gives, and [int]
    on a text is a parameter.  The other files are read for integers only
    and are modelled as in [Tsv].

    [RelationAlignment] above evaluates the same expressions over the
    rationals, on data that are already loaded. *)

Set Warnings "-inexact-float".

Module RelationAlignment64.

Import PrimFloat Tsv Decomposition.
Local Open Scope string_scope.
Local Open Scope list_scope.

(** ** Scores *)

(** [float(n)] for a length or a count [n], which is far below 2^63;
    exact below 2^53. *)
Definition of_nat (n : nat) : float :=
  of_uint63 (Uint63Axioms.of_Z (Z.of_nat n)).

(** [SequenceMatcher(None, a, b).ratio()]:
    [_calculate_ratio(matches, len(a) + len(b))], which is
    [2.0 * matches / length] for a positive length and [1.0] otherwise. *)
Definition ratio (a b : list ascii) : float :=
  let matches := Difflib.matches a b in
  let length := (List.length a + List.length b)%nat in
  if (length =? 0)%nat then 1%float
  else (2 * of_nat matches / of_nat length)%float.

(** [len(words1 & words2) / len(words1 | words2) if (words1 | words2) else 0] *)
Definition word_overlap (words1 words2 : gset string) : float :=
  if decide (words1 ∪ words2 = ∅) then 0%float
  else (of_nat (size (words1 ∩ words2)) / of_nat (size (words1 ∪ words2)))%float.

Definition sequence_similarity (s1 s2 : string) : float :=
  ratio (Py.chars s1) (Py.chars s2).

Definition text_similarity (name1 name2 : string) : float :=
  let name1_lower := Py.lower name1 in
  let name2_lower := Py.lower name2 in
  if String.eqb name1_lower name2_lower then 1%float
  else
    let similarity := sequence_similarity name1_lower name2_lower in
    let words1 := RelationAlignment.words name1_lower in
    let words2 := RelationAlignment.words name2_lower in
    if negb (bool_decide (words1 = ∅)) && negb (bool_decide (words2 = ∅))
    then (0.6 * similarity + 0.4 * word_overlap words1 words2)%float
    else similarity.

(** The formula of the specification, for comparison with the code:
    0.6 times the sequence similarity of the lowercased names plus 0.4
    times the Jaccard similarity of their token sets without stop words,
    and 1 for names equal up to case. *)
Definition spec_text_similarity (name1 name2 : string) : float :=
  let name1_lower := Py.lower name1 in
  let name2_lower := Py.lower name2 in
  if String.eqb name1_lower name2_lower then 1%float
  else (0.6 * sequence_similarity name1_lower name2_lower
        + 0.4 * word_overlap (RelationAlignment.words name1_lower)
                             (RelationAlignment.words name2_lower))%float.

(** ** The files of the data directory *)

Definition text_line : Type := list string.
Definition text_file : Type := option (list text_line).

(** The files the relation alignment reads and the one it writes;
    [integration_top_pair.txt] and [relation_alignment.txt] lie in
    [message_pool]. *)
Record data_dir := mk_data_dir {
  rel_ids_1 : text_file;
  rel_ids_2 : text_file;
  triples_1 : file;
  triples_2 : file;
  integration_top_pair : file;
  relation_alignment_txt : file
}.

(** The lines of a file one after the other; a line that raises ends the
    loading. *)
Fixpoint load_lines {A B : Type} (parse : A -> option (list B))
    (lines : list A) : option (list B) :=
  match lines with
  | [] => Some []
  | l :: lines' =>
      match parse l with
      | Some rows =>
          match load_lines parse lines' with
          | Some rest => Some (rows ++ rest)
          | None => None
          end
      | None => None
      end
  end.

(** [if len(parts) >= 3: head = int(parts[0]); rel = int(parts[1]);
     tail = int(parts[2]);
     time_start = int(parts[3]) if len(parts) > 3 else 0;
     time_end = int(parts[4]) if len(parts) > 4 else time_start] *)
Definition parse_triple (parts : line) : option (list triple) :=
  match parts with
  | p0 :: p1 :: p2 :: rest =>
      match p0, p1, p2 with
      | Some head, Some rel, Some tail =>
          match (match rest with p3 :: _ => p3 | [] => Some 0%Z end) with
          | Some time_start =>
              match (match rest with
                     | _ :: p4 :: _ => p4
                     | _ => Some time_start
                     end) with
              | Some time_end =>
                  Some [mk_triple head rel tail time_start time_end]
              | None => None
              end
          | None => None
          end
      | _, _, _ => None
      end
  | _ => Some []
  end.

(** [load_triples]: no triple from a missing file. *)
Definition load_triples (f : file) : option (list triple) :=
  match f with
  | None => Some []
  | Some lines => load_lines parse_triple lines
  end.

(** [if len(parts) >= 2: kg1_id = int(parts[0]); kg2_id = int(parts[1])] *)
Definition parse_entity_pair (parts : line) : option (list (Z * Z)) :=
  match parts with
  | p0 :: p1 :: _ =>
      match p0, p1 with
      | Some kg1_id, Some kg2_id => Some [(kg1_id, kg2_id)]
      | _, _ => None
      end
  | _ => Some []
  end.

(** [load_entity_pairs] *)
Definition load_entity_pairs (f : file) : option (list (Z * Z)) :=
  match f with
  | None => Some []
  | Some lines => load_lines parse_entity_pair lines
  end.

Section Loaders.

(** [int(s)] on a text. *)
Variable int_of : string -> field.

(** [if len(parts) >= 2: rel_id = int(parts[0]);
     rel_name = parts[1].strip(); relations[rel_id] = rel_name] *)
Fixpoint load_relation_lines (lines : list text_line)
    (relations : list (Z * string)) : option (list (Z * string)) :=
  match lines with
  | [] => Some relations
  | parts :: lines' =>
      match parts with
      | p0 :: p1 :: _ =>
          match int_of p0 with
          | Some rel_id =>
              load_relation_lines lines'
                (Dict.set rel_id (Py.strip p1) relations)
          | None => None
          end
      | _ => load_relation_lines lines' relations
      end
  end.

(** [load_relations]: the empty dict from a missing file. *)
Definition load_relations (f : text_file) : option (list (Z * string)) :=
  match f with
  | None => Some []
  | Some lines => load_relation_lines lines []
  end.

End Loaders.

(** ** The alignments *)

(** [(kg1_rel_id, kg2_rel_id, score, method)] *)
Record alignment := mk_alignment {
  al_kg1 : Z; al_kg2 : Z; al_score : float; al_method : string
}.

(** The key of the dict that merges the alignments. *)
Definition al_key (x : alignment) : Z * Z := (al_kg1 x, al_kg2 x).

(** [l.sort(key=lambda x: x[2], reverse=True)]: stable, descending.  No
    score is a NaN: every division has a positive divisor. *)
Fixpoint insert_desc (x : alignment) (l : list alignment) : list alignment :=
  match l with
  | [] => [x]
  | y :: l' =>
      if (al_score y <=? al_score x)%float then x :: l
      else y :: insert_desc x l'
  end.

Definition sort_desc (l : list alignment) : list alignment :=
  foldr insert_desc [] l.

(** [# Method 1: Text similarity]: the test is
    [similarity >= text_sim_threshold]. *)
Definition text_alignments (kg1_relations kg2_relations : list (Z * string))
    (text_sim_threshold : float) : list alignment :=
  sort_desc
    (flat_map (fun r1 =>
       flat_map (fun r2 =>
         let similarity := text_similarity r1.2 r2.2 in
         if (text_sim_threshold <=? similarity)%float
         then [mk_alignment r1.1 r2.1 similarity "text_similarity"]
         else [])
       kg2_relations)
     kg1_relations).

(** [min(1.0, count / max_cooccur) if max_cooccur > 0 else 0.0] for every
    key of [cooccurrence]; [min] keeps its first argument unless the second
    is smaller. *)
Definition cooccurrence_alignments (c : list (Z * Z * nat)) : list alignment :=
  let max_cooccur := RelationAlignment.max_count c in
  map (fun kc =>
         let normalized_score :=
           if (0 <? max_cooccur)%nat
           then
             let quotient := (of_nat kc.2 / of_nat max_cooccur)%float in
             if (quotient <? 1)%float then quotient else 1%float
           else 0%float in
         mk_alignment kc.1.1 kc.1.2 normalized_score "cooccurrence")
      c.

(** [# Method 2: Co-occurrence patterns]: the pairs are loaded first, the
    triples only when there is a pair. *)
Definition cooccurrence_part (w : data_dir) : option (list alignment) :=
  match load_entity_pairs (integration_top_pair w) with
  | None => None
  | Some [] => Some []
  | Some entity_pairs =>
      match load_triples (triples_1 w) with
      | None => None
      | Some kg1_triples =>
          match load_triples (triples_2 w) with
          | None => None
          | Some kg2_triples =>
              match kg1_triples, kg2_triples with
              | _ :: _, _ :: _ =>
                  Some (cooccurrence_alignments
                          (RelationAlignment.compute_cooccurrence_patterns
                             kg1_triples kg2_triples entity_pairs))
              | _, _ => Some []
              end
          end
      end
  end.

(** [# Deduplicate and merge identical relation pairs]: an entry is
    replaced when [score > old_score]. *)
Definition merge_alignment (alignment_dict : list (Z * Z * alignment))
    (x : alignment) : list (Z * Z * alignment) :=
  let key := (al_kg1 x, al_kg2 x) in
  match Dict.get key alignment_dict with
  | None => Dict.set key x alignment_dict
  | Some old =>
      if (al_score old <? al_score x)%float
      then Dict.set key x alignment_dict
      else alignment_dict
  end.

(** [sorted(alignment_dict.values(), key=lambda x: x[2], reverse=True)] *)
Definition final_alignments (alignments : list alignment) : list alignment :=
  sort_desc (map snd (foldl merge_alignment [] alignments)).

Section Find.

Variable int_of : string -> field.

(** [find_relation_alignments(data_dir, use_cooccurrence,
    text_sim_threshold)] *)
Definition find_relation_alignments (w : data_dir) (use_cooccurrence : bool)
    (text_sim_threshold : float) : option (list alignment) :=
  match load_relations int_of (rel_ids_1 w) with
  | None => None
  | Some kg1_relations =>
      match load_relations int_of (rel_ids_2 w) with
      | None => None
      | Some kg2_relations =>
          match kg1_relations, kg2_relations with
          | [], _ | _, [] => Some []
          | _, _ =>
              let text :=
                text_alignments kg1_relations kg2_relations
                                text_sim_threshold in
              match (if use_cooccurrence then cooccurrence_part w
                     else Some []) with
              | None => None
              | Some cooccurrence =>
                  Some (final_alignments (text ++ cooccurrence))
              end
          end
      end
  end.

End Find.

(** ** Inputs of the examples *)

Fixpoint digits_value (acc : Z) (l : list ascii) : field :=
  match l with
  | [] => Some acc
  | c :: l' =>
      let n := Py.code c in
      if ((48 <=? n) && (n <=? 57))%nat
      then digits_value (10 * acc + Z.of_nat (n - 48)) l'
      else None
  end.

(** [int(s)] on the texts of the examples: the value of a run of decimal
    digits, [ValueError] for the empty text and for a text with a letter.
    (Python's [int] also reads a sign, blanks around the number and
    underscores between digits.) *)
Definition int_of_digits (s : string) : field :=
  match Py.chars s with
  | [] => None
  | l => digits_value 0 l
  end.

(** Two relation files of one relation each, and no other file. *)
Definition two_relations (name1 name2 : string) : data_dir :=
  mk_data_dir (Some [["1"; name1]]) (Some [["2"; name2]])
              None None None None.

End RelationAlignment64.

(* ===================================================================== *)
(** * run_relation_alignment.py and the alignment file *)
(* ===================================================================== *)

Module AlignmentFile.

Import Tsv Decomposition RelationAlignment64.
Local Open Scope string_scope.

(** How a call ends. *)
Inductive outcome := Raises | ReturnsNone | ReturnsPath.

Section File.

(** [int(s)] on a text. *)
Variable int_of : string -> field.

(** The header line: six titles, none an integer. *)
Definition header : line := [None; None; None; None; None; None].

(** [kg_relations.get(rel_id, f"Unknown_{rel_id}")] *)
Definition name_of (relations : list (Z * string)) (rel_id : Z) : string :=
  default ("Unknown_" +:+ Py.str rel_id) (Dict.get rel_id relations).

(** One line of [save_relation_alignments], as it is read again: the two
    ids stand in the first and third field; the score is written with four
    decimals and is no integer.  A name is a field of a line of a relation
    file, or [Unknown_] and a number: it holds no tab and no line break. *)
Definition row (kg1_relations kg2_relations : list (Z * string))
    (x : alignment) : line :=
  [Some (al_kg1 x); int_of (name_of kg1_relations (al_kg1 x));
   Some (al_kg2 x); int_of (name_of kg2_relations (al_kg2 x));
   None; int_of (al_method x)].

(** [save_relation_alignments]: the lines of the file it writes. *)
Definition save_relation_alignments (alignments : list alignment)
    (kg1_relations kg2_relations : list (Z * string)) : list line :=
  header :: map (row kg1_relations kg2_relations) alignments.

(** [run_relation_alignment_stage]: how the call ends, and the files
    afterwards. *)
Definition run_relation_alignment_stage (w : data_dir)
    (text_threshold : PrimFloat.float)
    (use_cooccurrence : bool) : outcome * data_dir :=
  match rel_ids_1 w, rel_ids_2 w with
  | Some _, Some _ =>
      match find_relation_alignments int_of w use_cooccurrence
                                     text_threshold with
      | None => (Raises, w)
      | Some [] => (ReturnsPath, w)
      | Some alignments =>
          match load_relations int_of (rel_ids_1 w),
                load_relations int_of (rel_ids_2 w) with
          | Some kg1_relations, Some kg2_relations =>
              (ReturnsPath,
               mk_data_dir (rel_ids_1 w) (rel_ids_2 w) (triples_1 w)
                 (triples_2 w) (integration_top_pair w)
                 (Some (save_relation_alignments alignments kg1_relations
                                                 kg2_relations)))
          | _, _ => (Raises, w)
          end
      end
  | _, _ => (ReturnsNone, w)
  end.

End File.

(** The body of the loop of [_load_relation_alignment]: the record of a
    line, read from its first and third field. *)
Definition alignment_row (l : line) : option (Z * Z) :=
  match l with
  | Some kg1_rel_id :: _ :: Some kg2_rel_id :: _ => Some (kg1_rel_id, kg2_rel_id)
  | _ => None
  end.

(** The records [_load_relation_alignment] reads from the file: none from
    a missing file or one of a single line, the first line is skipped. *)
Definition alignment_rows (f : file) : list (Z * Z) :=
  match f with
  | None => []
  | Some lines =>
      if (length lines <=? 1)%nat then []
      else omap alignment_row (tail lines)
  end.

End AlignmentFile.

(* ===================================================================== *)
(** * Auxiliary facts on lists *)
(* ===================================================================== *)

Module ListAux.

Lemma filter_none {A} (f : A -> bool) (l : list A) :
  (forall x, In x l -> f x = false) -> List.filter f l = [].
Proof.
  induction l as [| a l IH]; intros H; simpl; [reflexivity |].
  rewrite (H a) by (by left). apply IH. intros x Hx. apply H. by right.
Qed.

Lemma sum_list_app (l k : list nat) :
  sum_list (l ++ k) = (sum_list l + sum_list k)%nat.
Proof. induction l as [| x l IH]; simpl; [reflexivity | lia]. Qed.

End ListAux.

(* ===================================================================== *)
(** * Properties of the conflict analysis *)
(* ===================================================================== *)

Module IntraScaleFacts.

Import IntraScale.
Local Open Scope string_scope.
Local Open Scope list_scope.
Local Open Scope nat_scope.

Lemma analyze_lookup candidate_info ent_names_2 scale :
  scale ∈ scales ->
  analyze_intra_scale_interaction candidate_info ent_names_2 !! scale
  = Some (analyze_scale (get_candidates candidate_info scale)).
Proof.
  unfold scales, analyze_intra_scale_interaction. intros Hin.
  repeat (apply elem_of_cons in Hin as [-> | Hin]); simpl.
  - rewrite lookup_insert_ne by done. rewrite lookup_insert_ne by done.
    apply lookup_insert_eq.
  - rewrite lookup_insert_ne by done. apply lookup_insert_eq.
  - apply lookup_insert_eq.
  - by apply elem_of_nil in Hin.
Qed.

Lemma confidence_of_length (cands : list Z) :
  (length cands = 1 -> confidence_signal (analyze_scale cands) = "strong")
  /\ (2 <= length cands <= 3 ->
      confidence_signal (analyze_scale cands) = "medium")
  /\ (3 < length cands -> confidence_signal (analyze_scale cands) = "weak").
Proof.
  unfold analyze_scale; simpl.
  destruct (Nat.eqb_spec (length cands) 1) as [E | E];
    destruct (Nat.leb_spec (length cands) 3) as [L | L];
    (split; [| split]); intros; (reflexivity || lia).
Qed.

(** C7.  For every scale, the confidence label recorded by
    [analyze_intra_scale_interaction] is "strong" when the scale has exactly
    one candidate, "medium" when it has two or three, and "weak" when it has
    more than three; with one, five and two candidates in L1, L2 and L3 the
    labels are strong, weak and medium. *)
Theorem confidence_label_by_candidate_count
    (candidate_info : gmap string (list Z)) (ent_names_2 : gmap Z string)
    (scale : string) :
  scale ∈ scales ->
  let n := length (get_candidates candidate_info scale) in
  exists an,
    analyze_intra_scale_interaction candidate_info ent_names_2 !! scale
    = Some an
    /\ candidate_count an = n
    /\ (n = 1 -> confidence_signal an = "strong")
    /\ (2 <= n <= 3 -> confidence_signal an = "medium")
    /\ (3 < n -> confidence_signal an = "weak")
    /\ (length (get_candidates candidate_info "L1") = 1 ->
        length (get_candidates candidate_info "L2") = 5 ->
        length (get_candidates candidate_info "L3") = 2 ->
        confidence_signal <$>
          analyze_intra_scale_interaction candidate_info ent_names_2 !! "L1"
        = Some "strong"
        /\ confidence_signal <$>
             analyze_intra_scale_interaction candidate_info ent_names_2 !! "L2"
           = Some "weak"
        /\ confidence_signal <$>
             analyze_intra_scale_interaction candidate_info ent_names_2 !! "L3"
           = Some "medium").
Proof.
  intros Hin n. eexists. split; [by apply analyze_lookup |].
  split; [reflexivity |].
  destruct (confidence_of_length (get_candidates candidate_info scale))
    as (Hs & Hm & Hw).
  repeat split; try assumption.
  all: rewrite analyze_lookup by (unfold scales; set_solver); simpl; f_equal.
  - by apply confidence_of_length.
  - apply confidence_of_length. lia.
  - apply confidence_of_length. lia.
Qed.

(** The five candidates of L2 in the test data of the module get the
    label "weak". *)
Lemma confidence_label_by_candidate_count_witness :
  exists an,
    analyze_intra_scale_interaction
      (example_candidates [25030%Z] [24118; 23854; 25293; 26471; 25030]%Z
                          [24118; 23854]%Z) ∅ !! "L2" = Some an
    /\ candidate_count an = 5
    /\ confidence_signal an = "weak".
Proof.
  destruct (confidence_label_by_candidate_count
              (example_candidates [25030%Z] [24118; 23854; 25293; 26471; 25030]%Z
                                  [24118; 23854]%Z) ∅ "L2")
    as (an & Hl & Hc & _ & _ & Hw & _).
  - unfold scales. set_solver.
  - exists an. split; [exact Hl |]. split; [exact Hc |].
    apply Hw. vm_compute. lia.
Defined.

(** ** The vote count *)

Lemma occurrences_snoc v l k :
  occurrences v (l ++ [k])
  = occurrences v l + (if Z.eqb v k then 1 else 0).
Proof.
  unfold occurrences. rewrite List.filter_app, length_app. simpl.
  destruct (Z.eqb v k); reflexivity.
Qed.

Lemma occurrences_notin v l : v ∉ l -> occurrences v l = 0.
Proof.
  unfold occurrences. induction l as [| x l IH]; intros Hn; [reflexivity |].
  apply not_elem_of_cons in Hn as [Hne Hn]. simpl.
  destruct (Z.eqb_spec v x); [congruence | auto].
Qed.

Lemma first_seen_snoc l k :
  first_seen (l ++ [k])
  = if bool_decide (k ∈ first_seen l) then first_seen l
    else first_seen l ++ [k].
Proof. unfold first_seen. by rewrite foldl_snoc. Qed.

Lemma elem_of_first_seen l w : w ∈ first_seen l <-> w ∈ l.
Proof.
  induction l as [| k l IH] using rev_ind.
  - reflexivity.
  - rewrite first_seen_snoc. case_bool_decide as Hk.
    + rewrite elem_of_app, list_elem_of_singleton, IH.
      split; [tauto |]. intros [? | ->]; [assumption | by apply IH].
    + rewrite !elem_of_app, IH. reflexivity.
Qed.

Lemma NoDup_first_seen l : NoDup (first_seen l).
Proof.
  induction l as [| k l IH] using rev_ind.
  - constructor.
  - rewrite first_seen_snoc. case_bool_decide as Hk; [assumption |].
    apply NoDup_app. split; [assumption |]. split.
    + intros x Hx Hx'. apply list_elem_of_singleton in Hx'. by subst.
    + apply NoDup_singleton.
Qed.

(** Counting one more vote for [k] in a table that lists [o]. *)
Lemma incr_table (g : Z -> nat) (o : list Z) (k : Z) :
  NoDup o -> (k ∉ o -> g k = 0) ->
  incr k (map (fun w => (w, g w)) o)
  = map (fun w => (w, g w + (if Z.eqb w k then 1 else 0)))
        (if bool_decide (k ∈ o) then o else o ++ [k]).
Proof.
  intros Hnd Hk. induction o as [| x o IH]; simpl.
  - rewrite Z.eqb_refl, Hk by apply not_elem_of_nil. reflexivity.
  - apply NoDup_cons in Hnd as [Hx Hnd].
    destruct (Z.eqb_spec k x) as [-> | Hne].
    + rewrite bool_decide_eq_true_2 by apply list_elem_of_here. simpl.
      rewrite Z.eqb_refl. f_equal; [f_equal; lia |].
      apply map_ext_in. intros w Hw. apply list_elem_of_In in Hw.
      destruct (Z.eqb_spec w x) as [-> | _]; [done | f_equal; lia].
    + rewrite IH; [| assumption |].
      * assert (Hxk : Z.eqb x k = false) by (apply Z.eqb_neq; congruence).
        case_bool_decide as H1; case_bool_decide as H2; simpl;
          rewrite ?Hxk, ?Nat.add_0_r; try reflexivity.
        -- exfalso. apply H2. by apply list_elem_of_further.
        -- exfalso. apply elem_of_cons in H2 as [? | ?]; [congruence | done].
      * intros Hn. apply Hk. intros Hin.
        apply elem_of_cons in Hin as [? | ?]; [congruence | done].
Qed.

(** The table of votes lists the distinct values in first-met order, each
    with its number of occurrences. *)
Lemma count_candidates_table (l : list Z) :
  count_candidates l = map (fun w => (w, occurrences w l)) (first_seen l).
Proof.
  induction l as [| k l IH] using rev_ind; [reflexivity |].
  unfold count_candidates in *. rewrite foldl_snoc, IH.
  rewrite incr_table.
  - rewrite <- first_seen_snoc. apply map_ext. intros w.
    by rewrite occurrences_snoc.
  - apply NoDup_first_seen.
  - intros Hn. apply occurrences_notin. by rewrite <- elem_of_first_seen.
Qed.

(** [max] keeps the first of the largest. *)
Lemma first_max_split (rest pre mid : list (Z * nat)) (x : Z * nat) :
  (forall p, p ∈ pre -> p.2 < x.2) ->
  (forall p, p ∈ mid -> p.2 <= x.2) ->
  exists c1 c2,
    pre ++ x :: mid ++ rest
    = c1 ++ foldl (fun best y => if (best.2 <? y.2) then y else best) x rest
         :: c2
    /\ (forall p, p ∈ c1 ->
          p.2 < (foldl (fun best y => if (best.2 <? y.2) then y else best)
                       x rest).2)
    /\ (forall p, p ∈ c2 ->
          p.2 <= (foldl (fun best y => if (best.2 <? y.2) then y else best)
                        x rest).2).
Proof.
  revert pre mid x. induction rest as [| y rest IH]; intros pre mid x Hpre Hmid.
  - exists pre, mid. rewrite app_nil_r. simpl. auto.
  - simpl. destruct (Nat.ltb_spec x.2 y.2) as [Hlt | Hge].
    + destruct (IH (pre ++ x :: mid) [] y) as (c1 & c2 & E & H1 & H2).
      * intros p Hp. apply elem_of_app in Hp as [Hp | Hp].
        -- specialize (Hpre p Hp). lia.
        -- apply elem_of_cons in Hp as [-> | Hp]; [lia |].
           specialize (Hmid p Hp). lia.
      * intros p Hp. by apply elem_of_nil in Hp.
      * exists c1, c2. split; [| auto].
        rewrite <- E. simpl. by rewrite <- !app_assoc.
    + destruct (IH pre (mid ++ [y]) x) as (c1 & c2 & E & H1 & H2).
      * assumption.
      * intros p Hp. apply elem_of_app in Hp as [Hp | Hp]; [auto |].
        apply list_elem_of_singleton in Hp as ->. lia.
      * exists c1, c2. split; [| auto].
        rewrite <- E. by rewrite <- !app_assoc.
Qed.

Lemma max_by_count_split (items : list (Z * nat)) (best : Z * nat) :
  max_by_count items = Some best ->
  exists c1 c2,
    items = c1 ++ best :: c2
    /\ (forall p, p ∈ c1 -> p.2 < best.2)
    /\ (forall p, p ∈ c2 -> p.2 <= best.2).
Proof.
  destruct items as [| x rest]; [discriminate |]. simpl.
  intros [= <-].
  destruct (first_max_split rest [] [] x) as (c1 & c2 & E & H1 & H2).
  - intros p Hp. by apply elem_of_nil in Hp.
  - intros p Hp. by apply elem_of_nil in Hp.
  - exists c1, c2. auto.
Qed.

(** The values met before the first occurrence of [v] are listed before
    [v]. *)
Lemma first_seen_before (l1 l2 : list Z) (v : Z) :
  v ∉ l1 ->
  exists ext, first_seen (l1 ++ v :: l2) = first_seen l1 ++ v :: ext.
Proof.
  intros Hv. induction l2 as [| k l2 IH] using rev_ind.
  - exists []. rewrite first_seen_snoc.
    rewrite bool_decide_eq_false_2; [reflexivity |].
    by rewrite elem_of_first_seen.
  - destruct IH as (ext & IH).
    replace (l1 ++ v :: l2 ++ [k]) with ((l1 ++ v :: l2) ++ [k])
      by (by rewrite <- app_assoc).
    rewrite first_seen_snoc, IH. case_bool_decide.
    + by exists ext.
    + exists (ext ++ [k]). by rewrite <- app_assoc.
Qed.

(** The consensus of a vote: the first value, in scale order, among those
    with the most occurrences. *)
Lemma majority_vote (top_values : list Z) :
  top_values <> [] ->
  exists v l1 l2,
    fst <$> max_by_count (count_candidates top_values) = Some v
    /\ top_values = l1 ++ v :: l2
    /\ (v ∉ l1)
    /\ (forall w, w ∈ top_values ->
          occurrences w top_values <= occurrences v top_values)
    /\ (forall w, w ∈ l1 ->
          occurrences w top_values < occurrences v top_values).
Proof.
  intros Hne. rewrite count_candidates_table.
  set (g := fun w => (w, occurrences w top_values)).
  destruct (max_by_count (map g (first_seen top_values))) as [best |] eqn:Hmax.
  2: { destruct top_values as [| x l] using rev_ind; [done |].
       assert (Hx : x ∈ first_seen (l ++ [x]))
         by (apply elem_of_first_seen; set_solver).
       destruct (first_seen (l ++ [x])); [by apply elem_of_nil in Hx |].
       discriminate. }
  apply max_by_count_split in Hmax as (c1 & c2 & E & H1 & H2).
  apply map_eq_app in E as (o1 & o' & Eo & <- & E).
  apply map_eq_cons in E as (v & o2 & -> & <- & <-).
  assert (Hv : v ∈ top_values).
  { apply elem_of_first_seen. rewrite Eo. set_solver. }
  destruct (list_elem_of_split_l _ _ Hv) as (l1 & l2 & El & Hv1).
  exists v, l1, l2. simpl. split; [reflexivity |]. split; [exact El |].
  split; [exact Hv1 |].
  assert (Hall : forall w, w ∈ o1 -> occurrences w top_values
                                     < occurrences v top_values).
  { intros w Hw. apply (H1 (g w)). by apply list_elem_of_fmap_2. }
  split.
  - intros w Hw. apply elem_of_first_seen in Hw. rewrite Eo in Hw.
    apply elem_of_app in Hw as [Hw | Hw]; [specialize (Hall w Hw); lia |].
    apply elem_of_cons in Hw as [-> | Hw]; [lia |].
    apply (H2 (g w)). by apply list_elem_of_fmap_2.
  - intros w Hw. apply Hall.
    destruct (first_seen_before l1 l2 v Hv1) as (ext & Ef).
    rewrite <- El, Eo in Ef.
    assert (Hnd := NoDup_first_seen top_values). rewrite Eo in Hnd.
    assert (o1 = first_seen l1) as ->.
    { clear - Ef Hnd. revert Ef Hnd. generalize (first_seen l1) as o1'.
      induction o1 as [| a o1 IH]; intros [| b o1'] Ef Hnd; simpl in *.
      - reflexivity.
      - injection Ef as E1 E2. subst b. apply NoDup_cons in Hnd as [Hn _].
        exfalso. apply Hn. rewrite E2. set_solver.
      - injection Ef as E1 E2. subst a. apply NoDup_cons in Hnd as [Hn _].
        exfalso. apply Hn. set_solver.
      - injection Ef as E1 E2. subst b. f_equal. apply IH; [assumption |].
        by apply NoDup_cons in Hnd as [_ ?]. }
    by apply elem_of_first_seen.
Qed.

(** ** The cross-scale report *)

Lemma elem_of_collect_top ci scale c :
  (scale, c) ∈ collect_top_candidates ci
  <-> scale ∈ scales /\ head (get_candidates ci scale) = Some c.
Proof.
  unfold collect_top_candidates. rewrite list_elem_of_omap. split.
  - intros (s & Hs & E). destruct (get_candidates ci s) eqn:G; [discriminate |].
    injection E as <- <-. by rewrite G.
  - intros [Hs E]. exists scale. split; [assumption |].
    destruct (get_candidates ci scale); [discriminate |].
    simpl in E. by injection E as ->.
Qed.

Lemma all_same_true (l : list Z) :
  all_same l = true <-> l <> [] /\ forall v w, v ∈ l -> w ∈ l -> v = w.
Proof.
  destruct l as [| x l]; simpl.
  - split; [discriminate | intros [? _]; done].
  - rewrite forallb_forall. split.
    + intros H. split; [done |].
      assert (Hx : forall v, v ∈ x :: l -> v = x).
      { intros v Hv. apply elem_of_cons in Hv as [-> | Hv]; [done |].
        apply list_elem_of_In in Hv. symmetry. by apply Z.eqb_eq, H. }
      intros v w Hv Hw. by rewrite (Hx v Hv), (Hx w Hw).
    + intros [_ H] y Hy. apply Z.eqb_eq, H; [set_solver |].
      apply list_elem_of_In in Hy. set_solver.
Qed.


End IntraScaleFacts.

(* ===================================================================== *)
(** * Properties of the fusion broker and of the supervision merge *)
(* ===================================================================== *)

Module FusionFacts.

Import Tsv Fusion.
Local Open Scope string_scope.
Local Open Scope list_scope.

(** ** Substrings *)

Lemma is_prefix_spec (p l : list ascii) :
  Py.is_prefix p l = true <-> exists post, l = p ++ post.
Proof.
  revert l. induction p as [| a p IH]; intros l; simpl.
  - split; [intros _; by exists l | done].
  - destruct l as [| b l].
    + split; [discriminate | intros (post & E); discriminate].
    + destruct (Ascii.eqb_spec a b) as [-> | Hne].
      * rewrite IH. split; intros (post & E); exists post; simpl in *; congruence.
      * split; [discriminate | intros (post & E)]. simpl in E. congruence.
Qed.

Lemma contains_chars_spec (p l : list ascii) :
  Py.contains_chars p l = true <-> exists pre post, l = pre ++ p ++ post.
Proof.
  induction l as [| b l IH].
  - simpl. rewrite orb_false_r, is_prefix_spec. split.
    + intros (post & E). by exists [], post.
    + intros (pre & post & E). destruct pre; [by exists post |]. discriminate.
  - cbn [Py.contains_chars]. rewrite orb_true_iff, IH, is_prefix_spec. split.
    + intros [(post & E) | (pre & post & E)].
      * by exists [], post.
      * exists (b :: pre), post. simpl. congruence.
    + intros (pre & post & E). destruct pre as [| c pre].
      * left. by exists post.
      * right. exists pre, post. simpl in E. congruence.
Qed.

Lemma contains_spec (needle hay : string) :
  Py.contains needle hay = true <-> is_substring needle hay.
Proof. apply contains_chars_spec. Qed.

Lemma find_first {A} (f : A -> bool) (l : list A) (x : A) :
  List.find f l = Some x
  <-> exists l1 l2, l = l1 ++ x :: l2 /\ f x = true
                    /\ forall y, y ∈ l1 -> f y = false.
Proof.
  induction l as [| a l IH]; simpl.
  - split; [discriminate | intros ([| ? ?] & ? & ? & _); discriminate].
  - destruct (f a) eqn:Fa.
    + split.
      * intros [= ->]. exists [], l. repeat split; [assumption |].
        intros y Hy. by apply elem_of_nil in Hy.
      * intros ([| b l1] & l2 & E & Fx & Hl1); simpl in E.
        -- congruence.
        -- injection E as <- _. rewrite Hl1 in Fa by apply list_elem_of_here.
           discriminate.
    + rewrite IH. split.
      * intros (l1 & l2 & -> & Fx & Hl1). exists (a :: l1), l2.
        repeat split; [assumption |]. intros y Hy.
        apply elem_of_cons in Hy as [-> | Hy]; auto.
      * intros ([| b l1] & l2 & E & Fx & Hl1); simpl in E.
        -- injection E as -> _. congruence.
        -- injection E as <- ->. exists l1, l2. repeat split; [assumption |].
           intros y Hy. apply Hl1. by apply list_elem_of_further.
Qed.

(** ** The parse of one answer *)

Lemma parse_answer_first (answer : string) (cands : list Z) (k : Z) :
  parse_answer answer cands = Some k
  <-> Py.lower answer <> "no" /\ first_match answer cands k.
Proof.
  unfold parse_answer, first_match.
  destruct (String.eqb_spec (Py.lower answer) "no") as [E | E].
  - split; [discriminate | intros [? _]; done].
  - rewrite find_first. split.
    + intros (l1 & l2 & -> & Hk & Hl1). split; [assumption |].
      exists l1, l2. split; [reflexivity |]. split; [by apply contains_spec |].
      intros c Hc Hs. apply contains_spec in Hs. by rewrite Hl1 in Hs.
    + intros (_ & l1 & l2 & -> & Hk & Hl1). exists l1, l2.
      split; [reflexivity |]. split; [by apply contains_spec |].
      intros c Hc. apply not_true_is_false. intros Hs.
      by apply (Hl1 c Hc), contains_spec.
Qed.

Lemma parse_answer_some (answer : string) (cands : list Z) :
  is_Some (parse_answer answer cands)
  <-> Py.lower answer <> "no"
      /\ exists c, c ∈ cands /\ is_substring (Py.str c) answer.
Proof.
  split.
  - intros (k & Hk). apply parse_answer_first in Hk as (Hno & l1 & l2 & -> & Hk & _).
    split; [assumption |]. exists k. split; [set_solver | assumption].
  - intros (Hno & c & Hc & Hs). unfold parse_answer.
    destruct (String.eqb_spec (Py.lower answer) "no") as [E | _]; [done |].
    destruct (List.find _ cands) eqn:F; [by eexists |].
    apply list_elem_of_In in Hc.
    apply (find_none _ _ F) in Hc. apply contains_spec in Hs.
    simpl in Hc. congruence.
Qed.

Lemma elem_of_all_candidates (ci : gmap string (list Z)) (c : Z) :
  c ∈ all_candidates ci
  <-> exists scale, scale ∈ IntraScale.scales
                    /\ c ∈ IntraScale.get_candidates ci scale.
Proof.
  unfold all_candidates, IntraScale.scales. simpl.
  rewrite !elem_of_union, !elem_of_list_to_set. split.
  - intros [[[H | H] | H] | H]; [set_solver | | |]; eexists; split; try exact H;
      set_solver.
  - intros (scale & Hs & Hc).
    repeat (apply elem_of_cons in Hs as [-> | Hs]); [tauto .. |].
    by apply elem_of_nil in Hs.
Qed.

(** ** One task, and one pass *)

Section Broker.

Variable set_iter : gset Z -> list Z.
Variable oracle : Z -> gmap string (list Z) -> option string.
Hypothesis set_iter_enumerates : forall s, set_iter s ≡ₚ elements s.

Lemma fusion_task_pairs kg1 ci p :
  p ∈ fusion_task set_iter oracle kg1 ci ->
  p.1 = kg1
  /\ exists content,
       oracle kg1 ci = Some content
       /\ parse_answer (Py.strip content) (set_iter (all_candidates ci))
          = Some p.2.
Proof.
  unfold fusion_task. case_decide; [intros H'; by apply elem_of_nil in H' |].
  destruct (oracle kg1 ci) as [content |]; [| intros H'; by apply elem_of_nil in H'].
  destruct (parse_answer _ _) as [k |] eqn:P; [| intros H'; by apply elem_of_nil in H'].
  intros Hp. apply list_elem_of_singleton in Hp as ->. simpl. eauto.
Qed.

Lemma fusion_task_length kg1 ci :
  (length (fusion_task set_iter oracle kg1 ci) <= 1)%nat.
Proof.
  unfold fusion_task. case_decide; [simpl; lia |].
  destruct (oracle kg1 ci); [| simpl; lia].
  destruct (parse_answer _ _); simpl; lia.
Qed.

Lemma fusion_task_records kg1 ci content k :
  oracle kg1 ci = Some content ->
  (kg1, k) ∈ fusion_task set_iter oracle kg1 ci
  <-> Py.lower (Py.strip content) <> "no"
      /\ first_match (Py.strip content) (set_iter (all_candidates ci)) k.
Proof.
  intros Ho. rewrite <- parse_answer_first. split.
  - intros Hp. apply fusion_task_pairs in Hp as (_ & c' & Ho' & P).
    simpl in P. congruence.
  - intros P. unfold fusion_task. rewrite Ho. simpl. rewrite P.
    case_decide as He; [| apply list_elem_of_here].
    exfalso. apply parse_answer_first in P as (_ & l1 & l2 & E & _).
    assert (Hk : k ∈ set_iter (all_candidates ci)) by (rewrite E; set_solver).
    rewrite set_iter_enumerates, He in Hk. set_solver.
Qed.

Lemma run_tasks_per_entity (l : list (Z * gmap string (list Z))) (k : Z) :
  NoDup (map fst l) ->
  (length (List.filter (fun p : Z * Z => bool_decide (p.1 = k))
             (flat_map (fun kc => fusion_task set_iter oracle kc.1 kc.2) l))
   <= 1)%nat.
Proof.
  induction l as [| [k1 ci] l IH]; intros Hnd; simpl; [lia |].
  apply NoDup_cons in Hnd as [Hk1 Hnd]. specialize (IH Hnd).
  rewrite List.filter_app, length_app.
  destruct (decide (k1 = k)) as [-> | Hne].
  - assert (List.filter (fun p : Z * Z => bool_decide (p.1 = k))
              (flat_map (fun kc => fusion_task set_iter oracle kc.1 kc.2) l)
            = []) as ->.
    { apply ListAux.filter_none.
      intros p Hp. apply in_flat_map in Hp as ([k2 ci2] & Hin & Hp).
      apply list_elem_of_In, fusion_task_pairs in Hp as [Hp _]. simpl in Hp.
      apply bool_decide_eq_false_2. intros E. apply Hk1.
      apply list_elem_of_fmap. exists (k2, ci2). split; [simpl; congruence |].
      by apply list_elem_of_In. }
    pose proof (List.filter_length_le
                  (fun p : Z * Z => bool_decide (p.1 = k))
                  (fusion_task set_iter oracle k ci)).
    pose proof (fusion_task_length k ci). simpl. lia.
  - assert (List.filter (fun p : Z * Z => bool_decide (p.1 = k))
              (fusion_task set_iter oracle k1 ci) = []) as ->; [| simpl; lia].
    apply ListAux.filter_none. intros p Hp.
    apply list_elem_of_In, fusion_task_pairs in Hp as [Hp _].
    apply bool_decide_eq_false_2. congruence.
Qed.

End Broker.

(** C10.  Given the reply of the oracle for an entity, the task records a
    pair exactly when the stripped reply is not "no" up to case and the
    decimal form of some candidate occurs in it; the recorded KG2 id is the
    first such candidate in the iteration order of the candidate set; a
    task records at most one pair, and a pass at most one pair per KG1
    entity.  A reply such as "no match" is not the token "no": it is
    scanned for candidate ids like any other. *)
Theorem oracle_answer_recording
    (set_iter : gset Z -> list Z)
    (oracle : Z -> gmap string (list Z) -> option string)
    (multi_scale_pairs : gmap Z (gmap string (list Z)))
    (kg1_entity : Z) (candidate_info : gmap string (list Z))
    (content : string) :
  (forall s, set_iter s ≡ₚ elements s) ->
  oracle kg1_entity candidate_info = Some content ->
  let answer := Py.strip content in
  let recorded := fusion_task set_iter oracle kg1_entity candidate_info in
  (recorded <> []
   <-> Py.lower answer <> "no"
       /\ exists c, c ∈ all_candidates candidate_info
                    /\ is_substring (Py.str c) answer)
  /\ (forall k,
        (kg1_entity, k) ∈ recorded
        <-> Py.lower answer <> "no"
            /\ first_match answer
                 (set_iter (all_candidates candidate_info)) k)
  /\ (forall p, p ∈ recorded -> p.1 = kg1_entity)
  /\ (length recorded <= 1)%nat
  /\ (forall k,
        (length (List.filter (fun p : Z * Z => bool_decide (p.1 = k))
                   (run_tasks set_iter oracle multi_scale_pairs)) <= 1)%nat)
  /\ (forall cands,
        parse_answer "no match" cands
        = List.find (fun kg2_id => Py.contains (Py.str kg2_id) "no match")
                    cands)
  /\ parse_answer "No match, 300 comes closest" [100; 300] = Some 300
  /\ parse_answer "No" [100; 300] = None.
Proof.
  intros Hiter Ho answer recorded.
  assert (Hrec : forall k,
             (kg1_entity, k) ∈ recorded
             <-> Py.lower answer <> "no"
                 /\ first_match answer
                      (set_iter (all_candidates candidate_info)) k).
  { intros k. by apply fusion_task_records. }
  split; [| split; [exact Hrec | split; [| split; [| split; [| split]]]]].
  - split.
    + intros Hne.
      assert (exists p, p ∈ recorded) as ([k1 k2] & Hin).
      { destruct recorded as [| p rest]; [done |].
        exists p. apply list_elem_of_here. }
      assert (k1 = kg1_entity) as ->.
      { by apply (fusion_task_pairs set_iter oracle) in Hin as [? _]. }
      apply Hrec in Hin as (Hno & l1 & l2 & El & Hs & _).
      split; [assumption |]. exists k2. split; [| assumption].
      rewrite <- elem_of_elements, <- Hiter, El. set_solver.
    + intros (Hno & c & Hc & Hs).
      assert (Hsome : is_Some (parse_answer answer
                                 (set_iter (all_candidates candidate_info)))).
      { apply parse_answer_some. split; [assumption |]. exists c.
        split; [| assumption]. by rewrite Hiter, elem_of_elements. }
      destruct Hsome as (k & Hk). apply parse_answer_first in Hk.
      apply Hrec in Hk. intros E. rewrite E in Hk. by apply elem_of_nil in Hk.
  - intros p Hp. by apply (fusion_task_pairs set_iter oracle) in Hp as [? _].
  - apply fusion_task_length.
  - intros k. unfold run_tasks. apply run_tasks_per_entity.
    apply NoDup_fst_map_to_list.
  - intros cands. reflexivity.
  - split; reflexivity.
Qed.

(** A reply that starts with "No match" and names the candidate 300 is
    recorded. *)
Lemma oracle_answer_recording_witness :
  fusion_task elements (fun _ _ => Some "  No match, 300 comes closest ")
    1 (IntraScale.example_candidates [100] [300; 100] [])
  <> [].
Proof.
  apply (oracle_answer_recording elements
           (fun _ _ => Some "  No match, 300 comes closest ") ∅
           1 (IntraScale.example_candidates [100] [300; 100] [])
           "  No match, 300 comes closest "
           (fun s => reflexivity (elements s)) eq_refl).
  split; [vm_compute; discriminate |].
  exists 300. split.
  - apply elem_of_all_candidates. exists "L2".
    split; [unfold IntraScale.scales; set_solver |].
    vm_compute. set_solver.
  - apply contains_spec. vm_compute. reflexivity.
Defined.

(** ** Loading and sorting the supervision pairs *)

Lemma load_lines_from (lines : list line) (acc : loaded) :
  let ld := foldl (fun acc l =>
                     match parse_pair l with
                     | Some (a, b) =>
                         mk_loaded ({[ (a, b) ]} ∪ sup_pairs acc)
                                   ({[ a ]} ∪ kg1_ids acc)
                                   ({[ b ]} ∪ kg2_ids acc)
                     | None => acc
                     end) acc lines in
  sup_pairs ld = sup_pairs acc ∪ list_to_set (omap parse_pair lines)
  /\ kg1_ids ld = kg1_ids acc ∪ list_to_set (map fst (omap parse_pair lines))
  /\ kg2_ids ld = kg2_ids acc ∪ list_to_set (map snd (omap parse_pair lines)).
Proof.
  revert acc. induction lines as [| l lines IH]; intros acc; simpl.
  - repeat split; set_solver.
  - destruct (parse_pair l) as [[a b] |]; [| apply IH].
    destruct (IH (mk_loaded ({[ (a, b) ]} ∪ sup_pairs acc)
                            ({[ a ]} ∪ kg1_ids acc) ({[ b ]} ∪ kg2_ids acc)))
      as (-> & -> & ->).
    simpl. repeat split; set_solver.
Qed.

(** What is loaded from a file: its well-formed pairs and their columns. *)
Lemma load_sup_pairs_spec (f : file) :
  let ld := load_sup_pairs f in
  (forall k1, k1 ∈ kg1_ids ld <-> exists k2, (k1, k2) ∈ sup_pairs ld)
  /\ (forall k2, k2 ∈ kg2_ids ld <-> exists k1, (k1, k2) ∈ sup_pairs ld)
  /\ (forall p, p ∈ sup_pairs ld
               <-> exists lines l, f = Some lines /\ l ∈ lines
                                   /\ parse_pair l = Some p).
Proof.
  destruct f as [lines |]; simpl.
  - destruct (load_lines_from lines (mk_loaded ∅ ∅ ∅)) as (-> & -> & ->).
    simpl. repeat split.
    + rewrite elem_of_union, elem_of_list_to_set, list_elem_of_fmap.
      intros [H | ([a b] & -> & H)]; [set_solver |]. exists b. set_solver.
    + intros (k2 & H). rewrite elem_of_union, elem_of_list_to_set in *.
      right. apply list_elem_of_fmap. exists (k1, k2). set_solver.
    + rewrite elem_of_union, elem_of_list_to_set, list_elem_of_fmap.
      intros [H | ([a b] & -> & H)]; [set_solver |]. exists a. set_solver.
    + intros (k1 & H). rewrite elem_of_union, elem_of_list_to_set in *.
      right. apply list_elem_of_fmap. exists (k1, k2). set_solver.
    + rewrite elem_of_union, elem_of_list_to_set, list_elem_of_omap.
      intros [H | (l & Hl & P)]; [set_solver |]. by exists lines, l.
    + intros (lines' & l & [= <-] & Hl & P).
      rewrite elem_of_union, elem_of_list_to_set, list_elem_of_omap.
      right. by exists l.
  - repeat split; set_solver.
Qed.

#[local] Instance key_le_total : Total key_le.
Proof. intros [a b] [c d]. unfold key_le. simpl. lia. Qed.

#[local] Instance key_le_trans : Transitive key_le.
Proof. intros [a b] [c d] [e f]. unfold key_le. simpl. lia. Qed.

Lemma key_le_lt (p q : Z * Z) : key_le p q -> p <> q -> key_lt p q.
Proof.
  destruct p as [a b], q as [c d]. unfold key_le, key_lt. simpl.
  intros H Hne. assert (a <> c \/ b <> d) by (destruct (decide (a = c)); [right; congruence | by left]).
  lia.
Qed.

Lemma strictly_sorted (l : list (Z * Z)) :
  StronglySorted key_le l -> NoDup l -> StronglySorted key_lt l.
Proof.
  induction 1 as [| x l Hs IH Hall]; intros Hnd; constructor.
  - apply IH. by apply NoDup_cons in Hnd as [_ ?].
  - apply NoDup_cons in Hnd as [Hx _].
    rewrite List.Forall_forall in *. intros y Hy.
    apply key_le_lt; [by apply Hall |]. intros ->.
    by apply Hx, list_elem_of_In.
Qed.

(** The sorted list of a set: strictly ascending in the key, and with the
    elements of the set. *)
Lemma sorted_pairs_spec (s : gset (Z * Z)) :
  StronglySorted key_lt (sorted_pairs s)
  /\ forall p, p ∈ sorted_pairs s <-> p ∈ s.
Proof.
  unfold sorted_pairs. split.
  - apply strictly_sorted.
    + apply StronglySorted_merge_sort; apply _.
    + rewrite merge_sort_Permutation. apply NoDup_elements.
  - intros p. by rewrite merge_sort_Permutation, elem_of_elements.
Qed.

Lemma parse_line_of_pair (p : Z * Z) : parse_pair (line_of_pair p) = Some p.
Proof. by destruct p. Qed.

Lemma load_written (l : list (Z * Z)) :
  sup_pairs (load_sup_pairs (Some (map line_of_pair l))) = list_to_set l.
Proof.
  simpl. destruct (load_lines_from (map line_of_pair l) (mk_loaded ∅ ∅ ∅))
    as (-> & _). simpl.
  assert (omap parse_pair (map line_of_pair l) = l) as ->; [| set_solver].
  induction l as [| [a b] l IH]; [reflexivity |].
  cbn. f_equal. exact IH.
Qed.

Lemma eligible_spec (ld : loaded) (p : Z * Z) :
  eligible ld p = true
  <-> (p.1 ∉ kg1_ids ld) /\ (p.2 ∉ kg2_ids ld) /\ p ∉ sup_pairs ld.
Proof.
  unfold eligible. repeat case_bool_decide; split; try tauto; try discriminate.
Qed.

(** ** The merge *)

Lemma add_to_sup_pairs_unfold (fs : files) (aligned_pairs : list (Z * Z)) :
  let accepted :=
    List.filter (eligible (load_sup_pairs (sup_pairs_file fs))) aligned_pairs in
  add_to_sup_pairs fs aligned_pairs
  = match accepted with
    | [] => (0%nat, fs)
    | _ =>
        (length accepted,
         {| sup_pairs_file :=
              Some (map line_of_pair
                      (sorted_pairs (supervision_set fs ∪ list_to_set accepted)));
            backup_file :=
              match sup_pairs_file fs with
              | Some old => Some old
              | None => backup_file fs
              end |})
    end.
Proof. destruct aligned_pairs; reflexivity. Qed.

(** The filter: a candidate is kept when neither of its ids is in the
    column it belongs to and the pair itself is not in the file. *)
Lemma accepted_iff (fs : files) (aligned_pairs : list (Z * Z)) (p : Z * Z) :
  p ∈ List.filter (eligible (load_sup_pairs (sup_pairs_file fs))) aligned_pairs
  <-> p ∈ aligned_pairs
      /\ (forall k2, (p.1, k2) ∉ supervision_set fs)
      /\ (forall k1, (k1, p.2) ∉ supervision_set fs)
      /\ p ∉ supervision_set fs.
Proof.
  destruct (load_sup_pairs_spec (sup_pairs_file fs)) as (Hk1 & Hk2 & _).
  rewrite list_elem_of_In, filter_In, eligible_spec, <- list_elem_of_In.
  rewrite Hk1, Hk2. unfold supervision_set. split.
  - intros (Hin & H1 & H2 & H3). repeat split; [assumption | | | assumption].
    + intros k2 Hc. apply H1. by exists k2.
    + intros k1 Hc. apply H2. by exists k1.
  - intros (Hin & H1 & H2 & H3). repeat split; [assumption | | | assumption].
    + intros (k2 & Hc). by apply (H1 k2).
    + intros (k1 & Hc). by apply (H2 k1).
Qed.

(** The files after a merge that accepts something. *)
Lemma merge_written (fs : files) (aligned_pairs : list (Z * Z)) :
  let accepted :=
    List.filter (eligible (load_sup_pairs (sup_pairs_file fs))) aligned_pairs in
  let merged := supervision_set fs ∪ list_to_set accepted in
  accepted <> [] ->
  add_to_sup_pairs fs aligned_pairs
  = (length accepted,
     {| sup_pairs_file := Some (map line_of_pair (sorted_pairs merged));
        backup_file :=
          match sup_pairs_file fs with
          | Some old => Some old
          | None => backup_file fs
          end |})
  /\ supervision_set (add_to_sup_pairs fs aligned_pairs).2 = merged.
Proof.
  intros accepted merged Hne.
  assert (Hres := add_to_sup_pairs_unfold fs aligned_pairs).
  cbv zeta in Hres. fold accepted merged in Hres.
  assert (E : add_to_sup_pairs fs aligned_pairs
              = (length accepted,
                 {| sup_pairs_file :=
                      Some (map line_of_pair (sorted_pairs merged));
                    backup_file :=
                      match sup_pairs_file fs with
                      | Some old => Some old
                      | None => backup_file fs
                      end |})).
  { rewrite Hres. by destruct accepted. }
  split; [exact E |]. rewrite E.
  unfold supervision_set at 1. cbn [snd sup_pairs_file].
  rewrite load_written. apply set_eq. intros p.
  rewrite elem_of_list_to_set. apply sorted_pairs_spec.
Qed.

(** C2.  A candidate pair is accepted exactly when it is proposed, its KG1
    id is the KG1 id of no existing pair, its KG2 id is the KG2 id of no
    existing pair, and it is not an existing pair.  The merge returns the
    number of accepted pairs; when none is accepted it returns zero and
    leaves the files as they are; otherwise the file is rewritten with the
    union of the existing and the accepted pairs, in strictly ascending
    order of (KG1 id, KG2 id).  With the existing set {(1,100)}, the pairs
    (1,200) and (2,100) are rejected and (2,300) is accepted. *)
Theorem merge_filter_rule (fs : files) (aligned_pairs : list (Z * Z)) :
  let existing := supervision_set fs in
  let accepted :=
    List.filter (eligible (load_sup_pairs (sup_pairs_file fs))) aligned_pairs in
  let result := add_to_sup_pairs fs aligned_pairs in
  (forall p,
     p ∈ accepted
     <-> p ∈ aligned_pairs
         /\ (forall k2, (p.1, k2) ∉ existing)
         /\ (forall k1, (k1, p.2) ∉ existing)
         /\ p ∉ existing)
  /\ result.1 = length accepted
  /\ (accepted = [] -> result = (0%nat, fs))
  /\ (accepted <> [] ->
      exists written,
        sup_pairs_file result.2 = Some (map line_of_pair written)
        /\ StronglySorted key_lt written
        /\ (forall p, p ∈ written <-> p ∈ existing \/ p ∈ accepted)
        /\ supervision_set result.2 = existing ∪ list_to_set accepted)
  /\ (existing = {[ (1, 100) ]} ->
      ((1, 200) ∉ accepted) /\ ((2, 100) ∉ accepted)
      /\ ((2, 300) ∈ aligned_pairs -> (2, 300) ∈ accepted)).
Proof.
  intros existing accepted result.
  assert (Hres := add_to_sup_pairs_unfold fs aligned_pairs).
  cbv zeta in Hres. fold accepted result in Hres.
  split; [intros p; apply accepted_iff |]. split; [| split; [| split]].
  - rewrite Hres. by destruct accepted.
  - intros E. rewrite Hres. by rewrite E.
  - intros Hne. exists (sorted_pairs (existing ∪ list_to_set accepted)).
    destruct (sorted_pairs_spec (existing ∪ list_to_set accepted)) as [Hs Hm].
    destruct (merge_written fs aligned_pairs Hne) as [E Hset].
    fold result in E, Hset. rewrite Hset, E.
    split; [reflexivity |]. split; [exact Hs |]. split; [| reflexivity].
    intros p. rewrite Hm. set_solver.
  - intros Hex. unfold accepted. rewrite !accepted_iff. fold existing.
    rewrite Hex. repeat split.
    + intros (_ & H & _). apply (H 100). set_solver.
    + intros (_ & _ & H & _). apply (H 1). set_solver.
    + assumption.
    + intros k2 Hc. apply elem_of_singleton in Hc. simpl in Hc. congruence.
    + intros k1 Hc. apply elem_of_singleton in Hc. simpl in Hc. congruence.
    + intros Hc. apply elem_of_singleton in Hc. congruence.
Qed.

(** ** The one-to-one invariant *)

(** A merge keeps the invariant when the accepted pairs do not clash with
    one another: the filter only compares a candidate with the pairs that
    were in the file before the call. *)
Lemma merge_keeps_one_to_one (fs : files) (aligned_pairs : list (Z * Z)) :
  one_to_one (supervision_set fs) ->
  one_to_one (list_to_set aligned_pairs) ->
  one_to_one (supervision_set (add_to_sup_pairs fs aligned_pairs).2).
Proof.
  intros Hold Hnew.
  assert (Hres := add_to_sup_pairs_unfold fs aligned_pairs). cbv zeta in Hres.
  destruct (List.filter (eligible (load_sup_pairs (sup_pairs_file fs)))
              aligned_pairs) as [| a accepted] eqn:E.
  - by rewrite Hres.
  - destruct (merge_written fs aligned_pairs) as [_ ->];
      [by rewrite E |]. rewrite E.
    assert (Hacc : forall p, p ∈ a :: accepted ->
              p ∈ aligned_pairs
              /\ (forall k2, (p.1, k2) ∉ supervision_set fs)
              /\ (forall k1, (k1, p.2) ∉ supervision_set fs)).
    { intros p Hp. rewrite <- E in Hp. apply accepted_iff in Hp. tauto. }
    intros p q Hp Hq Hpq.
    rewrite elem_of_union, elem_of_list_to_set in Hp, Hq.
    destruct Hp as [Hp | Hp], Hq as [Hq | Hq].
    + by apply Hold.
    + apply Hacc in Hq as (_ & H1 & H2). exfalso.
      destruct p as [p1 p2], q as [q1 q2]. simpl in *.
      destruct Hpq as [-> | ->]; [by apply (H1 p2) | by apply (H2 p1)].
    + apply Hacc in Hp as (_ & H1 & H2). exfalso.
      destruct p as [p1 p2], q as [q1 q2]. simpl in *.
      destruct Hpq as [<- | <-]; [by apply (H1 q2) | by apply (H2 q1)].
    + apply Hacc in Hp as (Hp & _). apply Hacc in Hq as (Hq & _).
      apply Hnew; [by apply elem_of_list_to_set .. | assumption].
Qed.

(** C1 (the code departs from the claim).  Starting from the one-to-one
    supervision set {(1,100)}, the merge of the batch [(2,300); (3,300)]
    accepts both pairs, because neither 300 nor 2 nor 3 is in the file
    before the call: it returns 2 and writes (1,100), (2,300), (3,300),
    where the KG2 id 300 occurs twice. *)
Theorem merge_of_clashing_batch :
  one_to_one (supervision_set example_files)
  /\ add_to_sup_pairs example_files example_batch
     = (2%nat,
        {| sup_pairs_file :=
             Some [[Some 1; Some 100]; [Some 2; Some 300]; [Some 3; Some 300]];
           backup_file := Some [[Some 1; Some 100]] |})
  /\ ~ one_to_one
        (supervision_set (merge_all example_files [example_batch])).
Proof.
  assert (Hrun : add_to_sup_pairs example_files example_batch
                 = (2%nat,
                    {| sup_pairs_file :=
                         Some [[Some 1; Some 100]; [Some 2; Some 300];
                               [Some 3; Some 300]];
                       backup_file := Some [[Some 1; Some 100]] |})).
  { vm_compute. reflexivity. }
  split; [| split; [exact Hrun |]].
  - unfold supervision_set, example_files. cbn [sup_pairs_file].
    change [[Some 1; Some 100]] with (map line_of_pair [(1, 100)]).
    rewrite load_written. intros p q Hp Hq _.
    apply elem_of_list_to_set, list_elem_of_singleton in Hp, Hq. congruence.
  - unfold merge_all. cbn [foldl]. rewrite Hrun.
    unfold supervision_set. cbn [snd sup_pairs_file].
    change [[Some 1; Some 100]; [Some 2; Some 300]; [Some 3; Some 300]]
      with (map line_of_pair [(1, 100); (2, 300); (3, 300)]).
    rewrite load_written. intros H.
    assert (E : (2, 300) = (3, 300)); [| discriminate E].
    apply H; [| | by right].
    + apply elem_of_list_to_set. apply list_elem_of_further, list_elem_of_here.
    + apply elem_of_list_to_set.
      do 2 apply list_elem_of_further. apply list_elem_of_here.
Qed.

End FusionFacts.

(* ===================================================================== *)
(** * Properties of the hypergraph decomposition *)
(* ===================================================================== *)

Module DecompositionFacts.

Import Decomposition.
Local Open Scope Z_scope.

(** ** Merging time points into intervals *)

Lemma merge_times_acc (intervals : list (Z * Z)) (s e : Z) (ts : list Z) :
  merge_times intervals s e ts = intervals ++ merge_times [] s e ts.
Proof.
  revert intervals s e. induction ts as [| t ts IH]; intros intervals s e; simpl.
  - reflexivity.
  - destruct (t =? e + 1); [apply IH |].
    rewrite IH, (IH [(s, e)]). by rewrite <- app_assoc.
Qed.

(** The loop, started on a run [s..e] with the later time points [ts]. *)
Lemma merge_times_runs (ts : list Z) (s e : Z) :
  s <= e ->
  StronglySorted Z.lt ts ->
  Forall (fun t => e < t) ts ->
  let runs := merge_times [] s e ts in
  Forall (fun x => s <= x.1 /\ x.1 <= x.2) runs
  /\ StronglySorted apart runs
  /\ forall t, covered runs t <-> s <= t <= e \/ t ∈ ts.
Proof.
  revert s e. induction ts as [| t ts IH]; intros s e Hse Hsort Hgt; simpl.
  - split; [| split].
    + repeat constructor; simpl; lia.
    + repeat constructor.
    + intros t. unfold covered. split.
      * intros (a & b & Hin & Hab).
        apply list_elem_of_singleton in Hin as [= -> ->]. by left.
      * intros [H | H]; [| by apply elem_of_nil in H].
        exists s, e. split; [apply list_elem_of_here | assumption].
  - apply StronglySorted_inv in Hsort as [Hsort Hlt].
    apply Forall_cons in Hgt as [Het Hgt].
    destruct (Z.eqb_spec t (e + 1)) as [-> | Hne].
    + destruct (IH s (e + 1)) as (H1 & H2 & H3); [lia | assumption | assumption |].
      split; [exact H1 | split; [exact H2 |]].
      intros x. rewrite H3, elem_of_cons. split.
      * intros [H | H]; [| by right; right].
        destruct (decide (x = e + 1)); [by right; left | left; lia].
      * intros [H | [H | H]]; [left; lia | left; lia | by right].
    + rewrite merge_times_acc.
      destruct (IH t t) as (H1 & H2 & H3); [lia | assumption | assumption |].
      split; [| split].
      * constructor; [simpl; lia |].
        eapply Forall_impl; [exact H1 |]. simpl. intros x. lia.
      * constructor; [exact H2 |].
        eapply Forall_impl; [exact H1 |]. unfold apart. simpl. intros x. lia.
      * intros x. unfold covered in *. rewrite elem_of_cons. split.
        -- intros (a & b & Hin & Hab).
           apply elem_of_cons in Hin as [[= -> ->] | Hin]; [by left |].
           assert (Hc : t <= x <= t \/ x ∈ ts) by (apply H3; eauto).
           right. destruct Hc; [left; lia | by right].
        -- intros [H | [-> | H]].
           ++ exists s, e. split; [apply list_elem_of_here | assumption].
           ++ destruct (proj2 (H3 t)) as (a & b & Hin & Hab); [left; lia |].
              exists a, b. split; [by apply list_elem_of_further | assumption].
           ++ destruct (proj2 (H3 x)) as (a & b & Hin & Hab); [by right |].
              exists a, b. split; [by apply list_elem_of_further | assumption].
Qed.

(** [sorted(s)]: strictly ascending, with the elements of [s]. *)
Lemma sorted_spec (s : gset Z) :
  StronglySorted Z.lt (sorted s) /\ forall t, t ∈ sorted s <-> t ∈ s.
Proof.
  unfold sorted. split.
  - assert (Hs : StronglySorted Z.le (merge_sort Z.le (elements s)))
      by (apply StronglySorted_merge_sort; apply _).
    assert (Hnd : NoDup (merge_sort Z.le (elements s)))
      by (rewrite merge_sort_Permutation; apply NoDup_elements).
    induction Hs as [| x l Hs IH Hall]; constructor.
    + apply IH. by apply NoDup_cons in Hnd as [_ ?].
    + apply NoDup_cons in Hnd as [Hx _].
      rewrite List.Forall_forall in *. intros y Hy.
      specialize (Hall y Hy).
      assert (x <> y) by (intros ->; by apply Hx, list_elem_of_In). lia.
  - intros t. by rewrite merge_sort_Permutation, elem_of_elements.
Qed.

(** Two intervals of a list kept [apart] are the same or one is apart of
    the other. *)
Lemma apart_members (l : list (Z * Z)) (x y : Z * Z) :
  StronglySorted apart l -> x ∈ l -> y ∈ l ->
  x = y \/ apart x y \/ apart y x.
Proof.
  induction 1 as [| a l Hs IH Hall]; intros Hx Hy; [by apply elem_of_nil in Hx |].
  rewrite List.Forall_forall in Hall.
  apply elem_of_cons in Hx as [-> | Hx], Hy as [-> | Hy].
  - by left.
  - right. left. by apply Hall, list_elem_of_In.
  - right. right. by apply Hall, list_elem_of_In.
  - by apply IH.
Qed.

Lemma common_time_intervals_runs (times1 times2 : gset Z) :
  let intervals := common_time_intervals times1 times2 in
  Forall (fun x => x.1 <= x.2) intervals
  /\ StronglySorted apart intervals
  /\ forall t, covered intervals t <-> t ∈ times1 ∩ times2.
Proof.
  unfold common_time_intervals.
  destruct (sorted_spec (times1 ∩ times2)) as [Hsort Hmem].
  case_decide as Hempty.
  - split; [constructor | split; [constructor |]].
    intros t. rewrite Hempty. unfold covered. split.
    + intros (s & e & Hin & _). by apply elem_of_nil in Hin.
    + intros Hin. by apply not_elem_of_empty in Hin.
  - destruct (sorted (times1 ∩ times2)) as [| t0 rest] eqn:E.
    + exfalso. apply Hempty. apply set_eq. intros t.
      rewrite <- Hmem. split; intros Hin; [by apply elem_of_nil in Hin |].
      by apply not_elem_of_empty in Hin.
    + apply StronglySorted_inv in Hsort as [Hsort Hlt].
      destruct (merge_times_runs rest t0 t0) as (H1 & H2 & H3);
        [lia | assumption | assumption |].
      split; [| split; [exact H2 |]].
      * eapply Forall_impl; [exact H1 |]. simpl. intros x. lia.
      * intros t. rewrite H3, <- Hmem, elem_of_cons. split.
        -- intros [H | H]; [left; lia | by right].
        -- intros [-> | H]; [left; lia | by right].
Qed.

(** C4.  The interval list computed from two time-id sets is sorted
    ascending with consecutive intervals neither overlapping nor adjacent
    (each ends at least two before the next starts); every interval is a
    non-empty maximal run of the intersection (all its points are common,
    the points just before and just after are not); a time point is common
    exactly when it lies in one of the intervals; and the list is empty
    when the intersection is. *)
Theorem common_time_intervals_spec (d : decomposer) (kg1_id kg2_id : Z)
    (times1 times2 : gset Z) :
  let intervals := common_time_intervals times1 times2 in
  let common := times1 ∩ times2 in
  _get_common_time_intervals d kg1_id kg2_id
  = common_time_intervals (default ∅ (kg1_entity_times d !! kg1_id))
                          (default ∅ (kg2_entity_times d !! kg2_id))
  /\ StronglySorted apart intervals
  /\ (forall s e,
        (s, e) ∈ intervals ->
        s <= e
        /\ (forall t, s <= t <= e -> t ∈ common)
        /\ (s - 1 ∉ common) /\ e + 1 ∉ common)
  /\ (forall t, t ∈ common <-> covered intervals t)
  /\ (common = ∅ -> intervals = []).
Proof.
  intros intervals common.
  destruct (common_time_intervals_runs times1 times2) as (Hne & Hap & Hcov).
  fold intervals common in Hne, Hap, Hcov.
  split; [reflexivity |]. split; [exact Hap |].
  split; [| split].
  - intros s e Hin.
    assert (Hse : s <= e).
    { rewrite List.Forall_forall in Hne.
      by apply (Hne (s, e)), list_elem_of_In. }
    split; [exact Hse |]. split; [| split].
    + intros t Ht. apply Hcov. by exists s, e.
    + intros Hc. apply Hcov in Hc as (s' & e' & Hin' & Ht).
      destruct (apart_members intervals (s, e) (s', e') Hap Hin Hin')
        as [[= <- <-] | [H | H]]; unfold apart in *; simpl in *; lia.
    + intros Hc. apply Hcov in Hc as (s' & e' & Hin' & Ht).
      destruct (apart_members intervals (s, e) (s', e') Hap Hin Hin')
        as [[= <- <-] | [H | H]]; unfold apart in *; simpl in *; lia.
  - intros t. symmetry. apply Hcov.
  - intros Hempty. unfold intervals, common_time_intervals.
    fold common. by rewrite decide_True.
Qed.

(** ** Allocation of aspect ids *)

Lemma same_data_refl d : same_data d d.
Proof. by repeat split. Qed.

Lemma same_data_trans d1 d2 d3 :
  same_data d1 d2 -> same_data d2 d3 -> same_data d1 d3.
Proof.
  unfold same_data. intros H1 H2.
  destruct H1 as (? & ? & ? & ? & ? & ? & ? & ?).
  destruct H2 as (? & ? & ? & ? & ? & ? & ? & ?).
  repeat split; congruence.
Qed.

Lemma has_temporal_same_data d d' p :
  same_data d d' -> has_temporal d' p = has_temporal d p.
Proof.
  intros (_ & _ & _ & E1 & E2 & _).
  unfold has_temporal, _get_common_time_intervals. by rewrite E1, E2.
Qed.

Lemma has_relational_same_data d d' p :
  same_data d d' -> has_relational d' p = has_relational d p.
Proof.
  intros (_ & _ & _ & _ & _ & E1 & E2 & E3).
  unfold has_relational, _get_common_relations. by rewrite E1, E2, E3.
Qed.

(** What one turn of the loop does to the counters, the result lists and
    the mapping. *)
Lemma temporal_step_spec (p : Z * Z) (d : decomposer) (r : results) :
  let s' := temporal_step p.1 p.2 (d, r) in
  same_data d s'.1
  /\ relational_aspect_counter s'.1 = relational_aspect_counter d
  /\ relational_ids s'.2 = relational_ids r
  /\ if has_temporal d p
     then temporal_aspect_counter s'.1 = temporal_aspect_counter d + 1
          /\ temporal_ids s'.2 = temporal_ids r ++ [temporal_aspect_counter d]
          /\ aspect_to_original s'.1
             = <[temporal_aspect_counter d := p.2]> (aspect_to_original d)
     else temporal_aspect_counter s'.1 = temporal_aspect_counter d
          /\ temporal_ids s'.2 = temporal_ids r
          /\ aspect_to_original s'.1 = aspect_to_original d.
Proof.
  unfold temporal_step, has_temporal, temporal_ids.
  destruct (_get_common_time_intervals d p.1 p.2); simpl.
  - split; [apply same_data_refl | done].
  - split; [by repeat split |]. rewrite map_app. done.
Qed.

Lemma relational_step_spec (p : Z * Z) (d : decomposer) (r : results) :
  let s' := relational_step p.1 p.2 (d, r) in
  same_data d s'.1
  /\ temporal_aspect_counter s'.1 = temporal_aspect_counter d
  /\ temporal_ids s'.2 = temporal_ids r
  /\ if has_relational d p
     then relational_aspect_counter s'.1 = relational_aspect_counter d + 1
          /\ relational_ids s'.2
             = relational_ids r ++ [relational_aspect_counter d]
          /\ aspect_to_original s'.1
             = <[relational_aspect_counter d := p.2]> (aspect_to_original d)
     else relational_aspect_counter s'.1 = relational_aspect_counter d
          /\ relational_ids s'.2 = relational_ids r
          /\ aspect_to_original s'.1 = aspect_to_original d.
Proof.
  unfold relational_step, has_relational, relational_ids.
  case_decide as E; simpl.
  - rewrite bool_decide_eq_true_2 by done. simpl.
    split; [apply same_data_refl | done].
  - rewrite bool_decide_eq_false_2 by done. simpl.
    split; [by repeat split |]. rewrite map_app. done.
Qed.

Lemma seqZ_snoc_front (m n : Z) :
  0 <= n -> m :: seqZ (m + 1) n = seqZ m (n + 1).
Proof.
  intros Hn. rewrite (seqZ_cons m (n + 1)) by lia.
  f_equal. f_equal; lia.
Qed.

(** The loop allocates consecutive ids of each kind, one for every pair
    that yields an aspect of the kind, and gives each an entry of the
    mapping. *)
Lemma decompose_loop_spec (pairs : list (Z * Z)) (d : decomposer) (r : results) :
  let s' := decompose_loop pairs (d, r) in
  let nt := Z.of_nat (length (List.filter (has_temporal d) pairs)) in
  let nr := Z.of_nat (length (List.filter (has_relational d) pairs)) in
  same_data d s'.1
  /\ temporal_aspect_counter s'.1 = temporal_aspect_counter d + nt
  /\ relational_aspect_counter s'.1 = relational_aspect_counter d + nr
  /\ temporal_ids s'.2 = temporal_ids r ++ seqZ (temporal_aspect_counter d) nt
  /\ relational_ids s'.2
     = relational_ids r ++ seqZ (relational_aspect_counter d) nr
  /\ forall id,
       is_Some (aspect_to_original d !! id)
       \/ id ∈ seqZ (temporal_aspect_counter d) nt
       \/ id ∈ seqZ (relational_aspect_counter d) nr ->
       is_Some (aspect_to_original s'.1 !! id).
Proof.
  revert d r. induction pairs as [| p pairs IH]; intros d r.
  - simpl. split; [apply same_data_refl |].
    rewrite !Z.add_0_r, !app_nil_r. repeat split.
    intros id [H | [H | H]]; [assumption | by apply elem_of_nil in H ..].
  - change (decompose_loop (p :: pairs) (d, r))
      with (decompose_loop pairs (relational_step p.1 p.2
                                    (temporal_step p.1 p.2 (d, r)))).
    pose proof (temporal_step_spec p d r) as T.
    destruct (temporal_step p.1 p.2 (d, r)) as [d1 r1].
    pose proof (relational_step_spec p d1 r1) as R.
    destruct (relational_step p.1 p.2 (d1, r1)) as [d2 r2].
    cbv zeta in T, R. simpl in T, R.
    destruct T as (Sd1 & Trc & Trids & T).
    destruct R as (Sd2 & Rtc & Rtids & R).
    assert (Sd : same_data d d2) by (by eapply same_data_trans).
    specialize (IH d2 r2).
    cbv zeta in IH. destruct IH as (S' & Htc & Hrc & Htids & Hrids & Hmap).
    rewrite (List.filter_ext _ _ (fun q => has_temporal_same_data d d2 q Sd))
      in Htc, Htids, Hmap.
    rewrite (List.filter_ext _ _ (fun q => has_relational_same_data d d2 q Sd))
      in Hrc, Hrids, Hmap.
    rewrite (has_relational_same_data d d1 p Sd1) in R.
    cbv zeta. cbn [List.filter].
    set (nt := Z.of_nat (length (List.filter (has_temporal d) pairs))) in *.
    set (nr := Z.of_nat (length (List.filter (has_relational d) pairs))) in *.
    assert (Hnt : 0 <= nt) by lia. assert (Hnr : 0 <= nr) by lia.
    split; [by eapply same_data_trans |].
    rewrite Htc, Hrc, Htids, Hrids.
    assert (Hl : forall l : list (Z * Z),
               Z.of_nat (length (p :: l)) = Z.of_nat (length l) + 1)
      by (intros; cbn [length]; lia).
    assert (Hins : forall (k v id : Z) (m : gmap Z Z),
               is_Some (<[k := v]> m !! id) <-> k = id \/ is_Some (m !! id)).
    { intros k v id m. rewrite lookup_insert_is_Some.
      destruct (decide (k = id)); tauto. }
    rewrite !Trc in R.
    destruct (has_temporal d p), (has_relational d p);
      destruct T as (T1 & T2 & T3), R as (R1 & R2 & R3);
      rewrite ?Hl; fold nt nr;
      rewrite Rtc, T1, R1, R3, T3 in Hmap;
      rewrite Rtc, T1, R1, Rtids, T2, R2, Trids;
      rewrite <- ?app_assoc; cbn [app]; rewrite ?seqZ_snoc_front by lia;
      (split; [lia |]); (split; [lia |]); (split; [reflexivity |]);
      (split; [reflexivity |]);
      intros id Hid; apply Hmap;
      rewrite <- ?seqZ_snoc_front in Hid by lia;
      rewrite ?elem_of_cons in Hid; rewrite ?Hins;
      naive_solver.
Qed.

Lemma seqZ_strictly_sorted (m n : Z) : StronglySorted Z.lt (seqZ m n).
Proof.
  destruct (Z.le_gt_cases n 0) as [Hn | Hn].
  - rewrite seqZ_nil by lia. constructor.
  - rewrite <- (Z2Nat.id n) by lia. generalize (Z.to_nat n) as k. clear.
    intros k. revert m. induction k as [| k IH]; intros m.
    + rewrite seqZ_nil by lia. constructor.
    + rewrite seqZ_cons by lia. constructor.
      * replace (Z.pred (Z.of_nat (S k))) with (Z.of_nat k) by lia. apply IH.
      * apply List.Forall_forall. intros x Hx.
        apply list_elem_of_In, elem_of_seqZ in Hx. lia.
Qed.

(** The ids of a run that starts from a fresh object. *)
Lemma fresh_run_ids (pairs : list (Z * Z)) (triples1 triples2 : list triple)
    (alignment_rows : list (Z * Z)) :
  let d := load_data pairs triples1 triples2 alignment_rows init in
  temporal_ids (decompose d).2
  = seqZ 1000000 (Z.of_nat (length (List.filter (has_temporal d) pairs)))
  /\ relational_ids (decompose d).2
     = seqZ 2000000 (Z.of_nat (length (List.filter (has_relational d) pairs)))
  /\ forall id,
       id ∈ temporal_ids (decompose d).2
       \/ id ∈ relational_ids (decompose d).2 ->
       is_Some (aspect_to_original (decompose d).1 !! id).
Proof.
  intros d. unfold decompose.
  destruct (decompose_loop_spec (entity_pairs d) d (mk_results [] []))
    as (_ & _ & _ & Ht & Hr & Hmap).
  change (entity_pairs d) with pairs in *.
  change (temporal_aspect_counter d) with 1000000 in *.
  change (relational_aspect_counter d) with 2000000 in *.
  rewrite Ht, Hr. split; [reflexivity |]. split; [reflexivity |].
  intros id Hid. apply Hmap. right. exact Hid.
Qed.

(** What a run on a freshly loaded object does give: the temporal aspect
    ids are 1000000, 1000001, ... and the relational aspect ids 2000000,
    2000001, ... in allocation order, one for every pair that yields an
    aspect of the kind: they increase strictly within a kind and none is
    used twice within a kind; every allocated id has an entry in the
    aspect-to-original mapping; no aspect id equals a real entity id below
    1000000; and no temporal id equals a relational id when the frontier
    has at most 1000000 pairs. *)
Theorem aspect_ids_of_a_fresh_run (pairs : list (Z * Z))
    (triples1 triples2 : list triple) (alignment_rows : list (Z * Z)) :
  let d := load_data pairs triples1 triples2 alignment_rows init in
  let t_ids := temporal_ids (decompose d).2 in
  let r_ids := relational_ids (decompose d).2 in
  t_ids = seqZ 1000000 (Z.of_nat (length (List.filter (has_temporal d) pairs)))
  /\ r_ids
     = seqZ 2000000 (Z.of_nat (length (List.filter (has_relational d) pairs)))
  /\ StronglySorted Z.lt t_ids
  /\ StronglySorted Z.lt r_ids
  /\ (forall id,
        id ∈ t_ids \/ id ∈ r_ids ->
        is_Some (aspect_to_original (decompose d).1 !! id))
  /\ (forall id e,
        id ∈ t_ids \/ id ∈ r_ids ->
        e ∈ real_entity_ids d -> e < 1000000 -> id <> e)
  /\ (Z.of_nat (length pairs) <= 1000000 ->
      forall id, id ∈ t_ids -> id ∉ r_ids).
Proof.
  intros d t_ids r_ids.
  destruct (fresh_run_ids pairs triples1 triples2 alignment_rows)
    as (Ht & Hr & Hmap).
  fold d in Ht, Hr, Hmap. fold t_ids in Ht, Hmap. fold r_ids in Hr, Hmap.
  split; [exact Ht |]. split; [exact Hr |].
  split; [rewrite Ht; apply seqZ_strictly_sorted |].
  split; [rewrite Hr; apply seqZ_strictly_sorted |].
  split; [exact Hmap |].
  pose proof (List.filter_length_le (has_temporal d) pairs) as Hlt.
  split.
  - intros id e Hid _ He. rewrite Ht, Hr, !elem_of_seqZ in Hid. lia.
  - intros Hlen id. rewrite Ht, Hr, !elem_of_seqZ. lia.
Qed.

(** C5 (the code departs from the claim).  The counters start at 1000000
    and 2000000 whatever ids the graphs hold; the source gives the reason:
    to avoid conflicts with real entity ids.  The frontier pair
    (1, 1000000), whose two entities share the time point 5, is given the
    temporal aspect id 1000000, the id of its own KG2 entity, and the
    aspect-to-original mapping holds the aspect 1000000 for the entity
    1000000.  In a run on 1000001 pairs that all yield both aspects, the
    last temporal id is 2000000, the first relational id. *)
Theorem aspect_ids_collide :
  let run := decompose high_id_decomposer in
  let long_run := decompose (long_decomposer (Z.to_nat 1000001)) in
  temporal_ids run.2 = [1000000]
  /\ 1000000 ∈ real_entity_ids high_id_decomposer
  /\ aspect_to_original run.1 !! 1000000 = Some 1000000
  /\ 2000000 ∈ temporal_ids long_run.2
  /\ 2000000 ∈ relational_ids long_run.2.
Proof.
  cbv zeta. split; [vm_compute; reflexivity |].
  split.
  { unfold real_entity_ids, high_id_decomposer, load_data, init.
    cbn [entity_pairs kg1_triples kg2_triples app map fst snd].
    set_solver. }
  split; [vm_compute; reflexivity |].
  set (n := Z.to_nat 1000001).
  assert (Hn : Z.of_nat n = 1000001) by (unfold n; lia).
  clearbody n. unfold long_decomposer.
  destruct (fresh_run_ids (replicate n (1, 2))
              [mk_triple 1 7 3 5 5] [mk_triple 2 8 4 5 5] [(7, 8)])
    as (Ht & Hr & _).
  cbv zeta in Ht, Hr. rewrite Ht, Hr.
  assert (Hfilter : forall f : Z * Z -> bool,
             f (1, 2) = true ->
             length (List.filter f (replicate n (1, 2))) = n).
  { intros f Hf. clear -Hf. induction n as [| n IH]; [reflexivity |].
    simpl. rewrite Hf. simpl. by rewrite IH. }
  rewrite !Hfilter.
  - rewrite !elem_of_seqZ. lia.
  - change (has_relational
              (load_data [] [mk_triple 1 7 3 5 5] [mk_triple 2 8 4 5 5]
                         [(7, 8)] init) (1, 2) = true).
    vm_compute. reflexivity.
  - change (has_temporal
              (load_data [] [mk_triple 1 7 3 5 5] [mk_triple 2 8 4 5 5]
                         [(7, 8)] init) (1, 2) = true).
    vm_compute. reflexivity.
Qed.

End DecompositionFacts.

(* ===================================================================== *)
(** * Properties of the iteration controller *)
(* ===================================================================== *)

Module PipelineFacts.

Import Tsv Pipeline.
Local Open Scope Z_scope.

Section Controller.

Context {world : Type} (env : stages world) (opt : options).

(** An iteration that goes on to the next one has counted itself. *)
Lemma body_continue_iteration (st st' : loop_state world) :
  body env opt st = Continue st' -> iteration st' = iteration st + 1.
Proof.
  unfold body.
  destruct (s4_step env opt _ _ _) as [failed | [[w1 tr1] steps]];
    [discriminate |].
  destruct (_ <? min_kg1_entities opt); [discriminate |].
  destruct (run_s4_to_retrieval env _ w1) as [ok2 w2].
  destruct ok2; simpl.
  - destruct (run_multi_scale_fusion env w2) as [ok3 w3].
    destruct ok3; simpl.
    + destruct (max_iterations opt <=? _); [discriminate |].
      by intros [= <-].
    + destruct (_ =? 1); [discriminate |]. by intros [= <-].
  - destruct (_ =? 1); [discriminate |]. by intros [= <-].
Qed.

(** The loop does not depend on the fuel once there is enough of it: the
    run is the run of the [while] loop. *)
Lemma loop_enough_fuel (fuel : nat) (st : loop_state world) :
  (iterations_left opt st <= fuel)%nat ->
  loop env opt fuel st = run_loop env opt st.
Proof.
  unfold run_loop. revert st.
  induction fuel as [| fuel IH]; intros st Hfuel.
  - by replace (iterations_left opt st) with O by lia.
  - unfold iterations_left in *. simpl.
    destruct (Z.ltb_spec (iteration st) (max_iterations opt)) as [Hlt | Hge].
    + replace (Z.to_nat (max_iterations opt - iteration st))
        with (S (Z.to_nat (max_iterations opt - (iteration st + 1)))) by lia.
      simpl. rewrite (proj2 (Z.ltb_lt _ _) Hlt).
      destruct (body env opt st) as [st' | st' | b st'] eqn:B;
        [| reflexivity ..].
      apply body_continue_iteration in B.
      rewrite <- B. apply IH. lia.
    + replace (Z.to_nat (max_iterations opt - iteration st)) with O by lia.
      reflexivity.
Qed.

Lemma run_loop_unfold (st : loop_state world) :
  iteration st < max_iterations opt ->
  run_loop env opt st
  = match body env opt st with
    | Continue st' => run_loop env opt st'
    | Break st' => (true, st')
    | Return b st' => (b, st')
    end.
Proof.
  intros Hlt. unfold run_loop at 1, iterations_left.
  replace (Z.to_nat (max_iterations opt - iteration st))
    with (S (Z.to_nat (max_iterations opt - (iteration st + 1)))) by lia.
  simpl. rewrite (proj2 (Z.ltb_lt _ _) Hlt).
  destruct (body env opt st) as [st' | st' | b st'] eqn:B; [| reflexivity ..].
  apply body_continue_iteration in B. apply loop_enough_fuel.
  unfold iterations_left. rewrite B. lia.
Qed.

(** The run from the start is the run from any loop head it reaches. *)
Lemma run_loop_reachable (st0 st : loop_state world) :
  reachable env opt st0 st -> run_loop env opt st0 = run_loop env opt st.
Proof.
  induction 1 as [| st st' _ IH Hlt B]; [reflexivity |].
  rewrite IH, (run_loop_unfold st Hlt). by rewrite B.
Qed.

(** The step before the count runs at most the training stage. *)
Lemma s4_step_trace (i : Z) (w w1 : world) (tr tr1 : list event)
    (steps : list string) :
  s4_step env opt i w tr = inr (w1, tr1, steps) ->
  tr1 = tr \/ tr1 = tr ++ [EvS4Training i].
Proof.
  unfold s4_step.
  destruct (negb (skip_s4 opt)).
  - destruct (check_s4_output env w && (1 <? i)); [intros [= <- <- <-]; by left |].
    destruct (run_s4_training env w) as [ok w'].
    destruct ok; [intros [= <- <- <-]; by right |].
    destruct (i =? 1); [discriminate | intros [= <- <- <-]; by right].
  - destruct (negb (check_s4_output env w)).
    + destruct (i =? 1); [discriminate | intros [= <- <- <-]; by left].
    + intros [= <- <- <-]. by left.
Qed.

Lemma body_below_threshold (st : loop_state world) (w1 : world)
    (tr1 : list event) (steps : list string) :
  s4_step env opt (iteration st + 1) (current st) (trace st)
  = inr (w1, tr1, steps) ->
  count_unique_kg1_entities (frontier_file env w1) < min_kg1_entities opt ->
  body env opt st
  = Break (mk_state (iteration st + 1) w1 (all_success_steps st ++ steps)
             (tr1 ++ [EvCount (iteration st + 1)
                        (count_unique_kg1_entities (frontier_file env w1))])).
Proof.
  intros Hs4 Hlt. unfold body. rewrite Hs4.
  by rewrite (proj2 (Z.ltb_lt _ _) Hlt).
Qed.

End Controller.

(** C3.  In a run of the loop, when some iteration finds fewer distinct
    KG1 ids in the frontier file than [min_kg1_entities], the run ends
    there with success: the final world is the world in which the count was
    taken and the last stage event is the count, so neither retrieval nor
    fusion ran for that iteration and nothing ran after it; what earlier
    iterations did is an unchanged prefix of the trace.  With the defaults
    and frontiers of 200, 80 and 40 distinct KG1 ids, iterations 1 and 2 run
    retrieval and fusion, iteration 3 stops at its count, and the 200 + 80
    pairs confirmed by then are the result. *)
Theorem stop_below_min_kg1_entities {world : Type} (env : stages world)
    (opt : options) (w : world) (st : loop_state world) (w1 : world)
    (tr1 : list event) (steps : list string) :
  data_dir_exists env w = true ->
  only_s4 opt = false ->
  reachable env opt (start w) st ->
  iteration st < max_iterations opt ->
  s4_step env opt (iteration st + 1) (current st) (trace st)
  = inr (w1, tr1, steps) ->
  count_unique_kg1_entities (frontier_file env w1) < min_kg1_entities opt ->
  let i := iteration st + 1 in
  let kg1_count := count_unique_kg1_entities (frontier_file env w1) in
  run_full_pipeline env opt w
  = (true, mk_state i w1 (all_success_steps st ++ steps)
             (tr1 ++ [EvCount i kg1_count]))
  /\ (tr1 = trace st \/ tr1 = trace st ++ [EvS4Training i])
  /\ (let final := (example_run).2 in
      example_run.1 = true
      /\ iteration final = 3
      /\ trace final
         = [EvS4Training 1; EvCount 1 200; EvRetrieval 1; EvFusion 1;
            EvCount 2 80; EvRetrieval 2; EvFusion 2; EvCount 3 40]
      /\ current final = current (example_head 2)
      /\ Z.of_nat (length (ex_sup_pairs (current final))) = 280).
Proof.
  intros Hdir Honly Hreach Hlt Hs4 Hcount i kg1_count.
  split; [| split].
  - unfold run_full_pipeline. rewrite Hdir, Honly. simpl.
    rewrite (run_loop_reachable env opt _ st Hreach).
    rewrite (run_loop_unfold env opt st Hlt).
    by rewrite (body_below_threshold env opt st w1 tr1 steps Hs4 Hcount).
  - by eapply s4_step_trace.
  - vm_compute. repeat split; reflexivity.
Qed.

(** The worked example: the third iteration is reached after two full
    iterations and stops at its count of 40. *)
Lemma stop_below_min_kg1_entities_witness :
  run_full_pipeline example_stages default_options example_start
  = (true,
     mk_state 3 (current (example_head 2))
       (all_success_steps (example_head 2) ++ ["S4 (already exists)"%string])
       (trace (example_head 2) ++ [EvCount 3 40])).
Proof.
  refine (proj1 (stop_below_min_kg1_entities example_stages default_options
                   example_start (example_head 2) (current (example_head 2))
                   (trace (example_head 2)) ["S4 (already exists)"%string]
                   eq_refl eq_refl _ _ _ _)).
  - apply (reach_next _ _ _ (example_head 1)).
    + apply (reach_next _ _ _ (example_head 0)).
      * apply reach_start.
      * vm_compute. reflexivity.
      * vm_compute. reflexivity.
    + vm_compute. reflexivity.
    + vm_compute. reflexivity.
  - vm_compute. reflexivity.
  - vm_compute. reflexivity.
  - vm_compute. reflexivity.
Defined.

End PipelineFacts.

(* ===================================================================== *)
(** * Properties of the sequence matcher *)
(* ===================================================================== *)

Module DifflibFacts.

Import Difflib.
Local Open Scope nat_scope.

(** [l !! i = x] from [H : l !! i' = x] with [i = i'] by arithmetic. *)
Ltac same_index H := rewrite <- H; f_equal; lia.

Section Matcher.

Variables a b : list ascii.

(** [a[i .. i+n)] and [b[j .. j+n)] are the same. *)
Definition agree (i j n : nat) : Prop :=
  forall t, t < n -> exists c, a !! (i + t) = Some c /\ b !! (j + t) = Some c.

(** A block lies in the window and is a match. *)
Definition block_ok (alo ahi blo bhi : nat) (x : best) : Prop :=
  alo <= besti x /\ besti x + bestsize x <= ahi
  /\ blo <= bestj x /\ bestj x + bestsize x <= bhi
  /\ agree (besti x) (bestj x) (bestsize x).

(** [j2len] before row [i]: the lengths of matches that end at [a[i-1]]. *)
Definition j2len_ok (alo blo bhi i : nat) (j2len : nat -> nat) : Prop :=
  forall j, 0 < j2len j ->
    j2len j <= i - alo /\ j2len j <= j + 1 - blo /\ j < bhi
    /\ agree (i - j2len j) (j + 1 - j2len j) (j2len j).

Lemma indices_from_lookup (l : list ascii) (elt : ascii) (j0 j : nat) :
  j ∈ indices_from j0 l elt -> j0 <= j /\ l !! (j - j0) = Some elt.
Proof.
  revert j0. induction l as [| c l IH]; intros j0; simpl.
  - intros H. by apply elem_of_nil in H.
  - destruct (Ascii.eqb_spec c elt) as [-> | Hne].
    + intros H. apply elem_of_cons in H as [-> | H].
      * split; [lia |]. by rewrite Nat.sub_diag.
      * apply IH in H as [Hle Hl]. split; [lia |].
        replace (j - j0) with (S (j - S j0)) by lia. exact Hl.
    + intros H. apply IH in H as [Hle Hl]. split; [lia |].
      replace (j - j0) with (S (j - S j0)) by lia. exact Hl.
Qed.

Lemma b2j_lookup (elt : ascii) (j : nat) :
  j ∈ b2j b elt -> b !! j = Some elt.
Proof.
  unfold b2j. destruct (popular b elt); [intros H; by apply elem_of_nil in H |].
  intros H. apply indices_from_lookup in H as [_ H].
  by rewrite Nat.sub_0_r in H.
Qed.

(** One row of the table. *)
Lemma scan_row_ok (alo blo bhi i : nat) (elt : ascii) (j2len : nat -> nat)
    (js : list nat) (newj2len : nat -> nat) (bst : best) :
  alo <= i ->
  a !! i = Some elt ->
  (forall j, j ∈ js -> b !! j = Some elt) ->
  j2len_ok alo blo bhi i j2len ->
  j2len_ok alo blo bhi (S i) newj2len ->
  block_ok alo (S i) blo bhi bst ->
  let r := scan_row blo bhi i j2len js newj2len bst in
  j2len_ok alo blo bhi (S i) r.1 /\ block_ok alo (S i) blo bhi r.2.
Proof.
  intros Hi Ha. revert newj2len bst.
  induction js as [| j js IH]; intros newj2len bst Hjs Hold Hnew Hbst; simpl.
  - by split.
  - destruct (Nat.ltb_spec j blo) as [Hlo | Hlo].
    { apply IH; [| assumption ..]. intros j' Hj'. apply Hjs. by right. }
    destruct (Nat.leb_spec bhi j) as [Hhi | Hhi]; [by split |].
    assert (Hb : b !! j = Some elt) by (apply Hjs; by left).
    set (k := S (j2len_prev j2len j)).
    assert (Hk : k <= S i - alo /\ k <= j + 1 - blo
                 /\ agree (S i - k) (j + 1 - k) k).
    { unfold k, j2len_prev. destruct j as [| j'].
      - split; [lia |]. split; [lia |].
        intros t Ht. exists elt. split; [same_index Ha | same_index Hb].
      - destruct (j2len j') as [| L'] eqn:EL.
        + split; [lia |]. split; [lia |].
          intros t Ht. exists elt. split; [same_index Ha | same_index Hb].
        + destruct (Hold j') as (H1 & H2 & H3 & H4); [lia |].
          rewrite EL in H1, H2, H4.
          split; [lia |]. split; [lia |].
          intros t Ht. destruct (decide (t = S L')) as [-> | Hne].
          * exists elt. split; [same_index Ha | same_index Hb].
          * destruct (H4 t) as (c & Hc1 & Hc2); [lia |]. exists c.
            split; [same_index Hc1 | same_index Hc2]. }
    destruct Hk as (Hk1 & Hk2 & Hk3).
    apply IH.
    + intros j' Hj'. apply Hjs. by right.
    + assumption.
    + intros j' Hpos. cbv beta in *.
      destruct (Nat.eqb_spec j' j) as [E | Hne].
      * subst j'. fold k. repeat split; [lia | lia | lia | assumption].
      * by apply Hnew.
    + destruct (Nat.ltb_spec (bestsize bst) k) as [Hlt | Hge]; [| assumption].
      unfold block_ok. simpl. repeat split; [lia | lia | lia | lia |].
      intros t Ht. destruct (Hk3 t Ht) as (c & Hc1 & Hc2). exists c.
      split; [same_index Hc1 | same_index Hc2].
Qed.

Lemma j2len_ok_zero (alo blo bhi i : nat) :
  j2len_ok alo blo bhi i (fun _ => 0).
Proof. intros j Hpos. lia. Qed.

Lemma block_ok_widen (alo ahi ahi' blo bhi : nat) (x : best) :
  ahi <= ahi' -> block_ok alo ahi blo bhi x -> block_ok alo ahi' blo bhi x.
Proof. unfold block_ok. intros Hle (? & ? & ? & ? & ?). repeat split; try lia; assumption. Qed.

(** The rows [start .. start+n). *)
Lemma scan_rows_from (alo blo bhi : nat) (n start : nat)
    (st : (nat -> nat) * best) :
  alo <= start ->
  j2len_ok alo blo bhi start st.1 ->
  block_ok alo start blo bhi st.2 ->
  let r := foldl (fun st i =>
                    let js := match a !! i with
                              | Some elt => b2j b elt
                              | None => []
                              end in
                    scan_row blo bhi i st.1 js (fun _ => 0) st.2)
                 st (seq start n) in
  block_ok alo (start + n) blo bhi r.2.
Proof.
  revert start st. induction n as [| n IH]; intros start st Hs Hj Hb; simpl.
  - by rewrite Nat.add_0_r.
  - replace (start + S n) with (S start + n) by lia.
    destruct (a !! start) as [elt |] eqn:Ha.
    + destruct (scan_row_ok alo blo bhi start elt st.1 (b2j b elt)
                  (fun _ => 0) st.2) as [H1 H2]; try assumption.
      * intros j. apply b2j_lookup.
      * apply j2len_ok_zero.
      * apply (block_ok_widen alo start); [lia | assumption].
      * apply IH; [lia | exact H1 | exact H2].
    + simpl. apply IH; [lia | apply j2len_ok_zero |].
      apply (block_ok_widen alo start); [lia | assumption].
Qed.

Lemma scan_rows_ok (alo ahi blo bhi : nat) :
  alo <= ahi -> blo <= bhi ->
  block_ok alo ahi blo bhi (scan_rows a b alo ahi blo bhi).2.
Proof.
  intros Ha Hb. unfold scan_rows.
  pose proof (scan_rows_from alo blo bhi (ahi - alo) alo
                (fun _ => 0, mk_best alo blo 0)) as H.
  cbv zeta in H. replace (alo + (ahi - alo)) with ahi in H by lia.
  apply H; [lia | apply j2len_ok_zero |].
  unfold block_ok. simpl. repeat split; try lia. intros t Ht. lia.
Qed.

Lemma extend_left_ok (fuel alo ahi blo bhi : nat) (x : best) :
  block_ok alo ahi blo bhi x ->
  block_ok alo ahi blo bhi (extend_left a b fuel alo blo x).
Proof.
  revert x. induction fuel as [| fuel IH]; intros x Hx; simpl; [assumption |].
  destruct (Nat.ltb_spec alo (besti x)) as [H1 | H1]; [| assumption].
  destruct (Nat.ltb_spec blo (bestj x)) as [H2 | H2]; [| assumption]. simpl.
  destruct (a !! (besti x - 1)) as [c1 |] eqn:E1; [| assumption].
  destruct (b !! (bestj x - 1)) as [c2 |] eqn:E2; [| assumption].
  destruct (Ascii.eqb_spec c1 c2) as [-> | Hne]; [| assumption].
  apply IH. destruct Hx as (? & ? & ? & ? & Hag).
  unfold block_ok. simpl. repeat split; try lia.
  intros t Ht. destruct t as [| t].
  - exists c2. split; [same_index E1 | same_index E2].
  - destruct (Hag t) as (c & Hc1 & Hc2); [lia |]. exists c.
    split; [same_index Hc1 | same_index Hc2].
Qed.

Lemma extend_right_ok (fuel alo ahi blo bhi : nat) (x : best) :
  block_ok alo ahi blo bhi x ->
  block_ok alo ahi blo bhi (extend_right a b fuel ahi bhi x).
Proof.
  revert x. induction fuel as [| fuel IH]; intros x Hx; simpl; [assumption |].
  destruct (Nat.ltb_spec (besti x + bestsize x) ahi) as [H1 | H1];
    [| assumption].
  destruct (Nat.ltb_spec (bestj x + bestsize x) bhi) as [H2 | H2];
    [| assumption]. simpl.
  destruct (a !! (besti x + bestsize x)) as [c1 |] eqn:E1; [| assumption].
  destruct (b !! (bestj x + bestsize x)) as [c2 |] eqn:E2; [| assumption].
  destruct (Ascii.eqb_spec c1 c2) as [-> | Hne]; [| assumption].
  apply IH. destruct Hx as (? & ? & ? & ? & Hag).
  unfold block_ok. simpl. repeat split; try lia.
  intros t Ht. destruct (decide (t = bestsize x)) as [-> | Hne].
  - exists c2. by split.
  - apply Hag. lia.
Qed.

(** The longest match is a match inside the window. *)
Lemma find_longest_match_ok (alo ahi blo bhi : nat) :
  alo <= ahi -> blo <= bhi ->
  block_ok alo ahi blo bhi (find_longest_match a b alo ahi blo bhi).
Proof.
  intros Ha Hb. unfold find_longest_match.
  apply extend_right_ok, extend_left_ok. by apply scan_rows_ok.
Qed.

(** The fuel given to the loops and to the recursion is enough: more of
    it changes nothing. *)
Lemma extend_left_fuel (f1 f2 alo blo : nat) (x : best) :
  besti x - alo <= f1 -> besti x - alo <= f2 ->
  extend_left a b f1 alo blo x = extend_left a b f2 alo blo x.
Proof.
  revert f2 x. induction f1 as [| f1 IH]; intros [| f2] x H1 H2; simpl;
    try reflexivity.
  - destruct (Nat.ltb_spec alo (besti x)); [lia | reflexivity].
  - destruct (Nat.ltb_spec alo (besti x)); [lia | reflexivity].
  - destruct (Nat.ltb_spec alo (besti x)); [| reflexivity].
    destruct (blo <? bestj x); [| reflexivity]. simpl.
    destruct (a !! (besti x - 1)); [| reflexivity].
    destruct (b !! (bestj x - 1)); [| reflexivity].
    destruct (Ascii.eqb _ _); [| reflexivity].
    apply IH; simpl; lia.
Qed.

Lemma extend_right_fuel (f1 f2 ahi bhi : nat) (x : best) :
  ahi - (besti x + bestsize x) <= f1 -> ahi - (besti x + bestsize x) <= f2 ->
  extend_right a b f1 ahi bhi x = extend_right a b f2 ahi bhi x.
Proof.
  revert f2 x. induction f1 as [| f1 IH]; intros [| f2] x H1 H2; simpl;
    try reflexivity.
  - destruct (Nat.ltb_spec (besti x + bestsize x) ahi); [lia | reflexivity].
  - destruct (Nat.ltb_spec (besti x + bestsize x) ahi); [lia | reflexivity].
  - destruct (Nat.ltb_spec (besti x + bestsize x) ahi); [| reflexivity].
    destruct (bestj x + bestsize x <? bhi); [| reflexivity]. simpl.
    destruct (a !! (besti x + bestsize x)); [| reflexivity].
    destruct (b !! (bestj x + bestsize x)); [| reflexivity].
    destruct (Ascii.eqb _ _); [| reflexivity].
    apply IH; simpl; lia.
Qed.

Lemma matching_blocks_fuel (f1 f2 alo ahi blo bhi : nat) :
  alo <= ahi -> blo <= bhi -> ahi - alo < f1 -> ahi - alo < f2 ->
  matching_blocks a b f1 alo ahi blo bhi
  = matching_blocks a b f2 alo ahi blo bhi.
Proof.
  revert f2 alo ahi blo bhi.
  induction f1 as [| f1 IH]; intros [| f2] alo ahi blo bhi Ha Hb H1 H2;
    try lia.
  simpl.
  pose proof (find_longest_match_ok alo ahi blo bhi Ha Hb) as Hx.
  destruct (find_longest_match a b alo ahi blo bhi) as [i j k].
  destruct Hx as (B1 & B2 & B3 & B4 & _). simpl in *.
  destruct (Nat.eqb_spec k 0) as [-> | Hk]; [reflexivity |].
  f_equal. f_equal.
  - destruct (Nat.ltb_spec alo i); [| reflexivity].
    destruct (Nat.ltb_spec blo j); [| reflexivity]. simpl.
    apply IH; lia.
  - destruct (Nat.ltb_spec (i + k) ahi); [| reflexivity].
    destruct (Nat.ltb_spec (j + k) bhi); [| reflexivity]. simpl.
    apply IH; lia.
Qed.

(** The blocks found in a window fit side by side in both sequences, and
    when they fill both windows the windows are the same. *)
Lemma matching_blocks_sum (fuel alo ahi blo bhi : nat) :
  alo <= ahi -> blo <= bhi ->
  let total :=
    sum_list (map bestsize (matching_blocks a b fuel alo ahi blo bhi)) in
  total <= ahi - alo /\ total <= bhi - blo
  /\ (total = ahi - alo -> total = bhi - blo -> agree alo blo (ahi - alo)).
Proof.
  revert alo ahi blo bhi.
  induction fuel as [| fuel IH]; intros alo ahi blo bhi Ha Hb; simpl.
  - split; [lia |]. split; [lia |]. intros E _ t Ht. lia.
  - pose proof (find_longest_match_ok alo ahi blo bhi Ha Hb) as Hx.
    destruct (find_longest_match a b alo ahi blo bhi) as [i j k].
    destruct Hx as (H1 & H2 & H3 & H4 & Hag). simpl in *.
    destruct (Nat.eqb_spec k 0) as [-> | Hk]; simpl.
    { split; [lia |]. split; [lia |]. intros E _ t Ht. lia. }
    rewrite map_app, ListAux.sum_list_app.
    set (left := if (alo <? i) && (blo <? j)
                 then matching_blocks a b fuel alo i blo j else []).
    set (right := if (i + k <? ahi) && (j + k <? bhi)
                  then matching_blocks a b fuel (i + k) ahi (j + k) bhi
                  else []).
    assert (HL : sum_list (map bestsize left) <= i - alo
                 /\ sum_list (map bestsize left) <= j - blo
                 /\ (sum_list (map bestsize left) = i - alo ->
                     sum_list (map bestsize left) = j - blo ->
                     agree alo blo (i - alo))).
    { unfold left. destruct ((alo <? i) && (blo <? j)).
      - apply IH; lia.
      - simpl. split; [lia |]. split; [lia |]. intros E _ t Ht. lia. }
    assert (HR : sum_list (map bestsize right) <= ahi - (i + k)
                 /\ sum_list (map bestsize right) <= bhi - (j + k)
                 /\ (sum_list (map bestsize right) = ahi - (i + k) ->
                     sum_list (map bestsize right) = bhi - (j + k) ->
                     agree (i + k) (j + k) (ahi - (i + k)))).
    { unfold right. destruct ((i + k <? ahi) && (j + k <? bhi)).
      - apply IH; lia.
      - simpl. split; [lia |]. split; [lia |]. intros E _ t Ht. lia. }
    destruct HL as (L1 & L2 & L3), HR as (R1 & R2 & R3).
    split; [lia |]. split; [lia |].
    intros E1 E2 t Ht.
    destruct (Nat.lt_ge_cases t (i - alo)) as [Hlt | Hge].
    + apply L3; [lia | lia | assumption].
    + destruct (Nat.lt_ge_cases t (i - alo + k)) as [Hlt' | Hge'].
      * destruct (Hag (t - (i - alo))) as (c & Hc1 & Hc2); [lia |].
        exists c. split; [same_index Hc1 | same_index Hc2].
      * destruct (R3 ltac:(lia) ltac:(lia) (t - (i - alo + k)))
          as (c & Hc1 & Hc2); [lia |].
        exists c. split; [same_index Hc1 | same_index Hc2].
Qed.

Lemma matches_le : matches a b <= length a /\ matches a b <= length b.
Proof.
  unfold matches, get_matching_blocks.
  destruct (matching_blocks_sum (S (length a)) 0 (length a) 0 (length b))
    as (H1 & H2 & _); lia.
Qed.

(** Only equal sequences are matched in full. *)
Lemma matches_full :
  matches a b = length a -> matches a b = length b -> a = b.
Proof.
  unfold matches, get_matching_blocks. intros E1 E2.
  destruct (matching_blocks_sum (S (length a)) 0 (length a) 0 (length b))
    as (_ & _ & H); [lia | lia |].
  cbv zeta in H. rewrite !Nat.sub_0_r in H. specialize (H E1 E2).
  apply list_eq. intros t.
  destruct (Nat.lt_ge_cases t (length a)) as [Hlt | Hge].
  - destruct (H t Hlt) as (c & Hc1 & Hc2). simpl in *. congruence.
  - rewrite !lookup_ge_None_2; [reflexivity | lia | lia].
Qed.

Lemma ratio_nonneg : (0 <= ratio a b)%Q.
Proof.
  unfold ratio. destruct (Nat.eqb_spec (length a + length b) 0) as [E | E];
    [discriminate |].
  apply Qle_shift_div_l.
  - change 0%Q with (inject_Z 0). rewrite <- Zlt_Qlt. lia.
  - rewrite Qmult_0_l. change 0%Q with (inject_Z 0). rewrite <- Zle_Qle. lia.
Qed.

(** Sequences that differ have a ratio below 1. *)
Lemma ratio_lt_1 : a <> b -> (ratio a b < 1)%Q.
Proof.
  intros Hne. unfold ratio.
  destruct (Nat.eqb_spec (length a + length b) 0) as [E | E].
  - exfalso. apply Hne.
    destruct a, b; simpl in E; try lia. reflexivity.
  - apply Qlt_shift_div_r.
    + change 0%Q with (inject_Z 0). rewrite <- Zlt_Qlt. lia.
    + rewrite Qmult_1_l, <- Zlt_Qlt.
      destruct matches_le as [H1 H2].
      destruct (decide (matches a b = length a)) as [E1 | E1];
        [destruct (decide (matches a b = length b)) as [E2 | E2] |];
        [exfalso; by apply Hne, matches_full | lia | lia].
Qed.

End Matcher.

End DifflibFacts.

(* ===================================================================== *)
(** * Properties of the relation alignment *)
(* ===================================================================== *)

Module RelationAlignmentFacts.

Import Decomposition RelationAlignment.
Local Open Scope string_scope.
Local Open Scope list_scope.

(** ** The score of two names *)

Lemma chars_inj (s1 s2 : string) : Py.chars s1 = Py.chars s2 -> s1 = s2.
Proof.
  unfold Py.chars. intros E.
  rewrite <- (string_of_list_ascii_of_string s1),
          <- (string_of_list_ascii_of_string s2).
  by rewrite E.
Qed.

Lemma sequence_similarity_bounds (s1 s2 : string) :
  (0 <= sequence_similarity s1 s2)%Q
  /\ (s1 <> s2 -> sequence_similarity s1 s2 < 1)%Q.
Proof.
  split; [apply DifflibFacts.ratio_nonneg |].
  intros Hne. apply DifflibFacts.ratio_lt_1. intros E. by apply Hne, chars_inj.
Qed.

Lemma word_overlap_bounds (words1 words2 : gset string) :
  (0 <= word_overlap words1 words2 <= 1)%Q.
Proof.
  unfold word_overlap. case_decide as E; [split; discriminate |].
  assert (Hpos : (0 < size (words1 ∪ words2))%nat).
  { destruct (size (words1 ∪ words2)) eqn:Es; [| lia].
    apply size_empty_inv in Es. exfalso. apply E. by apply leibniz_equiv. }
  assert (Hle : (size (words1 ∩ words2) <= size (words1 ∪ words2))%nat).
  { apply subseteq_size. set_solver. }
  split.
  - apply Qle_shift_div_l.
    + change 0%Q with (inject_Z 0). rewrite <- Zlt_Qlt. lia.
    + rewrite Qmult_0_l. change 0%Q with (inject_Z 0). rewrite <- Zle_Qle. lia.
  - apply Qle_shift_div_r.
    + change 0%Q with (inject_Z 0). rewrite <- Zlt_Qlt. lia.
    + rewrite Qmult_1_l, <- Zle_Qle. lia.
Qed.

Lemma word_overlap_comm (words1 words2 : gset string) :
  word_overlap words1 words2 = word_overlap words2 words1.
Proof.
  unfold word_overlap.
  by rewrite (comm_L (∪) words1 words2), (comm_L (∩) words1 words2).
Qed.

(** The three cases of [text_similarity]. *)
Lemma text_similarity_cases (name1 name2 : string) :
  let l1 := Py.lower name1 in
  let l2 := Py.lower name2 in
  (l1 = l2 -> text_similarity name1 name2 = 1%Q)
  /\ (l1 <> l2 -> words l1 <> ∅ -> words l2 <> ∅ ->
      text_similarity name1 name2
      = ((6 # 10) * sequence_similarity l1 l2
         + (4 # 10) * word_overlap (words l1) (words l2))%Q)
  /\ (l1 <> l2 -> words l1 = ∅ \/ words l2 = ∅ ->
      text_similarity name1 name2 = sequence_similarity l1 l2).
Proof.
  intros l1 l2. unfold text_similarity. fold l1 l2.
  destruct (String.eqb_spec l1 l2) as [E | E].
  - split; [done |]. split; intros; done.
  - split; [done |]. split.
    + intros _ H1 H2. by rewrite !bool_decide_eq_false_2.
    + intros _ [H | H].
      * by rewrite (bool_decide_eq_true_2 _ H).
      * rewrite (bool_decide_eq_true_2 _ H). by rewrite andb_false_r.
Qed.

Lemma text_similarity_one (name1 name2 : string) :
  (text_similarity name1 name2 == 1)%Q <-> Py.lower name1 = Py.lower name2.
Proof.
  destruct (text_similarity_cases name1 name2) as (H1 & H2 & H3).
  cbv zeta in *. split.
  - intros Hone.
    destruct (decide (Py.lower name1 = Py.lower name2)) as [E | E];
      [assumption | exfalso].
    destruct (sequence_similarity_bounds (Py.lower name1) (Py.lower name2))
      as [_ Hlt].
    specialize (Hlt E).
    destruct (decide (words (Py.lower name1) = ∅)) as [W1 | W1].
    { rewrite H3 in Hone by auto. rewrite Hone in Hlt. by apply Qlt_irrefl in Hlt. }
    destruct (decide (words (Py.lower name2) = ∅)) as [W2 | W2].
    { rewrite H3 in Hone by auto. rewrite Hone in Hlt. by apply Qlt_irrefl in Hlt. }
    rewrite H2 in Hone by assumption.
    destruct (word_overlap_bounds (words (Py.lower name1))
                                  (words (Py.lower name2))) as [_ Hw].
    lra.
  - intros E. by rewrite H1.
Qed.

Lemma text_similarity_sym_if (name1 name2 : string) :
  (sequence_similarity (Py.lower name1) (Py.lower name2)
   == sequence_similarity (Py.lower name2) (Py.lower name1))%Q ->
  (text_similarity name1 name2 == text_similarity name2 name1)%Q.
Proof.
  intros Hseq. unfold text_similarity.
  rewrite (String.eqb_sym (Py.lower name2) (Py.lower name1)).
  destruct (String.eqb (Py.lower name1) (Py.lower name2)); [reflexivity |].
  rewrite (andb_comm (negb (bool_decide (words (Py.lower name2) = ∅)))).
  destruct (_ && _); [| exact Hseq].
  rewrite (word_overlap_comm (words (Py.lower name2))). by rewrite Hseq.
Qed.

(** C9 (as amended).  The score of two names is 1 exactly when their
    lowercased forms are identical, and the score does not depend on the
    order of the two names whenever the sequence similarity of the
    lowercased names does not. *)
Theorem text_similarity_one_and_symmetry (name1 name2 : string) :
  ((text_similarity name1 name2 == 1)%Q
   <-> Py.lower name1 = Py.lower name2)
  /\ ((sequence_similarity (Py.lower name1) (Py.lower name2)
       == sequence_similarity (Py.lower name2) (Py.lower name1))%Q ->
      (text_similarity name1 name2 == text_similarity name2 name1)%Q).
Proof.
  split; [apply text_similarity_one | apply text_similarity_sym_if].
Qed.

(** C9 (the claim as stated fails).  The matcher finds one common
    character from "tide" to "diet" and two from "diet" to "tide": the
    scores are 3/20 and 3/10. *)
Lemma text_similarity_not_symmetric :
  ~ (text_similarity "tide" "diet" == text_similarity "diet" "tide")%Q.
Proof. intros H. vm_compute in H. discriminate. Qed.
(** ** The alignment list *)



Lemma elem_of_dict_set {K V} `{EqDecision K} (k : K) (v : V)
    (d : list (K * V)) (kv : K * V) :
  kv ∈ Dict.set k v d -> kv ∈ d \/ kv.2 = v.
Proof.
  induction d as [| [k' v'] d IH]; simpl.
  - intros H. apply list_elem_of_singleton in H as ->. by right.
  - case_decide.
    + intros H'. apply elem_of_cons in H' as [-> | H']; [by right |].
      left. by apply list_elem_of_further.
    + intros H'. apply elem_of_cons in H' as [-> | H'].
      * left. apply list_elem_of_here.
      * destruct (IH H'); [left; by apply list_elem_of_further | by right].
Qed.




End RelationAlignmentFacts.

(* ===================================================================== *)
(** * Properties of the relation alignment on the files *)
(* ===================================================================== *)

Module RelationAlignment64Facts.

Import SpecFloat PrimFloat Tsv Decomposition RelationAlignment64.
Local Open Scope string_scope.
Local Open Scope list_scope.

(** ** The order of the floats *)

Lemma SFltb_irrefl (x : spec_float) : SFltb x x = false.
Proof.
  unfold SFltb, SFcompare. destruct x as [[] | [] | | [] m e]; try reflexivity.
  - rewrite Z.compare_refl.
    change (Pos.compare_cont Eq m m) with (Pos.compare m m).
    by rewrite Pos.compare_refl.
  - rewrite Z.compare_refl.
    change (Pos.compare_cont Eq m m) with (Pos.compare m m).
    by rewrite Pos.compare_refl.
Qed.

Lemma SFltb_trans (x y z : spec_float) :
  SFltb x y = true -> SFltb y z = true -> SFltb x z = true.
Proof.
  unfold SFltb, SFcompare.
  destruct x as [[] | [] | | [] m1 e1], y as [[] | [] | | [] m2 e2],
           z as [[] | [] | | [] m3 e3];
    try discriminate; try reflexivity;
    change (Pos.compare_cont Eq) with Pos.compare;
    destruct (Z.compare_spec e1 e2), (Z.compare_spec e2 e3),
             (Z.compare_spec e1 e3);
    try discriminate; try reflexivity; try lia;
    destruct (Pos.compare_spec m1 m2), (Pos.compare_spec m2 m3),
             (Pos.compare_spec m1 m3);
    simpl; try discriminate; try reflexivity; lia.
Qed.

Lemma ltb_irrefl (x : float) : (x <? x)%float = false.
Proof. rewrite FloatAxioms.ltb_spec. apply SFltb_irrefl. Qed.

Lemma ltb_trans (x y z : float) :
  (x <? y)%float = true -> (y <? z)%float = true -> (x <? z)%float = true.
Proof. rewrite !FloatAxioms.ltb_spec. apply SFltb_trans. Qed.

Lemma SFleb_not_SFltb (x y : spec_float) :
  SFleb x y = true -> SFltb y x = false.
Proof.
  unfold SFleb, SFltb, SFcompare.
  destruct x as [[] | [] | | [] m1 e1], y as [[] | [] | | [] m2 e2];
    try discriminate; try reflexivity;
    change (Pos.compare_cont Eq) with Pos.compare;
    rewrite (Z.compare_antisym e1 e2), (Pos.compare_antisym m1 m2);
    destruct (e1 ?= e2)%Z, (m1 ?= m2)%positive;
    simpl; try discriminate; reflexivity.
Qed.

(** What passes the test [y >= x] is not below [x]. *)
Lemma leb_not_ltb (x y : float) :
  (x <=? y)%float = true -> (y <? x)%float = false.
Proof.
  rewrite FloatAxioms.leb_spec, FloatAxioms.ltb_spec. apply SFleb_not_SFltb.
Qed.

(** What is not below [s] stays so when it is replaced by something
    higher. *)
Lemma not_below_grows (x y s : float) :
  (x <? s)%float = false -> (x <? y)%float = true -> (y <? s)%float = false.
Proof.
  intros Hxs Hxy. destruct (y <? s)%float eqn:Hys; [| reflexivity].
  by rewrite (ltb_trans _ _ _ Hxy Hys) in Hxs.
Qed.

(** ** The score of two names *)

(** The three cases of [text_similarity]. *)
Lemma text_similarity_by_cases (name1 name2 : string) :
  let l1 := Py.lower name1 in
  let l2 := Py.lower name2 in
  (l1 = l2 -> text_similarity name1 name2 = 1%float)
  /\ (l1 <> l2 -> RelationAlignment.words l1 <> ∅ ->
      RelationAlignment.words l2 <> ∅ ->
      text_similarity name1 name2
      = (0.6 * sequence_similarity l1 l2
         + 0.4 * word_overlap (RelationAlignment.words l1)
                              (RelationAlignment.words l2))%float)
  /\ (l1 <> l2 ->
      RelationAlignment.words l1 = ∅ \/ RelationAlignment.words l2 = ∅ ->
      text_similarity name1 name2 = sequence_similarity l1 l2).
Proof.
  intros l1 l2. unfold text_similarity. fold l1 l2.
  destruct (String.eqb_spec l1 l2) as [E | E].
  - split; [done |]. split; intros; done.
  - split; [done |]. split.
    + intros _ H1 H2. by rewrite !bool_decide_eq_false_2.
    + intros _ [H | H].
      * by rewrite (bool_decide_eq_true_2 _ H).
      * rewrite (bool_decide_eq_true_2 _ H). by rewrite andb_false_r.
Qed.

(** ** The alignment list *)

Lemma insert_desc_elem (x y : alignment) (l : list alignment) :
  y ∈ insert_desc x l <-> y = x \/ y ∈ l.
Proof.
  induction l as [| z l IH]; simpl.
  - rewrite list_elem_of_singleton, elem_of_nil. tauto.
  - destruct (al_score z <=? al_score x)%float.
    + by rewrite elem_of_cons.
    + rewrite !elem_of_cons, IH. tauto.
Qed.

Lemma sort_desc_elem (y : alignment) (l : list alignment) :
  y ∈ sort_desc l <-> y ∈ l.
Proof.
  unfold sort_desc. induction l as [| x l IH]; simpl; [reflexivity |].
  by rewrite insert_desc_elem, elem_of_cons, IH.
Qed.

Lemma dict_set_elem {K V} `{EqDecision K} (k : K) (v : V)
    (d : list (K * V)) (kv : K * V) :
  kv ∈ Dict.set k v d -> kv ∈ d \/ kv = (k, v).
Proof.
  induction d as [| [k' v'] d IH]; simpl.
  - intros H. apply list_elem_of_singleton in H as ->. by right.
  - case_decide as E.
    + intros H'. apply elem_of_cons in H' as [-> | H']; [right; by rewrite E |].
      left. by apply list_elem_of_further.
    + intros H'. apply elem_of_cons in H' as [-> | H'].
      * left. apply list_elem_of_here.
      * destruct (IH H'); [left; by apply list_elem_of_further | by right].
Qed.

Lemma dict_get_of_set {K V} `{EqDecision K} (k k' : K) (v : V)
    (d : list (K * V)) :
  Dict.get k' (Dict.set k v d)
  = if decide (k' = k) then Some v else Dict.get k' d.
Proof.
  induction d as [| [k0 v0] d IH]; simpl.
  - destruct (decide (k' = k)); reflexivity.
  - destruct (decide (k = k0)) as [-> | Hne]; simpl.
    + destruct (decide (k' = k0)); reflexivity.
    + destruct (decide (k' = k0)) as [-> | Hne'].
      * by rewrite decide_False by congruence.
      * exact IH.
Qed.

Lemma dict_get_in {K V} `{EqDecision K} (k : K) (v : V) (d : list (K * V)) :
  Dict.get k d = Some v -> (k, v) ∈ d.
Proof.
  induction d as [| [k0 v0] d IH]; simpl; [discriminate |].
  destruct (decide (k = k0)) as [-> | Hne].
  - intros [= ->]. apply list_elem_of_here.
  - intros H. by apply list_elem_of_further, IH.
Qed.

(** The merged dict holds, under their keys, only alignments that were put
    in. *)
Lemma merged_from (l : list alignment) (d : list (Z * Z * alignment))
    (kv : Z * Z * alignment) :
  kv ∈ foldl merge_alignment d l ->
  kv ∈ d \/ (kv.2 ∈ l /\ kv.1 = al_key kv.2).
Proof.
  revert d. induction l as [| x l IH]; intros d; simpl; [by left |].
  intros H. apply IH in H as [H | [H E]];
    [| right; split; [by apply list_elem_of_further | exact E]].
  unfold merge_alignment in H.
  assert (Hset : kv ∈ Dict.set (al_kg1 x, al_kg2 x) x d ->
                 kv ∈ d \/ (kv.2 ∈ x :: l /\ kv.1 = al_key kv.2)).
  { intros H'. apply dict_set_elem in H' as [H' | ->]; [by left |].
    right. split; [apply list_elem_of_here | reflexivity]. }
  destruct (Dict.get _ d) as [old |]; [| by apply Hset].
  destruct (al_score old <? al_score x)%float; [by apply Hset | by left].
Qed.

Lemma merge_alignment_lookup (d : list (Z * Z * alignment)) (x : alignment)
    (k : Z * Z) :
  Dict.get k (merge_alignment d x)
  = if decide (k = al_key x) then
      match Dict.get k d with
      | None => Some x
      | Some old =>
          if (al_score old <? al_score x)%float then Some x else Some old
      end
    else Dict.get k d.
Proof.
  unfold merge_alignment. fold (al_key x).
  destruct (decide (k = al_key x)) as [-> | Hne].
  - destruct (Dict.get (al_key x) d) as [old |] eqn:G.
    + destruct (al_score old <? al_score x)%float; [| exact G].
      by rewrite dict_get_of_set, decide_True.
    + by rewrite dict_get_of_set, decide_True.
  - destruct (Dict.get (al_key x) d) as [old |];
      [destruct (_ <? _)%float; [| reflexivity] |];
      by rewrite dict_get_of_set, decide_False.
Qed.

(** An entry that is not below [s] is followed only by entries that are
    not below [s]. *)
Lemma merged_stays_not_below (l : list alignment)
    (d : list (Z * Z * alignment)) (k : Z * Z) (y : alignment) (s : float) :
  Dict.get k d = Some y -> (al_score y <? s)%float = false ->
  exists y', Dict.get k (foldl merge_alignment d l) = Some y'
             /\ (al_score y' <? s)%float = false.
Proof.
  revert d y. induction l as [| x l IH]; intros d y Hy Hs; simpl.
  - by exists y.
  - pose proof (merge_alignment_lookup d x k) as Hg. rewrite Hy in Hg.
    destruct (decide (k = al_key x)) as [-> | Hne].
    + destruct (al_score y <? al_score x)%float eqn:Hlt.
      * apply (IH _ _ Hg). by apply (not_below_grows (al_score y)).
      * by apply (IH _ _ Hg).
    + by apply (IH _ _ Hg).
Qed.

(** After the merge the entry of a key is not below any candidate of the
    key. *)
Lemma merged_not_below (l : list alignment) (d : list (Z * Z * alignment))
    (x : alignment) :
  x ∈ l ->
  exists y, Dict.get (al_key x) (foldl merge_alignment d l) = Some y
            /\ (al_score y <? al_score x)%float = false.
Proof.
  revert d. induction l as [| x0 l IH]; intros d Hx;
    [by apply elem_of_nil in Hx |].
  apply elem_of_cons in Hx as [<- | Hx]; [| by apply IH].
  simpl. pose proof (merge_alignment_lookup d x (al_key x)) as Hg.
  rewrite decide_True in Hg by reflexivity.
  destruct (Dict.get (al_key x) d) as [old |] eqn:G.
  - destruct (al_score old <? al_score x)%float eqn:Hlt.
    + apply (merged_stays_not_below l _ _ _ _ Hg). apply ltb_irrefl.
    + by apply (merged_stays_not_below l _ _ _ _ Hg).
  - apply (merged_stays_not_below l _ _ _ _ Hg). apply ltb_irrefl.
Qed.

Lemma text_alignments_elem (kg1_relations kg2_relations : list (Z * string))
    (threshold : float) (x : alignment) :
  x ∈ text_alignments kg1_relations kg2_relations threshold
  <-> exists r1 r2 name1 name2,
        (r1, name1) ∈ kg1_relations /\ (r2, name2) ∈ kg2_relations
        /\ (threshold <=? text_similarity name1 name2)%float = true
        /\ x = mk_alignment r1 r2 (text_similarity name1 name2)
                            "text_similarity".
Proof.
  unfold text_alignments. rewrite sort_desc_elem.
  rewrite list_elem_of_In, in_flat_map. split.
  - intros ([r1 n1] & H1 & H).
    apply in_flat_map in H as ([r2 n2] & H2 & H). simpl in H.
    destruct (threshold <=? text_similarity n1 n2)%float eqn:Hth;
      [| by destruct H].
    destruct H as [<- | []]. exists r1, r2, n1, n2.
    by rewrite !list_elem_of_In.
  - intros (r1 & r2 & n1 & n2 & H1 & H2 & Hth & ->).
    exists (r1, n1). split; [by apply list_elem_of_In |].
    apply in_flat_map. exists (r2, n2).
    split; [by apply list_elem_of_In |]. cbn [fst snd]. rewrite Hth.
    by left.
Qed.

Lemma cooccurrence_part_method (w : data_dir) (l : list alignment)
    (x : alignment) :
  cooccurrence_part w = Some l -> x ∈ l -> al_method x = "cooccurrence".
Proof.
  unfold cooccurrence_part.
  destruct (load_entity_pairs _) as [[| p ps] |]; [| | discriminate].
  { intros [= <-] H. by apply elem_of_nil in H. }
  destruct (load_triples (triples_1 w)) as [t1 |]; [| discriminate].
  destruct (load_triples (triples_2 w)) as [t2 |]; [| discriminate].
  destruct t1 as [| a t1]; [intros [= <-] H; by apply elem_of_nil in H |].
  destruct t2 as [| b t2]; [intros [= <-] H; by apply elem_of_nil in H |].
  intros [= <-]. unfold cooccurrence_alignments. rewrite list_elem_of_fmap.
  by intros (kc & -> & _).
Qed.

(** What [find_relation_alignments] returns when it returns: the dicts of
    the two relation files, and the list made of the text candidates and
    the co-occurrence candidates. *)
Lemma find_relation_alignments_returns (int_of : string -> field)
    (w : data_dir) (use_cooccurrence : bool) (threshold : float)
    (out : list alignment) :
  find_relation_alignments int_of w use_cooccurrence threshold = Some out ->
  exists kg1_relations kg2_relations,
    load_relations int_of (rel_ids_1 w) = Some kg1_relations
    /\ load_relations int_of (rel_ids_2 w) = Some kg2_relations
    /\ ((kg1_relations = [] \/ kg2_relations = []) /\ out = []
        \/ kg1_relations <> [] /\ kg2_relations <> []
           /\ exists cooccurrence,
                (if use_cooccurrence then cooccurrence_part w else Some [])
                = Some cooccurrence
                /\ out = final_alignments
                           (text_alignments kg1_relations kg2_relations
                                            threshold ++ cooccurrence)).
Proof.
  unfold find_relation_alignments.
  destruct (load_relations int_of (rel_ids_1 w)) as [k1 |]; [| discriminate].
  destruct (load_relations int_of (rel_ids_2 w)) as [k2 |]; [| discriminate].
  intros H. exists k1, k2. split; [reflexivity |]. split; [reflexivity |].
  destruct k1 as [| a k1]; [injection H as <-; left; split; [by left | done] |].
  destruct k2 as [| b k2]; [injection H as <-; left; split; [by right | done] |].
  right. split; [discriminate |]. split; [discriminate |].
  destruct (if use_cooccurrence then cooccurrence_part w else Some [])
    as [c |]; [| discriminate].
  injection H as <-. by exists c.
Qed.

(** C8.  The score is 1.0 for names equal up to case; otherwise, when both
    token sets are non-empty after the stop words are removed, it is
    [0.6 * similarity + 0.4 * word_overlap], computed in binary64, of the
    sequence similarity of the lowercased names and the Jaccard similarity
    of the token sets; when one of the token sets is empty it is the
    sequence similarity alone.  When [find_relation_alignments] returns,
    every entry of the text method has a score that is the text similarity
    of the names of its two relations in the relation files, passes the
    test [similarity >= text_sim_threshold] and is not below the
    threshold. *)
Theorem text_similarity_score_and_threshold (int_of : string -> field)
    (name1 name2 : string) (w : data_dir) (use_cooccurrence : bool)
    (threshold : float) :
  let l1 := Py.lower name1 in
  let l2 := Py.lower name2 in
  let words1 := RelationAlignment.words l1 in
  let words2 := RelationAlignment.words l2 in
  let jaccard :=
    (of_nat (size (words1 ∩ words2)) / of_nat (size (words1 ∪ words2)))%float in
  (l1 = l2 -> text_similarity name1 name2 = 1%float)
  /\ (l1 <> l2 -> words1 <> ∅ -> words2 <> ∅ ->
      text_similarity name1 name2
      = (0.6 * sequence_similarity l1 l2 + 0.4 * jaccard)%float)
  /\ (l1 <> l2 -> words1 = ∅ \/ words2 = ∅ ->
      text_similarity name1 name2 = sequence_similarity l1 l2)
  /\ (forall out x,
        find_relation_alignments int_of w use_cooccurrence threshold
        = Some out ->
        x ∈ out -> al_method x = "text_similarity" ->
        (threshold <=? al_score x)%float = true
        /\ (al_score x <? threshold)%float = false
        /\ exists kg1_relations kg2_relations n1 n2,
             load_relations int_of (rel_ids_1 w) = Some kg1_relations
             /\ load_relations int_of (rel_ids_2 w) = Some kg2_relations
             /\ (al_kg1 x, n1) ∈ kg1_relations
             /\ (al_kg2 x, n2) ∈ kg2_relations
             /\ al_score x = text_similarity n1 n2).
Proof.
  intros l1 l2 words1 words2 jaccard.
  destruct (text_similarity_by_cases name1 name2) as (H1 & H2 & H3).
  split; [exact H1 |]. split; [| split; [exact H3 |]].
  - intros Hne W1 W2. rewrite (H2 Hne W1 W2). unfold word_overlap.
    rewrite decide_False; [reflexivity |]. fold l1 l2 words1 words2.
    set_solver.
  - intros out x Hout Hx Hm.
    apply find_relation_alignments_returns in Hout
      as (k1 & k2 & L1 & L2 & [[_ ->] | (_ & _ & c & Hc & ->)]);
      [by apply elem_of_nil in Hx |].
    unfold final_alignments in Hx.
    rewrite sort_desc_elem, list_elem_of_fmap in Hx.
    destruct Hx as (kv & -> & Hkv).
    apply merged_from in Hkv as [Hkv | [Hkv _]];
      [by apply elem_of_nil in Hkv |].
    apply elem_of_app in Hkv as [Hkv | Hkv].
    + apply text_alignments_elem in Hkv
        as (r1 & r2 & n1 & n2 & R1 & R2 & Hth & ->).
      split; [exact Hth |]. split; [by apply leb_not_ltb |].
      by exists k1, k2, n1, n2.
    + exfalso. destruct use_cooccurrence.
      * apply (cooccurrence_part_method _ _ _ Hc) in Hkv. congruence.
      * injection Hc as <-. by apply elem_of_nil in Hkv.
Qed.

(** C8 (the claim as stated fails).  For "of" and "off" the first token set
    is empty once the stop word is removed: the code returns the sequence
    similarity 0.8, the formula of the claim gives 0.48. *)
Lemma text_similarity_is_not_the_formula :
  text_similarity "of" "off" <> spec_text_similarity "of" "off".
Proof.
  intros H. apply (f_equal (fun s => (0.5 <? s)%float)) in H.
  vm_compute in H. discriminate.
Qed.

(** The rounding decides at the threshold of the pipeline: for "head" and
    "headings" the ratio is 8/12 and no token is shared, and
    [0.6 * (2.0 * 4 / 12) + 0.4 * (0 / 2)] is 0.39999999999999997 in
    binary64, below 0.4.  The pair is dropped at the threshold 0.4 and kept
    at 0.3. *)
Lemma head_and_headings :
  text_similarity "head" "headings" = 0.39999999999999997%float
  /\ (0.4 <=? text_similarity "head" "headings")%float = false
  /\ find_relation_alignments int_of_digits (two_relations "head" "headings")
                              true 0.4
     = Some []
  /\ find_relation_alignments int_of_digits (two_relations "head" "headings")
                              true 0.3
     = Some [mk_alignment 1 2 0.39999999999999997 "text_similarity"].
Proof. repeat split; vm_compute; reflexivity. Qed.

(** X19.  When [find_relation_alignments] returns, two relations of the
    relation files whose names pass the test
    [similarity >= text_sim_threshold] have an entry in the returned list,
    and the score of the entry is not below their similarity. *)
Theorem similar_relations_are_aligned (int_of : string -> field)
    (w : data_dir) (use_cooccurrence : bool) (threshold : float)
    (kg1_relations kg2_relations : list (Z * string)) (out : list alignment)
    (r1 r2 : Z) (name1 name2 : string) :
  load_relations int_of (rel_ids_1 w) = Some kg1_relations ->
  load_relations int_of (rel_ids_2 w) = Some kg2_relations ->
  find_relation_alignments int_of w use_cooccurrence threshold = Some out ->
  (r1, name1) ∈ kg1_relations -> (r2, name2) ∈ kg2_relations ->
  (threshold <=? text_similarity name1 name2)%float = true ->
  exists x,
    x ∈ out /\ al_key x = (r1, r2)
    /\ (al_score x <? text_similarity name1 name2)%float = false.
Proof.
  intros L1 L2 Hout H1 H2 Hth.
  apply find_relation_alignments_returns in Hout
    as (k1 & k2 & L1' & L2' & Hout).
  rewrite L1 in L1'. rewrite L2 in L2'.
  injection L1' as <-. injection L2' as <-.
  destruct Hout as [[[-> | ->] _] | (_ & _ & c & _ & ->)];
    [by apply elem_of_nil in H1 | by apply elem_of_nil in H2 |].
  set (alignments := text_alignments kg1_relations kg2_relations threshold ++ c).
  set (cand := mk_alignment r1 r2 (text_similarity name1 name2)
                            "text_similarity").
  assert (Hin : cand ∈ alignments).
  { apply elem_of_app. left. apply text_alignments_elem.
    by exists r1, r2, name1, name2. }
  destruct (merged_not_below alignments [] cand Hin) as (y & Hy & Hs).
  apply dict_get_in in Hy. pose proof Hy as Hk.
  apply merged_from in Hk as [Hk | [_ Hk]]; [by apply elem_of_nil in Hk |].
  exists y. split; [| split].
  - unfold final_alignments. rewrite sort_desc_elem.
    apply list_elem_of_fmap. by exists (al_key cand, y).
  - cbn [fst snd] in Hk. by rewrite <- Hk.
  - exact Hs.
Qed.

(** The relations [member of] and [is member of] score 0.7142857142857142,
    above the threshold 0.4 of the pipeline. *)
Lemma similar_relations_are_aligned_witness :
  exists x,
    x ∈ [mk_alignment 1 2 0.71428571428571419 "text_similarity"]
    /\ al_key x = (1%Z, 2%Z)
    /\ (al_score x <? text_similarity "member of" "is member of")%float
       = false.
Proof.
  apply (similar_relations_are_aligned int_of_digits
           (two_relations "member of" "is member of") true 0.4
           [(1%Z, "member of")] [(2%Z, "is member of")]
           [mk_alignment 1 2 0.71428571428571419 "text_similarity"]
           1%Z 2%Z "member of" "is member of").
  - vm_compute. reflexivity.
  - vm_compute. reflexivity.
  - vm_compute. reflexivity.
  - apply list_elem_of_here.
  - apply list_elem_of_here.
  - vm_compute. reflexivity.
Defined.

End RelationAlignment64Facts.

(* ===================================================================== *)
(** * More on the fusion results and the supervision merge *)
(* ===================================================================== *)

Module FusionMore.

Import Tsv Fusion FusionFacts.
Local Open Scope string_scope.
Local Open Scope list_scope.

Lemma omap_parse_written (l : list (Z * Z)) :
  omap parse_pair (map line_of_pair l) = l.
Proof.
  induction l as [| [a b] l IH]; [reflexivity |]. cbn. f_equal. exact IH.
Qed.

(** X1.  [deduplicate_output_file]: a missing file gives the empty set and
    stays missing; otherwise the set is that of the well-formed pairs of the
    file, the file is rewritten with exactly these pairs in strictly ascending
    order, and deduplicating the rewritten file changes nothing. *)
Theorem deduplicate_output_file_spec (lines : list line) :
  let r := deduplicate_output_file (Some lines) in
  deduplicate_output_file None = (∅, None)
  /\ (forall p, p ∈ r.1 <-> exists l, l ∈ lines /\ parse_pair l = Some p)
  /\ (exists written,
        r.2 = Some (map line_of_pair written)
        /\ StronglySorted key_lt written
        /\ forall p, p ∈ written <-> p ∈ r.1)
  /\ deduplicate_output_file r.2 = r.
Proof.
  intros r. split; [reflexivity |].
  set (s := list_to_set (omap parse_pair lines) : gset (Z * Z)).
  assert (Hr : r = (s, Some (map line_of_pair (sorted_pairs s)))) by reflexivity.
  destruct (sorted_pairs_spec s) as [Hsorted Hmem].
  rewrite Hr. cbn [fst snd]. split; [| split].
  - intros p. unfold s. by rewrite elem_of_list_to_set, list_elem_of_omap.
  - exists (sorted_pairs s). split; [reflexivity |]. by split.
  - unfold deduplicate_output_file. rewrite omap_parse_written.
    assert (list_to_set (sorted_pairs s) = s) as ->; [| reflexivity].
    apply set_eq. intros p. by rewrite elem_of_list_to_set.
Qed.

(** A pair that the filter turns down is turned down again after the
    merge, and an accepted pair is in the file afterwards. *)
Lemma second_filter_empty (fs : files) (aligned_pairs : list (Z * Z)) :
  List.filter
    (eligible (load_sup_pairs
                 (sup_pairs_file (add_to_sup_pairs fs aligned_pairs).2)))
    aligned_pairs = [].
Proof.
  apply ListAux.filter_none. intros p Hp. apply list_elem_of_In in Hp.
  apply not_true_is_false. intros He.
  assert (Hin' : p ∈ List.filter
                   (eligible (load_sup_pairs
                      (sup_pairs_file (add_to_sup_pairs fs aligned_pairs).2)))
                   aligned_pairs).
  { apply list_elem_of_In, filter_In. split; [by apply list_elem_of_In | done]. }
  apply accepted_iff in Hin' as (_ & H1 & H2 & H3).
  assert (Hres := add_to_sup_pairs_unfold fs aligned_pairs). cbv zeta in Hres.
  destruct (List.filter (eligible (load_sup_pairs (sup_pairs_file fs)))
              aligned_pairs) as [| a accepted] eqn:E.
  - rewrite Hres in H1, H2, H3. cbn [snd] in *.
    assert (Hacc : p ∈ List.filter
                     (eligible (load_sup_pairs (sup_pairs_file fs)))
                     aligned_pairs) by (apply accepted_iff; auto).
    rewrite E in Hacc. by apply elem_of_nil in Hacc.
  - destruct (merge_written fs aligned_pairs) as [_ Hset]; [by rewrite E |].
    rewrite Hset, E in H1, H2, H3.
    destruct (decide (p ∈ a :: accepted)) as [Hacc | Hacc].
    + apply H3. apply elem_of_union. right. by apply elem_of_list_to_set.
    + apply Hacc. rewrite <- E. apply accepted_iff.
      split; [assumption |]. split; [| split].
      * intros k2 Hk. apply (H1 k2). apply elem_of_union. by left.
      * intros k1 Hk. apply (H2 k1). apply elem_of_union. by left.
      * intros Hk. apply H3. apply elem_of_union. by left.
Qed.

(** X2.  Merging the same batch a second time adds nothing: the second call
    returns 0 and leaves the files of the first call as they are. *)
Theorem add_to_sup_pairs_twice (fs : files) (aligned_pairs : list (Z * Z)) :
  add_to_sup_pairs (add_to_sup_pairs fs aligned_pairs).2 aligned_pairs
  = (0%nat, (add_to_sup_pairs fs aligned_pairs).2).
Proof.
  rewrite (add_to_sup_pairs_unfold (add_to_sup_pairs fs aligned_pairs).2).
  cbv zeta. by rewrite second_filter_empty.
Qed.

(** One merge only adds pairs of the batch. *)
Lemma merge_grows (fs : files) (aligned_pairs : list (Z * Z)) :
  supervision_set fs ⊆ supervision_set (add_to_sup_pairs fs aligned_pairs).2
  /\ forall p,
       p ∈ supervision_set (add_to_sup_pairs fs aligned_pairs).2 ->
       p ∈ supervision_set fs \/ p ∈ aligned_pairs.
Proof.
  assert (Hres := add_to_sup_pairs_unfold fs aligned_pairs). cbv zeta in Hres.
  destruct (List.filter (eligible (load_sup_pairs (sup_pairs_file fs)))
              aligned_pairs) as [| a accepted] eqn:E.
  - rewrite Hres. cbn [snd]. split; [done | by left].
  - destruct (merge_written fs aligned_pairs) as [_ ->]; [by rewrite E |].
    split; [set_solver |]. intros p Hp.
    apply elem_of_union in Hp as [Hp | Hp]; [by left | right].
    apply elem_of_list_to_set in Hp. apply accepted_iff in Hp. tauto.
Qed.

(** X3.  Over any sequence of merges the supervision set only grows, and every
    pair in it at the end was there at the start or comes from one of the
    batches. *)
Theorem merge_all_grows (batches : list (list (Z * Z))) (fs : files) :
  supervision_set fs ⊆ supervision_set (merge_all fs batches)
  /\ forall p,
       p ∈ supervision_set (merge_all fs batches) ->
       p ∈ supervision_set fs
       \/ exists batch, batch ∈ batches /\ p ∈ batch.
Proof.
  revert fs. induction batches as [| batch batches IH]; intros fs.
  - split; [done | by left].
  - change (merge_all fs (batch :: batches))
      with (merge_all (add_to_sup_pairs fs batch).2 batches).
    destruct (IH (add_to_sup_pairs fs batch).2) as [IH1 IH2].
    destruct (merge_grows fs batch) as [H1 H2].
    split; [set_solver |]. intros p Hp.
    destruct (IH2 p Hp) as [Hq | (b & Hb & Hq)].
    + destruct (H2 p Hq) as [? | ?]; [by left |].
      right. exists batch. split; [apply list_elem_of_here | assumption].
    + right. exists b. split; [by apply list_elem_of_further | assumption].
Qed.

(** X4.  A sequence of merges keeps the supervision set one-to-one when it is
    so at the start and no batch proposes an id twice. *)
Theorem merge_all_keeps_one_to_one (batches : list (list (Z * Z)))
    (fs : files) :
  one_to_one (supervision_set fs) ->
  Forall (fun batch => one_to_one (list_to_set batch)) batches ->
  one_to_one (supervision_set (merge_all fs batches)).
Proof.
  revert fs. induction batches as [| batch batches IH]; intros fs Hfs Hb.
  - exact Hfs.
  - apply Forall_cons in Hb as [Hbatch Hb].
    change (merge_all fs (batch :: batches))
      with (merge_all (add_to_sup_pairs fs batch).2 batches).
    apply IH; [| exact Hb]. by apply merge_keeps_one_to_one.
Qed.

Lemma one_to_one_by_columns (l : list (Z * Z)) :
  NoDup (map fst l) -> NoDup (map snd l) ->
  one_to_one (list_to_set l).
Proof.
  intros H1 H2 p q Hp Hq Hpq. apply elem_of_list_to_set in Hp, Hq.
  induction l as [| x l IH]; [by apply elem_of_nil in Hp |].
  simpl in H1, H2. apply NoDup_cons in H1 as [Hx1 H1], H2 as [Hx2 H2].
  apply elem_of_cons in Hp as [-> | Hp], Hq as [-> | Hq].
  - reflexivity.
  - exfalso. destruct Hpq as [E | E].
    + apply Hx1. rewrite E. by apply list_elem_of_fmap_2.
    + apply Hx2. rewrite E. by apply list_elem_of_fmap_2.
  - exfalso. destruct Hpq as [E | E].
    + apply Hx1. rewrite <- E. by apply list_elem_of_fmap_2.
    + apply Hx2. rewrite <- E. by apply list_elem_of_fmap_2.
  - by apply IH.
Qed.

(** Two batches without a repeated id, merged into the file of (1,100). *)
Lemma merge_all_keeps_one_to_one_witness :
  one_to_one
    (supervision_set
       (merge_all example_files [[(2, 300); (3, 400)]; [(3, 500); (4, 300)]])).
Proof.
  apply (merge_all_keeps_one_to_one
           [[(2, 300); (3, 400)]; [(3, 500); (4, 300)]] example_files).
  - unfold supervision_set, example_files. cbn [sup_pairs_file].
    change [[Some 1; Some 100]] with (map line_of_pair [(1, 100)]).
    rewrite load_written. apply one_to_one_by_columns; simpl;
      apply NoDup_singleton.
  - apply Forall_cons_2; [| apply Forall_cons_2; [| apply Forall_nil_2]];
      apply one_to_one_by_columns; simpl;
      repeat (apply NoDup_cons; split; [set_solver |]); apply NoDup_nil_2.
Defined.

Section Broker.

Variable set_iter : gset Z -> list Z.
Variable oracle : Z -> gmap string (list Z) -> option string.

(** X5.  A task pairs its entity only with one of the entity's own candidates,
    and records nothing when the oracle call raises. *)
Theorem fusion_task_records_a_candidate (kg1_entity : Z)
    (candidate_info : gmap string (list Z)) :
  (forall s k, k ∈ set_iter s -> k ∈ s) ->
  (forall p,
     p ∈ fusion_task set_iter oracle kg1_entity candidate_info ->
     p.1 = kg1_entity
     /\ exists scale,
          scale ∈ IntraScale.scales
          /\ p.2 ∈ IntraScale.get_candidates candidate_info scale)
  /\ (oracle kg1_entity candidate_info = None ->
      fusion_task set_iter oracle kg1_entity candidate_info = []).
Proof.
  intros Hiter. split.
  - intros p Hp. apply fusion_task_pairs in Hp as (H1 & content & _ & Hparse).
    split; [exact H1 |]. apply elem_of_all_candidates, Hiter.
    apply parse_answer_first in Hparse as (_ & l1 & l2 & -> & _).
    set_solver.
  - intros Ho. unfold fusion_task. rewrite Ho. by case_decide.
Qed.

End Broker.

(** The candidate 300 of L2 is recorded for entity 1. *)
Lemma fusion_task_records_a_candidate_witness :
  (1, 300).1 = 1
  /\ exists scale,
       scale ∈ IntraScale.scales
       /\ (1, 300).2 ∈ IntraScale.get_candidates
                         (IntraScale.example_candidates [100] [300; 100] [])
                         scale.
Proof.
  apply (proj1 (fusion_task_records_a_candidate elements
                  (fun _ _ => Some "300") 1
                  (IntraScale.example_candidates [100] [300; 100] [])
                  (fun s k => proj1 (elem_of_elements s k)))
               (1, 300)).
  vm_compute. apply list_elem_of_here.
Defined.

End FusionMore.

(* ===================================================================== *)
(** * More on the iteration controller *)
(* ===================================================================== *)

Module PipelineMore.

Import Tsv Pipeline PipelineTrace PipelineFacts.
Local Open Scope Z_scope.

(** ** The count of distinct KG1 ids *)

Lemma size_ids_le (ids : list Z) :
  (size (list_to_set ids : gset Z) <= length ids)%nat.
Proof.
  induction ids as [| k ids IH].
  - rewrite list_to_set_nil, size_empty. simpl. lia.
  - rewrite list_to_set_cons, size_union_alt, size_singleton. cbn [length].
    assert (size ((list_to_set ids : gset Z) ∖ {[k]})
            <= size (list_to_set ids : gset Z))%nat
      by (apply subseteq_size; set_solver).
    lia.
Qed.

Lemma length_omap_le {A B} (f : A -> option B) (l : list A) :
  (length (omap f l) <= length l)%nat.
Proof.
  induction l as [| x l IH]; csimpl; [lia |].
  destruct (f x); csimpl; lia.
Qed.

(** X6.  [count_unique_kg1_entities]: a missing file counts 0; the count is at
    most the number of lines; one more line leaves the count as it is when the
    line is too short, when its first field is no integer, or when its id was
    met before, and raises it by one otherwise. *)
Theorem count_unique_kg1_entities_by_line (lines : list line) (l : line) :
  let n := count_unique_kg1_entities (Some lines) in
  let n' := count_unique_kg1_entities (Some (lines ++ [l])) in
  count_unique_kg1_entities None = 0
  /\ 0 <= n <= Z.of_nat (length lines)
  /\ (kg1_of_line l = None -> n' = n)
  /\ (forall k, kg1_of_line l = Some k ->
        (exists l0, l0 ∈ lines /\ kg1_of_line l0 = Some k) -> n' = n)
  /\ (forall k, kg1_of_line l = Some k ->
        (forall l0, l0 ∈ lines -> kg1_of_line l0 <> Some k) -> n' = n + 1).
Proof.
  intros n n'. subst n n'. unfold count_unique_kg1_entities.
  split; [reflexivity |]. split.
  { pose proof (size_ids_le (omap kg1_of_line lines)).
    pose proof (length_omap_le kg1_of_line lines). lia. }
  rewrite omap_app. simpl.
  split; [| split].
  - intros ->. simpl. by rewrite app_nil_r.
  - intros k -> (l0 & Hl0 & Hk). simpl.
    f_equal. f_equal. apply set_eq. intros x.
    rewrite !elem_of_list_to_set, elem_of_app, list_elem_of_singleton.
    split; [| by left]. intros [? | ->]; [assumption |].
    apply list_elem_of_omap. by exists l0.
  - intros k -> Hnew. simpl.
    rewrite list_to_set_app_L. simpl.
    rewrite size_union.
    + rewrite union_empty_r_L, size_singleton. lia.
    + apply elem_of_disjoint. intros x Hx Hx'.
      rewrite union_empty_r_L in Hx'. apply elem_of_singleton in Hx'. subst x.
      apply elem_of_list_to_set, list_elem_of_omap in Hx as (l0 & Hl0 & Hk).
      by apply (Hnew l0).
Qed.

Section Controller.

Context {world : Type} (env : stages world) (opt : options).

(** ** What one pass through the body adds to the trace *)

Ltac event_order :=
  repeat match goal with
         | |- StronglySorted _ _ => constructor
         | |- Forall _ _ => constructor
         | |- event_lt _ _ => right; simpl; lia
         end.

Ltac event_members :=
  repeat match goal with
         | H : _ ∈ [] |- _ => by apply elem_of_nil in H
         | H : _ ∈ _ :: _ |- _ => apply elem_of_cons in H as [H | H]
         | H : _ = _ |- _ => first [discriminate H | subst]
         end.

Lemma body_events (st : loop_state world) :
  exists new,
    trace (state_of (body env opt st)) = trace st ++ new
    /\ iteration (state_of (body env opt st)) = iteration st + 1
    /\ iteration_events opt (iteration st + 1) new.
Proof.
  unfold body, s4_step, iteration_events.
  set (i := iteration st + 1).
  destruct (negb (skip_s4 opt));
    [destruct (check_s4_output env (current st) && (1 <? i));
     [| destruct (run_s4_training env (current st)) as [[|] w'];
        [| destruct (i =? 1)]]
    | destruct (negb (check_s4_output env (current st)));
      [destruct (i =? 1) |]];
    cbn [state_of trace iteration];
    try (exists []; split; [by rewrite app_nil_r |]; split; [reflexivity |];
         split; [constructor |]; split; [intros e He |
           split; intros He]; by apply elem_of_nil in He);
    try (exists [EvS4Training i]; split; [reflexivity |];
         split; [reflexivity |]; split; [event_order |];
         split; [intros e He | split; intros He]; by event_members).
  all: match goal with
       | |- context [count_unique_kg1_entities ?f] =>
           set (c := count_unique_kg1_entities f)
       end.
  all: destruct (Z.ltb_spec c (min_kg1_entities opt)) as [Hc | Hc];
    [| match goal with
       | |- context [run_s4_to_retrieval env ?j ?w] =>
           destruct (run_s4_to_retrieval env j w) as [[|] w2];
           [match goal with
            | |- context [run_multi_scale_fusion env ?w] =>
                destruct (run_multi_scale_fusion env w) as [[|] w3];
                [destruct (max_iterations opt <=? i) | destruct (i =? 1)]
            end
           | destruct (i =? 1)]
       end];
    cbn [negb state_of trace iteration].
  all: eexists; (split; [rewrite <- ?app_assoc; simpl; try reflexivity;
                         by rewrite ?app_nil_r |]).
  all: split; [reflexivity |].
  all: split; [event_order |].
  all: split; [intros e He; by event_members |].
  all: split; intros He; event_members.
  all: try (exists c; split; [set_solver | assumption]).
  all: set_solver.
Qed.

(** The body gives up only in the first iteration. *)
Lemma body_return (st st' : loop_state world) (b : bool) :
  body env opt st = Return b st' -> b = false /\ iteration st' = 1.
Proof.
  unfold body, s4_step.
  set (i := iteration st + 1).
  destruct (negb (skip_s4 opt));
    [destruct (check_s4_output env (current st) && (1 <? i));
     [| destruct (run_s4_training env (current st)) as [[|] w'];
        [| destruct (Z.eqb_spec i 1)]]
    | destruct (negb (check_s4_output env (current st)));
      [destruct (Z.eqb_spec i 1) |]];
    try (intros [= <- <-]; by split).
  all: destruct (_ <? min_kg1_entities opt); [discriminate |].
  all: match goal with
       | |- context [run_s4_to_retrieval env ?j ?w] =>
           destruct (run_s4_to_retrieval env j w) as [[|] w2];
           [match goal with
            | |- context [run_multi_scale_fusion env ?w] =>
                destruct (run_multi_scale_fusion env w) as [[|] w3];
                [destruct (max_iterations opt <=? i)
                | destruct (Z.eqb_spec i 1)]
            end
           | destruct (Z.eqb_spec i 1)]
       end; cbn [negb]; try discriminate; intros [= <- <-]; by split.
Qed.

Lemma body_ordered (st : loop_state world) :
  ordered_state opt st -> ordered_state opt (state_of (body env opt st)).
Proof.
  intros (H0 & Hsorted & Hbound & Hretr & Hfus).
  destruct (body_events st) as (new & Htr & Hit & Hnew & Hiter & Hr & Hf).
  unfold ordered_state. rewrite Htr, Hit.
  split; [lia |]. split; [| split; [| split]].
  - apply StronglySorted_app_2; [| assumption ..].
    intros e e' He He'. left.
    specialize (Hbound e He). specialize (Hiter e' He'). lia.
  - intros e [He | He]%elem_of_app.
    + specialize (Hbound e He). lia.
    + specialize (Hiter e He). lia.
  - intros i [He | He]%elem_of_app.
    + destruct (Hretr i He) as (c & Hc & Hmin).
      exists c. split; [apply elem_of_app; by left | assumption].
    + assert (i = iteration st + 1) as -> by apply (Hiter _ He).
      destruct (Hr He) as (c & Hc & Hmin).
      exists c. split; [apply elem_of_app; by right | assumption].
  - intros i [He | He]%elem_of_app; apply elem_of_app.
    + left. by apply Hfus.
    + assert (i = iteration st + 1) as -> by apply (Hiter _ He).
      right. by apply Hf.
Qed.

Lemma body_iteration (st : loop_state world) :
  iteration (state_of (body env opt st)) = iteration st + 1.
Proof. by destruct (body_events st) as (new & _ & -> & _). Qed.

Lemma loop_ordered (fuel : nat) (st : loop_state world) :
  ordered_state opt st -> ordered_state opt (loop env opt fuel st).2.
Proof.
  revert st. induction fuel as [| fuel IH]; intros st Hst; [exact Hst |].
  simpl. destruct (iteration st <? max_iterations opt); [| exact Hst].
  pose proof (body_ordered st Hst) as Hb.
  destruct (body env opt st) as [st' | st' | b st']; simpl in Hb;
    [by apply IH | exact Hb ..].
Qed.

Lemma loop_iteration_bound (fuel : nat) (st : loop_state world) :
  iteration st <= iteration (loop env opt fuel st).2
               <= Z.max (iteration st) (max_iterations opt).
Proof.
  revert st. induction fuel as [| fuel IH]; intros st; [simpl; lia |].
  simpl. destruct (Z.ltb_spec (iteration st) (max_iterations opt)) as [Hlt | Hge];
    [| simpl; lia].
  pose proof (body_iteration st) as Hi.
  destruct (body env opt st) as [st' | st' | b st']; simpl in Hi |- *;
    [specialize (IH st') |..]; lia.
Qed.

Lemma loop_failure (fuel : nat) (st : loop_state world) :
  (loop env opt fuel st).1 = false -> iteration (loop env opt fuel st).2 = 1.
Proof.
  revert st. induction fuel as [| fuel IH]; intros st; [discriminate |].
  simpl. destruct (iteration st <? max_iterations opt); [| discriminate].
  destruct (body env opt st) as [st' | st' | b st'] eqn:B;
    [apply IH | discriminate |].
  simpl. intros _. by apply body_return in B as [_ ?].
Qed.

Lemma run_ordered (w : world) :
  ordered_state opt (run_full_pipeline env opt w).2.
Proof.
  assert (Hstart : ordered_state opt (start w)).
  { unfold ordered_state, start. simpl.
    split; [lia |]. split; [constructor |].
    split; [| split]; intros ? H; by apply elem_of_nil in H. }
  unfold run_full_pipeline.
  destruct (negb (data_dir_exists env w)); [exact Hstart |].
  destruct (only_s4 opt); [| by apply loop_ordered].
  unfold run_only_s4.
  destruct (negb (skip_s4 opt)).
  - destruct (check_s4_output env (current (start w))); [exact Hstart |].
    destruct (run_s4_training env (current (start w))) as [ok w'].
    unfold ordered_state, start. simpl.
    split; [lia |]. split; [repeat constructor |].
    split; [| split]; intros ? H; apply list_elem_of_singleton in H;
      [subst; simpl; lia | discriminate ..].
  - destruct (negb (check_s4_output env (current (start w))));
      exact Hstart.
Qed.

End Controller.

(** X7.  Whatever the stages do, the trace of a run is in stage order: the
    events are strictly ascending by iteration and, within an iteration, in
    the order training, count, retrieval, fusion, so that no stage runs twice
    in an iteration; no event is ahead of the iteration counter; and the
    counter ends between 0 and [max_iterations]. *)
Theorem trace_in_stage_order {world : Type} (env : stages world)
    (opt : options) (w : world) :
  let final := (run_full_pipeline env opt w).2 in
  StronglySorted event_lt (trace final)
  /\ (forall e, e ∈ trace final -> 0 <= event_iteration e <= iteration final)
  /\ 0 <= iteration final <= Z.max 0 (max_iterations opt).
Proof.
  intros final.
  destruct (run_ordered env opt w) as (H0 & Hsorted & Hbound & _).
  split; [assumption |]. split; [assumption |].
  split; [assumption |]. subst final. unfold run_full_pipeline.
  destruct (negb (data_dir_exists env w)); [simpl; lia |].
  destruct (only_s4 opt).
  - unfold run_only_s4.
    destruct (negb (skip_s4 opt));
      [destruct (check_s4_output env _);
       [| destruct (run_s4_training env _)]
      | destruct (negb (check_s4_output env _))]; simpl; lia.
  - apply (loop_iteration_bound env opt _ (start w)).
Qed.

(** X8.  Retrieval runs in an iteration only after that iteration counted at
    least [min_kg1_entities] distinct KG1 ids, and fusion only after the
    retrieval of the same iteration. *)
Theorem retrieval_and_fusion_guards {world : Type} (env : stages world)
    (opt : options) (w : world) (i : Z) :
  let tr := trace (run_full_pipeline env opt w).2 in
  (EvRetrieval i ∈ tr ->
   exists c, EvCount i c ∈ tr /\ min_kg1_entities opt <= c)
  /\ (EvFusion i ∈ tr -> EvRetrieval i ∈ tr).
Proof.
  intros tr.
  destruct (run_ordered env opt w) as (_ & _ & _ & Hretr & Hfus).
  split; [apply Hretr | apply Hfus].
Qed.

(** X9.  The run fails only before the loop or in its first iteration: a stage
    that fails in a later iteration never makes the run fail. *)
Theorem failure_only_in_first_iteration {world : Type} (env : stages world)
    (opt : options) (w : world) :
  (run_full_pipeline env opt w).1 = false ->
  iteration (run_full_pipeline env opt w).2 <= 1.
Proof.
  unfold run_full_pipeline.
  destruct (negb (data_dir_exists env w)); [simpl; lia |].
  destruct (only_s4 opt).
  - unfold run_only_s4.
    destruct (negb (skip_s4 opt));
      [destruct (check_s4_output env _);
       [| destruct (run_s4_training env _)]
      | destruct (negb (check_s4_output env _))]; simpl; lia.
  - intros H. apply loop_failure in H. unfold run_loop. lia.
Qed.

(** Training fails in the first iteration of a run on an empty directory. *)
Lemma failure_only_in_first_iteration_witness :
  iteration
    (run_full_pipeline
       (mk_stages unit (fun _ => true) (fun _ => false) (fun _ => None)
                  (fun w => (false, w)) (fun _ w => (true, w))
                  (fun w => (true, w)))
       default_options tt).2 <= 1.
Proof.
  apply (failure_only_in_first_iteration
           (mk_stages unit (fun _ => true) (fun _ => false) (fun _ => None)
                      (fun w => (false, w)) (fun _ w => (true, w))
                      (fun w => (true, w)))
           default_options tt).
  vm_compute. reflexivity.
Defined.

End PipelineMore.

(* ===================================================================== *)
(** * More on the conflict reports *)
(* ===================================================================== *)

Module IntraScaleMore.

Import IntraScale IntraScaleFacts.
Local Open Scope string_scope.
Local Open Scope list_scope.
Local Open Scope nat_scope.

Lemma analyze_lookup_scale candidate_info ent_names_2 scale an :
  analyze_intra_scale_interaction candidate_info ent_names_2 !! scale = Some an ->
  scale ∈ scales.
Proof.
  unfold analyze_intra_scale_interaction, scales. simpl.
  rewrite !lookup_insert_Some, lookup_empty. set_solver.
Qed.

Lemma weak_iff_many (cands : list Z) :
  confidence_signal (analyze_scale cands) = "weak" <-> 3 < length cands.
Proof.
  unfold analyze_scale. simpl.
  destruct (Nat.eqb_spec (length cands) 1) as [E | E];
    [split; [discriminate | lia] |].
  destruct (Nat.leb_spec (length cands) 3) as [L | L];
    [split; [discriminate | lia] |].
  split; [intros _; lia | reflexivity].
Qed.

(** X10.  The scales [detect_intra_scale_conflicts] reports are exactly the
    scales that [analyze_intra_scale_interaction] labels weak, and they are
    reported in the order L1, L2, L3. *)
Theorem intra_scale_conflicts_are_the_weak_scales
    (candidate_info : gmap string (list Z)) (ent_names_2 : gmap Z string)
    (scale_analysis : gmap string analysis) :
  (forall scale,
     scale ∈ detect_intra_scale_conflicts candidate_info scale_analysis
     <-> exists an,
           analyze_intra_scale_interaction candidate_info ent_names_2 !! scale
           = Some an
           /\ confidence_signal an = "weak")
  /\ sublist (detect_intra_scale_conflicts candidate_info scale_analysis)
             scales.
Proof.
  split; [| apply sublist_filter].
  intros scale. unfold detect_intra_scale_conflicts.
  rewrite list_elem_of_filter. split.
  - intros [Hmany Hscale].
    exists (analyze_scale (get_candidates candidate_info scale)).
    split; [by apply analyze_lookup | by apply weak_iff_many].
  - intros (an & Han & Hweak).
    assert (Hscale := analyze_lookup_scale _ _ _ _ Han).
    rewrite (analyze_lookup _ ent_names_2 _ Hscale) in Han.
    injection Han as <-. split; [by apply weak_iff_many | assumption].
Qed.

(** ** Consistency of the cross-scale report *)

Lemma collect_top_scales candidate_info :
  NoDup (map fst (collect_top_candidates candidate_info))
  /\ sublist (map fst (collect_top_candidates candidate_info)) scales.
Proof.
  unfold collect_top_candidates, scales. simpl.
  destruct (get_candidates candidate_info "L1");
    destruct (get_candidates candidate_info "L2");
    destruct (get_candidates candidate_info "L3"); simpl;
    (split; [repeat (apply NoDup_cons; split; [set_solver |]); apply NoDup_nil_2
            | repeat first [apply sublist_nil | apply sublist_skip
                           | apply sublist_cons]]).
Qed.

Lemma filter_shorter {A} (P : A -> Prop) `{forall x, Decision (P x)}
    (l : list A) (x : A) :
  x ∈ l -> ~ P x -> length (filter P l) < length l.
Proof.
  induction l as [| y l IH]; intros Hx Hn; [by apply elem_of_nil in Hx |].
  rewrite filter_cons. apply elem_of_cons in Hx as [<- | Hx].
  - rewrite decide_False by assumption.
    pose proof (length_filter P l). simpl. lia.
  - specialize (IH Hx Hn). destruct (decide (P y)); simpl; lia.
Qed.

(** X11.  The fields of the cross-scale report agree with each other: a
    conflict is reported exactly when some scale is listed as dissenting; the
    consensus is missing exactly when no scale has a candidate; a consensus is
    the rank-1 candidate of a scale that is not listed as dissenting, so the
    dissenting scales are never all the scales with candidates; and the
    dissenting scales are listed in the order L1, L2, L3. *)
Theorem cross_scale_report_is_consistent
    (candidate_info : gmap string (list Z))
    (scale_analysis : gmap string analysis) :
  let r := detect_cross_scale_conflicts candidate_info scale_analysis in
  (has_conflict r = true <-> conflicting_scales r <> [])
  /\ (has_conflict r = true <-> conflict_type r = "cross_scale")
  /\ (consensus_candidate r = None <-> top_candidates r = [])
  /\ (forall v, consensus_candidate r = Some v ->
        exists scale,
          (scale, v) ∈ top_candidates r /\ scale ∉ conflicting_scales r)
  /\ (top_candidates r <> [] ->
      length (conflicting_scales r) < length (top_candidates r))
  /\ sublist (conflicting_scales r) scales.
Proof.
  intros r. subst r. unfold detect_cross_scale_conflicts.
  set (tops := collect_top_candidates candidate_info).
  destruct (collect_top_scales candidate_info) as [Hnd Hsub].
  fold tops in Hnd, Hsub.
  destruct (Nat.leb_spec (length tops) 1) as [Hlen | Hlen].
  { cbn [has_conflict conflicting_scales conflict_type consensus_candidate
         top_candidates].
    split; [split; [discriminate | done] |].
    split; [split; discriminate |].
    split; [destruct tops as [| [s c] ?]; simpl; split; done |].
    split; [| split; [| apply sublist_nil_l]].
    - intros v Hv. destruct tops as [| [s c] ?]; [discriminate |].
      simpl in Hv. injection Hv as ->. exists s.
      split; [apply list_elem_of_here | apply not_elem_of_nil].
    - intros Hne. destruct tops; [done | simpl; lia]. }
  destruct (all_same (map snd tops)) eqn:Hsame.
  { cbn [has_conflict conflicting_scales conflict_type consensus_candidate
         top_candidates].
    split; [split; [discriminate | done] |].
    split; [split; discriminate |].
    split; [destruct tops as [| [s c] ?]; simpl; split; done |].
    split; [| split; [| apply sublist_nil_l]].
    - intros v Hv. destruct tops as [| [s c] ?]; [discriminate |].
      simpl in Hv. injection Hv as ->. exists s.
      split; [apply list_elem_of_here | apply not_elem_of_nil].
    - intros Hne. simpl. lia. }
  cbn [has_conflict conflicting_scales conflict_type consensus_candidate
       top_candidates].
  destruct (majority_vote (map snd tops))
    as (v & l1 & l2 & E & Hl & Hv1 & H1 & H2).
  { intros E. apply (f_equal length) in E. rewrite length_map in E.
    simpl in E. lia. }
  rewrite E.
  assert (Hv : exists scale, (scale, v) ∈ tops).
  { assert (Hin : v ∈ map snd tops) by (rewrite Hl; set_solver).
    apply list_elem_of_fmap in Hin as ([s c] & -> & Hin). by exists s. }
  destruct Hv as (sv & Hsv).
  assert (Hother : exists s c, (s, c) ∈ tops /\ c <> v).
  { destruct (decide (Forall (fun sc => sc.2 = v) tops)) as [Hall | Hall].
    - exfalso. assert (all_same (map snd tops) = true); [| congruence].
      apply all_same_true. split.
      + intros En. apply (f_equal length) in En. rewrite length_map in En.
        simpl in En. lia.
      + rewrite Forall_forall in Hall. intros a b Ha Hb.
        apply list_elem_of_fmap in Ha as (x & -> & Hx).
        apply list_elem_of_fmap in Hb as (y & -> & Hy).
        by rewrite (Hall x Hx), (Hall y Hy).
    - apply not_Forall_Exists in Hall; [| apply _].
      apply Exists_exists in Hall as ([s c] & Hin & Hc).
      exists s, c. split; [exact Hin | exact Hc]. }
  destruct Hother as (so & co & Hso & Hco).
  split; [| split; [done |]].
  { split; [intros _ | done]. intros En.
    assert (Hin : so ∈ map fst
              (filter (fun sk : string * Z => Some sk.2 ≠ Some v) tops)).
    { apply list_elem_of_fmap. exists (so, co). split; [reflexivity |].
      apply list_elem_of_filter. split; [simpl; congruence | exact Hso]. }
    rewrite En in Hin. by apply elem_of_nil in Hin. }
  split; [split; [discriminate |] |].
  { intros En. rewrite En in Hsv. by apply elem_of_nil in Hsv. }
  split; [| split].
  - intros v' [= <-]. exists sv. split; [exact Hsv |].
    intros Hin. apply list_elem_of_fmap in Hin as ([s c] & Es & Hin).
    simpl in Es. subst s.
    apply list_elem_of_filter in Hin as [Hc Hin]. simpl in Hc.
    apply Hc. f_equal.
    apply elem_of_collect_top in Hin as [_ Hin], Hsv as [_ Hsv]. congruence.
  - intros _. rewrite length_map.
    apply (filter_shorter _ tops (sv, v) Hsv). simpl. auto.
  - etrans; [| exact Hsub].
    apply (fmap_sublist fst), sublist_filter.
Qed.

End IntraScaleMore.

(* ===================================================================== *)
(** * More on the decomposition *)
(* ===================================================================== *)

Module DecompositionMore.

Import Decomposition DecompositionFacts Aspects.
Local Open Scope Z_scope.

(** ** What the loaded tables hold *)

Lemma elem_of_add_to `{Countable A} (k k' : Z) (x y : A)
    (d : gmap Z (gset A)) :
  y ∈ default ∅ (add_to k x d !! k')
  <-> y ∈ default ∅ (d !! k') \/ (k = k' /\ y = x).
Proof.
  unfold add_to. destruct (decide (k = k')) as [<- | Hne].
  - rewrite lookup_insert_eq. simpl. set_solver.
  - rewrite lookup_insert_ne by assumption. naive_solver.
Qed.

Lemma elem_of_add_range (e k : Z) (l : list Z) (times : gmap Z (gset Z))
    (y : Z) :
  y ∈ default ∅ (foldl (fun times time_id => add_to e time_id times)
                       times l !! k)
  <-> y ∈ default ∅ (times !! k) \/ (e = k /\ y ∈ l).
Proof.
  revert times. induction l as [| x l IH]; intros times; simpl.
  - split; [by left | intros [? | [_ H]]; [done | by apply elem_of_nil in H]].
  - rewrite IH, elem_of_add_to, elem_of_cons. naive_solver.
Qed.

Lemma elem_of_range_incl (a b t : Z) : t ∈ range_incl a b <-> a <= t <= b.
Proof. unfold range_incl. rewrite elem_of_seqZ. lia. Qed.

Lemma elem_of_extract_times (triples : list triple)
    (times : gmap Z (gset Z)) (e t : Z) :
  t ∈ default ∅ (extract_times triples times !! e)
  <-> t ∈ default ∅ (times !! e)
      \/ exists tr, tr ∈ triples /\ spans tr e t.
Proof.
  unfold extract_times, spans.
  revert times. induction triples as [| tr triples IH]; intros times.
  - simpl. split; [by left | intros [? | (tr & H & _)]; [done |]].
    by apply elem_of_nil in H.
  - cbn [foldl]. rewrite IH, !elem_of_add_range, !elem_of_range_incl.
    split.
    + intros [[[? | [? ?]] | [? ?]] | (tr' & ? & ?)].
      * by left.
      * right. exists tr. split; [apply list_elem_of_here | tauto].
      * right. exists tr. split; [apply list_elem_of_here | tauto].
      * right. exists tr'. split; [by apply list_elem_of_further | tauto].
    + intros [? | (tr' & [-> | ?]%elem_of_cons & [[? | ?] ?])];
        [tauto | tauto | tauto | right; exists tr'; tauto ..].
Qed.

Lemma elem_of_extract_relations (triples : list triple)
    (rels : gmap Z (gset (Z * Z))) (e : Z) (rt : Z * Z) :
  rt ∈ default ∅ (extract_relations triples rels !! e)
  <-> rt ∈ default ∅ (rels !! e)
      \/ exists tr, tr ∈ triples /\ head_id tr = e
                    /\ rt = (rel_id tr, tail_id tr).
Proof.
  unfold extract_relations.
  revert rels. induction triples as [| tr triples IH]; intros rels.
  - simpl. split; [by left | intros [? | (tr & H & _)]; [done |]].
    by apply elem_of_nil in H.
  - cbn [foldl]. rewrite IH, elem_of_add_to. split.
    + intros [[? | [? ?]] | (tr' & ? & ?)].
      * by left.
      * right. exists tr. split; [apply list_elem_of_here | tauto].
      * right. exists tr'. split; [by apply list_elem_of_further | tauto].
    + intros [? | (tr' & [-> | ?]%elem_of_cons & ? & ?)];
        [tauto | tauto | right; exists tr'; tauto].
Qed.

Lemma elem_of_alignment_rows (rows : list (Z * Z)) (al : gmap Z (gset Z))
    (r1 r2 : Z) :
  r2 ∈ default ∅ (foldl (fun al row => add_to row.1 row.2 al) al rows !! r1)
  <-> r2 ∈ default ∅ (al !! r1) \/ (r1, r2) ∈ rows.
Proof.
  revert al. induction rows as [| [a b] rows IH]; intros al.
  - simpl. split; [by left | intros [? | H]; [done |]].
    by apply elem_of_nil in H.
  - cbn [foldl]. rewrite IH, elem_of_add_to, elem_of_cons. simpl.
    naive_solver.
Qed.

Lemma alignment_rows_empty (rows : list (Z * Z)) (al : gmap Z (gset Z)) :
  foldl (fun al row => add_to row.1 row.2 al) al rows = ∅ ->
  rows = [] /\ al = ∅.
Proof.
  revert al. induction rows as [| [a b] rows IH]; intros al; [done |].
  cbn [foldl]. intros H. apply IH in H as [_ H].
  unfold add_to in H. by apply insert_non_empty in H.
Qed.

(** X12.  After loading into a new object, a time point is covered by the
    common intervals of a pair exactly when a KG1 fact about the first entity
    and a KG2 fact about the second, each with the entity as head or tail,
    both hold at that time. *)
Theorem common_times_of_a_loaded_pair (pairs : list (Z * Z))
    (triples1 triples2 : list triple) (alignment_rows : list (Z * Z))
    (kg1_id kg2_id t : Z) :
  let d := load_data pairs triples1 triples2 alignment_rows init in
  covered (_get_common_time_intervals d kg1_id kg2_id) t
  <-> (exists tr1, tr1 ∈ triples1 /\ spans tr1 kg1_id t)
      /\ (exists tr2, tr2 ∈ triples2 /\ spans tr2 kg2_id t).
Proof.
  intros d. unfold _get_common_time_intervals.
  destruct (common_time_intervals_runs
              (default ∅ (kg1_entity_times d !! kg1_id))
              (default ∅ (kg2_entity_times d !! kg2_id))) as (_ & _ & Hcov).
  rewrite Hcov, elem_of_intersection. subst d. unfold load_data, init.
  cbn [kg1_entity_times kg2_entity_times kg1_triples kg2_triples app].
  rewrite !elem_of_extract_times, !lookup_empty. simpl.
  set_solver.
Qed.

(** X13.  After loading into a new object, the common relations of a pair are
    the (relation, tail) combinations of the KG2 entity's facts whose relation
    some row of the alignment file pairs with the relation of a fact of the
    KG1 entity; both entities count as heads only. *)
Theorem common_relations_of_a_loaded_pair (pairs : list (Z * Z))
    (triples1 triples2 : list triple) (alignment_rows : list (Z * Z))
    (kg1_id kg2_id : Z) (rt : Z * Z) :
  let d := load_data pairs triples1 triples2 alignment_rows init in
  rt ∈ _get_common_relations d kg1_id kg2_id
  <-> (exists tr2, tr2 ∈ triples2 /\ head_id tr2 = kg2_id
                   /\ rt = (rel_id tr2, tail_id tr2))
      /\ (exists tr1, tr1 ∈ triples1 /\ head_id tr1 = kg1_id
                      /\ (rel_id tr1, rt.1) ∈ alignment_rows).
Proof.
  intros d. unfold _get_common_relations.
  assert (Hal : forall r1 r2,
            r2 ∈ default ∅ (relation_alignment d !! r1)
            <-> (r1, r2) ∈ alignment_rows).
  { intros r1 r2. subst d. unfold load_data, init.
    cbn [relation_alignment]. rewrite elem_of_alignment_rows, lookup_empty.
    simpl. set_solver. }
  assert (H1 : forall x,
            x ∈ default ∅ (kg1_entity_relations d !! kg1_id)
            <-> exists tr, tr ∈ triples1 /\ head_id tr = kg1_id
                           /\ x = (rel_id tr, tail_id tr)).
  { intros x. subst d. unfold load_data, init.
    cbn [kg1_entity_relations kg2_entity_relations kg1_triples kg2_triples
         app].
    rewrite elem_of_extract_relations, lookup_empty. simpl. set_solver. }
  assert (H2 : forall x,
            x ∈ default ∅ (kg2_entity_relations d !! kg2_id)
            <-> exists tr, tr ∈ triples2 /\ head_id tr = kg2_id
                           /\ x = (rel_id tr, tail_id tr)).
  { intros x. subst d. unfold load_data, init.
    cbn [kg1_entity_relations kg2_entity_relations kg1_triples kg2_triples
         app].
    rewrite elem_of_extract_relations, lookup_empty. simpl. set_solver. }
  destruct (decide (relation_alignment d = ∅)) as [He | Hne].
  - split; [intros H; by apply elem_of_empty in H |].
    intros [_ (tr1 & _ & _ & Hrow)]. exfalso.
    subst d. unfold load_data, init in He. cbn [relation_alignment] in He.
    apply alignment_rows_empty in He as [-> _].
    by apply elem_of_nil in Hrow.
  - rewrite elem_of_filter, H2. split.
    + intros [Hin Htr2]. split; [exact Htr2 |].
      apply elem_of_union_list in Hin as (X & HX & Hin).
      apply list_elem_of_fmap in HX as (r1 & -> & Hr1).
      apply elem_of_elements, elem_of_map in Hr1 as (x & -> & Hx).
      apply H1 in Hx as (tr1 & Htr1 & Hh & ->).
      exists tr1. split; [assumption |]. split; [assumption |].
      by apply Hal.
    + intros [Htr2 (tr1 & Htr1 & Hh & Hrow)]. split; [| exact Htr2].
      apply elem_of_union_list.
      exists (default ∅ (relation_alignment d !! rel_id tr1)).
      split; [| by apply Hal].
      apply list_elem_of_fmap. exists (rel_id tr1). split; [reflexivity |].
      apply elem_of_elements, elem_of_map.
      exists (rel_id tr1, tail_id tr1). split; [reflexivity |].
      apply H1. by exists tr1.
Qed.


(** ** What a run of [decompose] records *)

Lemma decompose_step_payload (p : Z * Z) (d : decomposer) (r : results) :
  let s1 := decompose_step (d, r) p in
  same_data d s1.1
  /\ (if has_temporal d p
      then temporal_aspect_counter s1.1 = temporal_aspect_counter d + 1
           /\ temporal_aspects s1.1
              = <[temporal_aspect_counter d :=
                    (p.2, _get_common_time_intervals d p.1 p.2)]>
                  (temporal_aspects d)
           /\ res_temporal s1.2
              = res_temporal r ++ [(p.1, temporal_aspect_counter d)]
      else temporal_aspect_counter s1.1 = temporal_aspect_counter d
           /\ temporal_aspects s1.1 = temporal_aspects d
           /\ res_temporal s1.2 = res_temporal r)
  /\ (if has_relational d p
      then relational_aspect_counter s1.1 = relational_aspect_counter d + 1
           /\ relational_aspects s1.1
              = <[relational_aspect_counter d :=
                    (p.2, _get_common_relations d p.1 p.2)]>
                  (relational_aspects d)
           /\ res_relational s1.2
              = res_relational r ++ [(p.1, relational_aspect_counter d)]
      else relational_aspect_counter s1.1 = relational_aspect_counter d
           /\ relational_aspects s1.1 = relational_aspects d
           /\ res_relational s1.2 = res_relational r)
  /\ aspect_to_original s1.1
     = (if has_relational d p
        then <[relational_aspect_counter d := p.2]> else fun m => m)
         ((if has_temporal d p
           then <[temporal_aspect_counter d := p.2]> else fun m => m)
            (aspect_to_original d)).
Proof.
  intros s1. subst s1.
  unfold decompose_step, temporal_step, has_temporal.
  destruct (_get_common_time_intervals d p.1 p.2) as [| iv ivs] eqn:Et;
    unfold relational_step, has_relational, _get_common_relations;
    cbn [kg1_entity_relations kg2_entity_relations relation_alignment];
    case_decide as Hr.
  all: try rewrite bool_decide_eq_true_2 by assumption.
  all: try rewrite bool_decide_eq_false_2 by assumption.
  all: cbn.
  all: repeat split; reflexivity.
Qed.

Lemma filter_same_data_temporal (d d' : decomposer) (pairs : list (Z * Z)) :
  same_data d d' ->
  List.filter (has_temporal d') pairs = List.filter (has_temporal d) pairs.
Proof.
  intros Hs. induction pairs as [| p pairs IH]; [reflexivity |].
  simpl. by rewrite IH, (has_temporal_same_data d d' p Hs).
Qed.

Lemma filter_same_data_relational (d d' : decomposer) (pairs : list (Z * Z)) :
  same_data d d' ->
  List.filter (has_relational d') pairs = List.filter (has_relational d) pairs.
Proof.
  intros Hs. induction pairs as [| p pairs IH]; [reflexivity |].
  simpl. by rewrite IH, (has_relational_same_data d d' p Hs).
Qed.

Lemma common_same_data (d d' : decomposer) (a b : Z) :
  same_data d d' ->
  _get_common_time_intervals d' a b = _get_common_time_intervals d a b
  /\ _get_common_relations d' a b = _get_common_relations d a b.
Proof.
  intros (_ & _ & _ & E1 & E2 & E3 & E4 & E5).
  unfold _get_common_time_intervals, _get_common_relations.
  by rewrite E1, E2, E3, E4, E5.
Qed.

(** The temporal half of a run of the loop. *)
Lemma decompose_loop_temporal (pairs : list (Z * Z)) (d : decomposer)
    (r : results) :
  let s' := decompose_loop pairs (d, r) in
  let nt := Z.of_nat (length (List.filter (has_temporal d) pairs)) in
  (forall k p,
     List.filter (has_temporal d) pairs !! k = Some p ->
     res_temporal s'.2 !! (length (res_temporal r) + k)%nat
     = Some (p.1, temporal_aspect_counter d + Z.of_nat k)
     /\ temporal_aspects s'.1 !! (temporal_aspect_counter d + Z.of_nat k)
        = Some (p.2, _get_common_time_intervals d p.1 p.2))
  /\ (forall id,
        ~ (temporal_aspect_counter d <= id < temporal_aspect_counter d + nt) ->
        temporal_aspects s'.1 !! id = temporal_aspects d !! id)
  /\ (forall k, (k < length (res_temporal r))%nat ->
        res_temporal s'.2 !! k = res_temporal r !! k)
  /\ length (res_temporal s'.2)
     = (length (res_temporal r)
        + length (List.filter (has_temporal d) pairs))%nat.
Proof.
  revert d r. induction pairs as [| p0 pairs IH]; intros d r.
  - cbn. split; [intros k p H; by destruct k |].
    split; [done |]. split; [done | lia].
  - intros s' nt. subst s' nt.
    change (decompose_loop (p0 :: pairs) (d, r))
      with (decompose_loop pairs (decompose_step (d, r) p0)).
    destruct (decompose_step_payload p0 d r) as (Hsame & Ht & _).
    destruct (decompose_step (d, r) p0) as [d1 r1]. cbn [fst snd] in Hsame, Ht.
    specialize (IH d1 r1). cbv zeta in IH.
    rewrite (filter_same_data_temporal d d1 pairs Hsame) in IH.
    destruct IH as (IH1 & IH2 & IH3 & IH4).
    cbn [List.filter].
    destruct (has_temporal d p0).
    + destruct Ht as (Hc & Hm & Hres). rewrite Hc, Hres in *.
      rewrite length_app in *. cbn [length] in *.
      split; [| split; [| split]].
      * intros [| k] p Hk.
        -- injection Hk as <-. split.
           ++ rewrite IH3 by lia. rewrite Nat.add_0_r.
              rewrite lookup_app_r, Nat.sub_diag by lia.
              cbn. by rewrite Z.add_0_r.
           ++ rewrite Z.add_0_r, IH2 by lia. by rewrite Hm, lookup_insert_eq.
        -- cbn in Hk. destruct (IH1 k p Hk) as [E1 E2].
           destruct (common_same_data d d1 p.1 p.2 Hsame) as [Ec _].
           rewrite Ec in E2.
           replace (temporal_aspect_counter d + Z.of_nat (S k))
             with (temporal_aspect_counter d + 1 + Z.of_nat k) by lia.
           replace (length (res_temporal r) + S k)%nat
             with (length (res_temporal r) + 1 + k)%nat by lia.
           by split.
      * intros id Hid. rewrite IH2 by lia. rewrite Hm.
        apply lookup_insert_ne. lia.
      * intros k Hk. rewrite IH3 by lia. by rewrite lookup_app_l by lia.
      * lia.
    + destruct Ht as (Hc & Hm & Hres). rewrite Hc, Hres, Hm in *.
      split; [| split; [| split]]; [| assumption ..].
      intros k p Hk. destruct (IH1 k p Hk) as [E1 E2].
      destruct (common_same_data d d1 p.1 p.2 Hsame) as [Ec _].
      rewrite Ec in E2. by split.
Qed.

(** The relational half of a run of the loop. *)
Lemma decompose_loop_relational (pairs : list (Z * Z)) (d : decomposer)
    (r : results) :
  let s' := decompose_loop pairs (d, r) in
  let nt := Z.of_nat (length (List.filter (has_relational d) pairs)) in
  (forall k p,
     List.filter (has_relational d) pairs !! k = Some p ->
     res_relational s'.2 !! (length (res_relational r) + k)%nat
     = Some (p.1, relational_aspect_counter d + Z.of_nat k)
     /\ relational_aspects s'.1 !! (relational_aspect_counter d + Z.of_nat k)
        = Some (p.2, _get_common_relations d p.1 p.2))
  /\ (forall id,
        ~ (relational_aspect_counter d <= id < relational_aspect_counter d + nt) ->
        relational_aspects s'.1 !! id = relational_aspects d !! id)
  /\ (forall k, (k < length (res_relational r))%nat ->
        res_relational s'.2 !! k = res_relational r !! k)
  /\ length (res_relational s'.2)
     = (length (res_relational r)
        + length (List.filter (has_relational d) pairs))%nat.
Proof.
  revert d r. induction pairs as [| p0 pairs IH]; intros d r.
  - cbn. split; [intros k p H; by destruct k |].
    split; [done |]. split; [done | lia].
  - intros s' nt. subst s' nt.
    change (decompose_loop (p0 :: pairs) (d, r))
      with (decompose_loop pairs (decompose_step (d, r) p0)).
    destruct (decompose_step_payload p0 d r) as (Hsame & _ & Ht & _).
    destruct (decompose_step (d, r) p0) as [d1 r1]. cbn [fst snd] in Hsame, Ht.
    specialize (IH d1 r1). cbv zeta in IH.
    rewrite (filter_same_data_relational d d1 pairs Hsame) in IH.
    destruct IH as (IH1 & IH2 & IH3 & IH4).
    cbn [List.filter].
    destruct (has_relational d p0).
    + destruct Ht as (Hc & Hm & Hres). rewrite Hc, Hres in *.
      rewrite length_app in *. cbn [length] in *.
      split; [| split; [| split]].
      * intros [| k] p Hk.
        -- injection Hk as <-. split.
           ++ rewrite IH3 by lia. rewrite Nat.add_0_r.
              rewrite lookup_app_r, Nat.sub_diag by lia.
              cbn. by rewrite Z.add_0_r.
           ++ rewrite Z.add_0_r, IH2 by lia. by rewrite Hm, lookup_insert_eq.
        -- cbn in Hk. destruct (IH1 k p Hk) as [E1 E2].
           destruct (common_same_data d d1 p.1 p.2 Hsame) as [_ Ec].
           rewrite Ec in E2.
           replace (relational_aspect_counter d + Z.of_nat (S k))
             with (relational_aspect_counter d + 1 + Z.of_nat k) by lia.
           replace (length (res_relational r) + S k)%nat
             with (length (res_relational r) + 1 + k)%nat by lia.
           by split.
      * intros id Hid. rewrite IH2 by lia. rewrite Hm.
        apply lookup_insert_ne. lia.
      * intros k Hk. rewrite IH3 by lia. by rewrite lookup_app_l by lia.
      * lia.
    + destruct Ht as (Hc & Hm & Hres). rewrite Hc, Hres, Hm in *.
      split; [| split; [| split]]; [| assumption ..].
      intros k p Hk. destruct (IH1 k p Hk) as [E1 E2].
      destruct (common_same_data d d1 p.1 p.2 Hsame) as [_ Ec].
      rewrite Ec in E2. by split.
Qed.

(** The mapping from aspect ids to KG2 ids over a run of the loop. *)
Lemma decompose_loop_mapping (pairs : list (Z * Z)) (d : decomposer)
    (r : results) :
  let s' := decompose_loop pairs (d, r) in
  let nt := Z.of_nat (length (List.filter (has_temporal d) pairs)) in
  let nr := Z.of_nat (length (List.filter (has_relational d) pairs)) in
  let tc := temporal_aspect_counter d in
  let rc := relational_aspect_counter d in
  (forall id,
     ~ (tc <= id < tc + nt) -> ~ (rc <= id < rc + nr) ->
     aspect_to_original s'.1 !! id = aspect_to_original d !! id)
  /\ (forall id e,
        aspect_to_original s'.1 !! id = Some e ->
        aspect_to_original d !! id = Some e
        \/ exists kg1_id, (kg1_id, e) ∈ pairs)
  /\ (tc + nt <= rc \/ rc + nr <= tc ->
      (forall k p,
         List.filter (has_temporal d) pairs !! k = Some p ->
         aspect_to_original s'.1 !! (tc + Z.of_nat k) = Some p.2)
      /\ (forall k p,
            List.filter (has_relational d) pairs !! k = Some p ->
            aspect_to_original s'.1 !! (rc + Z.of_nat k) = Some p.2)).
Proof.
  revert d r. induction pairs as [| p0 pairs IH]; intros d r.
  - cbn. split; [done |]. split; [intros; by left |].
    intros _. split; intros k p H; by destruct k.
  - intros s' nt nr tc rc. subst s' nt nr tc rc.
    change (decompose_loop (p0 :: pairs) (d, r))
      with (decompose_loop pairs (decompose_step (d, r) p0)).
    destruct (decompose_step_payload p0 d r) as (Hsame & Ht & Hr & Hm).
    destruct (decompose_step (d, r) p0) as [d1 r1].
    cbn [fst snd] in Hsame, Ht, Hr, Hm.
    specialize (IH d1 r1). cbv zeta in IH.
    rewrite (filter_same_data_temporal d d1 pairs Hsame),
      (filter_same_data_relational d d1 pairs Hsame) in IH.
    destruct IH as (IH1 & IH2 & IH3).
    cbn [List.filter].
    set (nt := Z.of_nat (length (List.filter (has_temporal d) pairs))) in *.
    set (nr := Z.of_nat (length (List.filter (has_relational d) pairs))) in *.
    assert (Hnt : 0 <= nt) by (subst nt; lia).
    assert (Hnr : 0 <= nr) by (subst nr; lia).
    destruct p0 as [a0 b0]. cbn [fst snd] in *.
    destruct (has_temporal d (a0, b0)), (has_relational d (a0, b0));
      destruct Ht as (Htc & _ & _), Hr as (Hrc & _ & _);
      rewrite Htc, Hrc, Hm in *; cbn [length];
      rewrite ?Nat2Z.inj_succ; fold nt nr.
    all: split; [| split].
    all: try (intros id H1 H2; rewrite IH1 by lia;
              rewrite ?lookup_insert_ne by lia; reflexivity).
    all: try (intros id e He; destruct (IH2 id e He) as [He' | (k1 & Hk1)];
              [| right; exists k1; by apply list_elem_of_further];
              repeat (apply lookup_insert_Some in He' as [[_ <-] | [_ He']];
                      [right; exists a0; apply list_elem_of_here |]);
              by left).
    all: intros Hdisj; split.
    all: destruct IH3 as [IH3t IH3r]; [lia |].
    all: intros k p Hk.
    all: try (destruct k as [| k]; cbn in Hk;
              [injection Hk as <-; rewrite Z.add_0_r, IH1 by lia;
               cbn [snd];
               first [by rewrite lookup_insert_eq
                     | rewrite lookup_insert_ne by lia;
                       by rewrite lookup_insert_eq
                     | destruct (decide (relational_aspect_counter d
                                         = temporal_aspect_counter d))
                         as [-> | Hne];
                       [by rewrite lookup_insert_eq
                       | rewrite lookup_insert_ne by lia;
                         by rewrite lookup_insert_eq]]
              | first [rewrite <- (IH3t k p Hk) | rewrite <- (IH3r k p Hk)];
                f_equal; lia]).
    all: first [rewrite <- (IH3t k p Hk) | rewrite <- (IH3r k p Hk)];
      f_equal; lia.
Qed.

Lemma elem_of_collect_ids (l : list (Z * Z)) (s : gset Z) (id : Z) :
  id ∈ foldl (fun all_aspect_ids p => {[ p.2 ]} ∪ all_aspect_ids) s l
  <-> id ∈ s \/ id ∈ map snd l.
Proof.
  revert s. induction l as [| p l IH]; intros s; simpl.
  - split; [by left | intros [? | H]; [done | by apply elem_of_nil in H]].
  - rewrite IH, elem_of_cons. set_solver.
Qed.

Lemma elem_of_create_aspect_entities (r : results) (id : Z) :
  id ∈ create_aspect_entities_for_retrieval r
  <-> id ∈ temporal_ids r \/ id ∈ relational_ids r.
Proof.
  unfold create_aspect_entities_for_retrieval, temporal_ids, relational_ids.
  rewrite !elem_of_collect_ids. set_solver.
Qed.

Lemma lookup_seqZ_range {A} (l : list A) (m id : Z) :
  m <= id < m + Z.of_nat (length l) ->
  exists k x, id = m + Z.of_nat k /\ l !! k = Some x.
Proof.
  intros H.
  destruct (lookup_lt_is_Some_2 l (Z.to_nat (id - m))) as [x Hx]; [lia |].
  exists (Z.to_nat (id - m)), x. split; [lia | exact Hx].
Qed.

(** X14.  In a run on a newly loaded object, the k-th pair of the frontier
    with a common time gets the k-th temporal id: the returned list pairs its
    KG1 entity with that id, and the object stores under that id its KG2
    entity with the pair's common intervals. The same holds of the pairs with
    a common relation, their relational ids and their common relations.
    Nothing else is returned or stored. *)
Theorem decompose_records_each_pair (pairs : list (Z * Z))
    (triples1 triples2 : list triple) (alignment_rows : list (Z * Z)) :
  let d := load_data pairs triples1 triples2 alignment_rows init in
  let run := decompose d in
  let with_times := List.filter (has_temporal d) pairs in
  let with_relations := List.filter (has_relational d) pairs in
  (forall k p,
     with_times !! k = Some p ->
     res_temporal run.2 !! k = Some (p.1, 1000000 + Z.of_nat k)
     /\ temporal_aspects run.1 !! (1000000 + Z.of_nat k)
        = Some (p.2, _get_common_time_intervals d p.1 p.2))
  /\ (forall k p,
        with_relations !! k = Some p ->
        res_relational run.2 !! k = Some (p.1, 2000000 + Z.of_nat k)
        /\ relational_aspects run.1 !! (2000000 + Z.of_nat k)
           = Some (p.2, _get_common_relations d p.1 p.2))
  /\ length (res_temporal run.2) = length with_times
  /\ length (res_relational run.2) = length with_relations
  /\ (forall id,
        is_Some (temporal_aspects run.1 !! id)
        <-> 1000000 <= id < 1000000 + Z.of_nat (length with_times))
  /\ (forall id,
        is_Some (relational_aspects run.1 !! id)
        <-> 2000000 <= id < 2000000 + Z.of_nat (length with_relations)).
Proof.
  intros d run with_times with_relations.
  assert (Hpairs : entity_pairs d = pairs) by reflexivity.
  destruct (decompose_loop_temporal pairs d (mk_results [] []))
    as (T1 & T2 & _ & T4).
  destruct (decompose_loop_relational pairs d (mk_results [] []))
    as (R1 & R2 & _ & R4).
  assert (Hrun : run = decompose_loop pairs (d, mk_results [] []))
    by (unfold run, decompose; by rewrite Hpairs).
  rewrite <- Hrun in T1, T2, T4, R1, R2, R4.
  fold with_times in T1, T2, T4. fold with_relations in R1, R2, R4.
  split; [exact T1 |]. split; [exact R1 |].
  split; [exact T4 |]. split; [exact R4 |].
  split; intros id; split.
  - intros Hsome.
    destruct (decide (1000000 <= id < 1000000 + Z.of_nat (length with_times)))
      as [? | Hout]; [assumption |].
    rewrite (T2 id Hout) in Hsome. by apply is_Some_None in Hsome.
  - intros Hin.
    destruct (lookup_seqZ_range with_times 1000000 id Hin) as (k & p & -> & Hk).
    destruct (T1 k p Hk) as [_ E].
    change (temporal_aspect_counter d) with 1000000 in E. by rewrite E.
  - intros Hsome.
    destruct (decide (2000000 <= id
                      < 2000000 + Z.of_nat (length with_relations)))
      as [? | Hout]; [assumption |].
    rewrite (R2 id Hout) in Hsome. by apply is_Some_None in Hsome.
  - intros Hin.
    destruct (lookup_seqZ_range with_relations 2000000 id Hin)
      as (k & p & -> & Hk).
    destruct (R1 k p Hk) as [_ E].
    change (relational_aspect_counter d) with 2000000 in E. by rewrite E.
Qed.

(** X15.  In a run on a newly loaded object, the aspect ids handed to
    retrieval are exactly the ids the aspect mapping knows; the mapping sends
    every id to the KG2 entity of some frontier pair; and with at most 1000000
    frontier pairs it sends the id of each aspect to the KG2 entity of the
    pair the aspect was made for. *)
Theorem aspect_mapping_of_a_fresh_run (pairs : list (Z * Z))
    (triples1 triples2 : list triple) (alignment_rows : list (Z * Z)) :
  let d := load_data pairs triples1 triples2 alignment_rows init in
  let run := decompose d in
  let aspect_ids := create_aspect_entities_for_retrieval run.2 in
  let aspect_mapping := aspect_to_original run.1 in
  (forall id, id ∈ aspect_ids <-> is_Some (aspect_mapping !! id))
  /\ (forall id e,
        aspect_mapping !! id = Some e -> exists kg1_id, (kg1_id, e) ∈ pairs)
  /\ (Z.of_nat (length pairs) <= 1000000 ->
      (forall k p,
         List.filter (has_temporal d) pairs !! k = Some p ->
         aspect_mapping !! (1000000 + Z.of_nat k) = Some p.2)
      /\ (forall k p,
            List.filter (has_relational d) pairs !! k = Some p ->
            aspect_mapping !! (2000000 + Z.of_nat k) = Some p.2)).
Proof.
  intros d run aspect_ids aspect_mapping.
  assert (Hpairs : entity_pairs d = pairs) by reflexivity.
  assert (Hrun : run = decompose_loop pairs (d, mk_results [] []))
    by (unfold run, decompose; by rewrite Hpairs).
  destruct (decompose_loop_mapping pairs d (mk_results [] []))
    as (M1 & M2 & M3).
  rewrite <- Hrun in M1, M2, M3. fold aspect_mapping in M1, M2, M3.
  destruct (fresh_run_ids pairs triples1 triples2 alignment_rows)
    as (Ht & Hr & Hsome).
  fold d in Ht, Hr, Hsome. fold run in Ht, Hr, Hsome.
  fold aspect_mapping in Hsome.
  change (temporal_aspect_counter d) with 1000000 in M1, M3.
  change (relational_aspect_counter d) with 2000000 in M1, M3.
  change (aspect_to_original d) with (∅ : gmap Z Z) in M1, M2.
  split; [| split].
  - intros id. unfold aspect_ids. rewrite elem_of_create_aspect_entities.
    split; [apply Hsome |]. intros His.
    rewrite Ht, Hr, !elem_of_seqZ.
    destruct (decide (1000000 <= id < 1000000
                 + Z.of_nat (length (List.filter (has_temporal d) pairs))))
      as [? | H1]; [by left |].
    destruct (decide (2000000 <= id < 2000000
                 + Z.of_nat (length (List.filter (has_relational d) pairs))))
      as [? | H2]; [by right |].
    rewrite (M1 id H1 H2), lookup_empty in His. by apply is_Some_None in His.
  - intros id e He. destruct (M2 id e He) as [H | H]; [| exact H].
    by rewrite lookup_empty in H.
  - intros Hlen. apply M3. left.
    pose proof (filter_length_le (has_temporal d) pairs). lia.
Qed.

End DecompositionMore.

(* ===================================================================== *)
(** * More on the relation alignment *)
(* ===================================================================== *)

Module RelationAlignmentMore.

Import Decomposition RelationAlignment RelationAlignmentFacts AlignmentOrder
       Cooccurrence.
Local Open Scope string_scope.
Local Open Scope list_scope.

Lemma text_similarity_at_most_1 (name1 name2 : string) :
  (text_similarity name1 name2 <= 1)%Q.
Proof.
  unfold text_similarity.
  destruct (String.eqb_spec (Py.lower name1) (Py.lower name2)) as [E | E];
    [discriminate |].
  destruct (sequence_similarity_bounds (Py.lower name1) (Py.lower name2))
    as [_ H1]. specialize (H1 E).
  pose proof (word_overlap_bounds (words (Py.lower name1))
                                  (words (Py.lower name2))) as [_ W1].
  destruct (negb _ && negb _); lra.
Qed.

(** X16.  The score [text_similarity] gives two names lies between 0 and
    1, whatever the names. *)
Theorem text_similarity_between_0_and_1 (name1 name2 : string) :
  (0 <= text_similarity name1 name2 <= 1)%Q.
Proof.
  split; [| apply text_similarity_at_most_1].
  unfold text_similarity.
  destruct (String.eqb (Py.lower name1) (Py.lower name2)); [discriminate |].
  destruct (sequence_similarity_bounds (Py.lower name1) (Py.lower name2))
    as [H0 _].
  pose proof (word_overlap_bounds (words (Py.lower name1))
                                  (words (Py.lower name2))) as [W0 _].
  destruct (negb _ && negb _); lra.
Qed.

(** ** Sorting by descending score *)





(** ** The insertion-ordered dict *)

Section Dict.

Context {K V : Type} `{EqDecision K}.

Lemma dict_get_set (k k' : K) (v : V) (d : list (K * V)) :
  Dict.get k' (Dict.set k v d)
  = if decide (k' = k) then Some v else Dict.get k' d.
Proof.
  induction d as [| [k0 v0] d IH]; simpl.
  - destruct (decide (k' = k)); reflexivity.
  - destruct (decide (k = k0)) as [-> | Hne]; simpl.
    + destruct (decide (k' = k0)); reflexivity.
    + destruct (decide (k' = k0)) as [-> | Hne'].
      * by rewrite decide_False by congruence.
      * exact IH.
Qed.

Lemma dict_keys_set (k k' : K) (v : V) (d : list (K * V)) :
  k' ∈ map fst (Dict.set k v d) <-> k' = k \/ k' ∈ map fst d.
Proof.
  induction d as [| [k0 v0] d IH]; simpl.
  - rewrite list_elem_of_singleton, elem_of_nil. tauto.
  - destruct (decide (k = k0)) as [-> | Hne]; simpl.
    + rewrite elem_of_cons. tauto.
    + rewrite !elem_of_cons, IH. tauto.
Qed.

Lemma dict_set_nodup (k : K) (v : V) (d : list (K * V)) :
  NoDup (map fst d) -> NoDup (map fst (Dict.set k v d)).
Proof.
  induction d as [| [k0 v0] d IH]; simpl; intros Hnd.
  - apply NoDup_singleton.
  - apply NoDup_cons in Hnd as [Hk0 Hnd].
    destruct (decide (k = k0)) as [-> | Hne]; simpl.
    + by apply NoDup_cons.
    + apply NoDup_cons. split; [| by apply IH].
      rewrite dict_keys_set. intros [? | ?]; [congruence | done].
Qed.

Lemma dict_get_elem (k : K) (v : V) (d : list (K * V)) :
  Dict.get k d = Some v -> (k, v) ∈ d.
Proof.
  induction d as [| [k0 v0] d IH]; simpl; [discriminate |].
  destruct (decide (k = k0)) as [-> | Hne].
  - intros [= ->]. apply list_elem_of_here.
  - intros H. by apply list_elem_of_further, IH.
Qed.

End Dict.

(** ** Merging the candidates *)



(** ** The counts of co-occurrence *)

Lemma foldl_invariant {A B} (P : A -> Prop) (f : A -> B -> A) (l : list B)
    (a : A) :
  (forall a x, P a -> P (f a x)) -> P a -> P (foldl f a l).
Proof.
  intros Hf. revert a. induction l as [| x l IH]; intros a Ha; [exact Ha |].
  simpl. by apply IH, Hf.
Qed.

Lemma bump_positive (key : Z * Z) (c : list (Z * Z * nat)) :
  Forall (fun kc => (1 <= kc.2)%nat) c ->
  Forall (fun kc => (1 <= kc.2)%nat) (bump key c).
Proof.
  rewrite !Forall_forall. intros Hc kc Hkc. unfold bump in Hkc.
  apply elem_of_dict_set in Hkc as [Hkc | ->]; [by apply Hc | lia].
Qed.

Lemma cooccurrence_counts_positive (kg1_triples kg2_triples : list triple)
    (entity_pairs : list (Z * Z)) :
  Forall (fun kc => (1 <= kc.2)%nat)
    (compute_cooccurrence_patterns kg1_triples kg2_triples entity_pairs).
Proof.
  unfold compute_cooccurrence_patterns.
  apply foldl_invariant; [| constructor]. intros c p Hc.
  apply foldl_invariant; [| exact Hc]. clear c Hc. intros c r1 Hc.
  apply foldl_invariant; [| exact Hc]. clear c Hc. intros c r2 Hc.
  destruct (existsb _ _); [by apply bump_positive | exact Hc].
Qed.



(** ** The list [find_relation_alignments] returns *)




Local Open Scope Z_scope.

(** ** What the co-occurrence counts count *)

Lemma tails_of_snoc (triples : list triple) (t : triple) (h r : Z) :
  tails_of (triples ++ [t]) h r
  = tails_of triples h r
    ∪ (if Z.eqb (head_id t) h && Z.eqb (rel_id t) r
       then {[ tail_id t ]} else ∅).
Proof.
  unfold tails_of. rewrite List.filter_app, map_app, list_to_set_app_L.
  f_equal. simpl. destruct (_ && _); simpl; set_solver.
Qed.

Lemma elem_of_tails_of (triples : list triple) (h r x : Z) :
  x ∈ tails_of triples h r
  <-> exists tr, tr ∈ triples /\ head_id tr = h /\ rel_id tr = r
                 /\ tail_id tr = x.
Proof.
  unfold tails_of. rewrite elem_of_list_to_set, list_elem_of_fmap. split.
  - intros (tr & -> & Hin). apply list_elem_of_In, filter_In in Hin as [Hin Hb].
    apply andb_true_iff in Hb as [H1 H2].
    exists tr. rewrite <- list_elem_of_In in Hin. repeat split; [done | lia ..].
  - intros (tr & Hin & <- & <- & <-). exists tr. split; [reflexivity |].
    apply list_elem_of_In, filter_In. split; [by apply list_elem_of_In |].
    by rewrite !Z.eqb_refl.
Qed.

Lemma entity_rels_snoc (triples : list triple) (t : triple) :
  entity_rels (triples ++ [t])
  = let d := entity_rels triples in
    let inner := default [] (d !! head_id t) in
    let tails := default ∅ (Dict.get (rel_id t) inner) in
    <[head_id t := Dict.set (rel_id t) ({[ tail_id t ]} ∪ tails) inner]> d.
Proof. unfold entity_rels. by rewrite foldl_app. Qed.

(** The inner dict of an entity: one key for each relation it heads, with
    the tails of its facts of that relation. *)
Lemma entity_rels_get (triples : list triple) (h : Z) :
  NoDup (map fst (default [] (entity_rels triples !! h)))
  /\ forall r,
       Dict.get r (default [] (entity_rels triples !! h))
       = if decide (tails_of triples h r = ∅) then None
         else Some (tails_of triples h r).
Proof.
  induction triples as [| t triples IH] using rev_ind.
  - unfold entity_rels. simpl. rewrite lookup_empty. simpl.
    split; [constructor | intros r; by rewrite decide_True].
  - destruct IH as [IHnd IHget]. rewrite entity_rels_snoc. cbv zeta.
    destruct (decide (head_id t = h)) as [<- | Hne].
    + rewrite lookup_insert_eq. cbn [default from_option id].
      split; [by apply dict_set_nodup |]. intros r.
      rewrite dict_get_set, tails_of_snoc, Z.eqb_refl. cbn [andb].
      destruct (decide (r = rel_id t)) as [-> | Hr].
      * rewrite Z.eqb_refl. rewrite decide_False by set_solver.
        f_equal. rewrite IHget. case_decide as He; simpl; set_solver.
      * destruct (Z.eqb_spec (rel_id t) r) as [? | _]; [congruence |].
        rewrite union_empty_r_L. apply IHget.
    + rewrite lookup_insert_ne by assumption. split; [exact IHnd |].
      intros r. rewrite tails_of_snoc.
      destruct (Z.eqb_spec (head_id t) h) as [? | _]; [congruence |].
      cbn [andb]. rewrite union_empty_r_L. apply IHget.
Qed.

Lemma count_of_bump (key key' : Z * Z) (c : list (Z * Z * nat)) :
  count_of key (bump key' c)
  = (count_of key c + (if decide (key = key') then 1 else 0))%nat.
Proof.
  unfold count_of, bump. rewrite dict_get_set.
  destruct (decide (key = key')) as [-> | Hne]; simpl; lia.
Qed.

Lemma dict_get_not_key {K V} `{EqDecision K} (k : K) (d : list (K * V)) :
  k ∉ map fst d -> Dict.get k d = None.
Proof.
  induction d as [| [k0 v0] d IH]; simpl; [done |].
  intros Hn. rewrite decide_False by set_solver. apply IH. set_solver.
Qed.

Section Counting.

Variable aligned : gset Z -> gset Z -> bool.
Variables a b : Z.

(** The loop over the relations of the KG2 entity. *)
Lemma count_inner (r1 : Z * gset Z) (kg2_rels : list (Z * gset Z))
    (c : list (Z * Z * nat)) :
  NoDup (map fst kg2_rels) ->
  count_of (a, b)
    (foldl (fun c r2 => if aligned r1.2 r2.2 then bump (r1.1, r2.1) c else c)
           c kg2_rels)
  = (count_of (a, b) c
     + (if decide (a = r1.1) then
          match Dict.get b kg2_rels with
          | Some ts2 => if aligned r1.2 ts2 then 1 else 0
          | None => 0
          end
        else 0))%nat.
Proof.
  revert c. induction kg2_rels as [| [b0 ts0] l IH]; intros c Hnd.
  - simpl. destruct (decide (a = r1.1)); lia.
  - simpl in Hnd. apply NoDup_cons in Hnd as [Hb0 Hnd].
    cbn [foldl Dict.get fst snd]. rewrite IH by assumption.
    destruct (decide (a = r1.1)) as [Ha | Ha].
    + destruct (decide (b = b0)) as [-> | Hb].
      * rewrite (dict_get_not_key b0 l Hb0).
        destruct (aligned r1.2 ts0); [| lia].
        rewrite count_of_bump, decide_True by (by rewrite Ha). lia.
      * destruct (aligned r1.2 ts0); [| lia].
        rewrite count_of_bump, decide_False by congruence. lia.
    + destruct (aligned r1.2 ts0); [| lia].
      rewrite count_of_bump, decide_False by congruence. lia.
Qed.

(** The loop over the relations of the KG1 entity. *)
Lemma count_middle (kg1_rels kg2_rels : list (Z * gset Z))
    (c : list (Z * Z * nat)) :
  NoDup (map fst kg1_rels) -> NoDup (map fst kg2_rels) ->
  count_of (a, b)
    (foldl (fun c r1 =>
              foldl (fun c r2 =>
                       if aligned r1.2 r2.2 then bump (r1.1, r2.1) c else c)
                    c kg2_rels)
           c kg1_rels)
  = (count_of (a, b) c
     + match Dict.get a kg1_rels, Dict.get b kg2_rels with
       | Some ts1, Some ts2 => if aligned ts1 ts2 then 1 else 0
       | _, _ => 0
       end)%nat.
Proof.
  intros Hnd1 Hnd2. revert c.
  induction kg1_rels as [| [a0 ts0] l IH]; intros c.
  - simpl. lia.
  - simpl in Hnd1. apply NoDup_cons in Hnd1 as [Ha0 Hnd1].
    cbn [foldl Dict.get]. rewrite IH, count_inner by assumption.
    cbn [fst snd].
    destruct (decide (a = a0)) as [-> | Ha].
    + rewrite (dict_get_not_key a0 l Ha0).
      destruct (Dict.get b kg2_rels); lia.
    + destruct (Dict.get a l), (Dict.get b kg2_rels); lia.
Qed.

End Counting.

(** [aligned_tails] of the innermost loop. *)
Lemma aligned_tails_spec (m : gmap Z Z) (ts1 ts2 : gset Z) :
  existsb (fun kg1_tail =>
             match m !! kg1_tail with
             | Some kg2_aligned_tail => bool_decide (kg2_aligned_tail ∈ ts2)
             | None => false
             end) (elements ts1) = true
  <-> exists t e, t ∈ ts1 /\ m !! t = Some e /\ e ∈ ts2.
Proof.
  rewrite existsb_exists. split.
  - intros (t & Ht & H). apply list_elem_of_In, elem_of_elements in Ht.
    destruct (m !! t) as [e |] eqn:E; [| discriminate].
    apply bool_decide_eq_true in H. by exists t, e.
  - intros (t & e & Ht & E & He). exists t.
    split; [by apply list_elem_of_In, elem_of_elements |].
    rewrite E. by apply bool_decide_eq_true.
Qed.

Lemma kg1_to_kg2_last (entity_pairs : list (Z * Z)) (t e : Z) :
  kg1_to_kg2 entity_pairs !! t = Some e
  <-> exists l1 l2, entity_pairs = l1 ++ (t, e) :: l2 /\ t ∉ map fst l2.
Proof.
  unfold kg1_to_kg2.
  induction entity_pairs as [| [a0 b0] pairs IH] using rev_ind.
  - simpl. rewrite lookup_empty. split; [discriminate |].
    intros (l1 & l2 & E & _). by destruct l1.
  - rewrite foldl_app. cbn [foldl fst snd]. rewrite lookup_insert_Some, IH.
    split.
    + intros [[<- <-] | [Hne (l1 & l2 & -> & Hl2)]].
      * exists pairs, []. split; [reflexivity | apply not_elem_of_nil].
      * exists l1, (l2 ++ [(a0, b0)]). split; [by rewrite <- app_assoc |].
        rewrite map_app. set_solver.
    + intros (l1 & l2 & E & Hl2).
      destruct l2 as [| x l2 _] using rev_ind.
      * apply app_inj_tail in E as [_ [= <- <-]]. by left.
      * right. rewrite app_comm_cons, app_assoc in E.
        apply app_inj_tail in E as [-> <-].
        rewrite map_app in Hl2. split; [set_solver |].
        exists l1, l2. split; [reflexivity | set_solver].
Qed.

Lemma bump_nodup (key : Z * Z) (c : list (Z * Z * nat)) :
  NoDup (map fst c) -> NoDup (map fst (bump key c)).
Proof. apply dict_set_nodup. Qed.

Lemma cooccurrence_keys_nodup (kg1_triples kg2_triples : list triple)
    (entity_pairs : list (Z * Z)) :
  NoDup (map fst (compute_cooccurrence_patterns kg1_triples kg2_triples
                    entity_pairs)).
Proof.
  unfold compute_cooccurrence_patterns.
  apply foldl_invariant; [| constructor]. intros c p Hc.
  apply foldl_invariant; [| exact Hc]. clear c Hc. intros c r1 Hc.
  apply foldl_invariant; [| exact Hc]. clear c Hc. intros c r2 Hc.
  destruct (existsb _ _); [by apply bump_nodup | exact Hc].
Qed.

(** X27.  [compute_cooccurrence_patterns] counts, for a pair of relations,
    the entity pairs of the frontier (each as often as the frontier lists
    it) at which the two relations co-occur: the KG1 entity heads a fact
    of the first relation and the KG2 entity a fact of the second whose
    tails [kg1_to_kg2] pairs, where for a KG1 id listed several times the
    last pair decides.  A pair of relations is a key exactly when it
    co-occurs at some entity pair, and no key occurs twice. *)
Theorem cooccurrence_counts_the_pairs (kg1_triples kg2_triples : list triple)
    (entity_pairs : list (Z * Z)) (r1 r2 : Z) :
  let c := compute_cooccurrence_patterns kg1_triples kg2_triples
             entity_pairs in
  (exists at_pair : Z * Z -> bool,
     (forall p,
        at_pair p = true
        <-> cooccur kg1_triples kg2_triples entity_pairs r1 r2 p)
     /\ count_of (r1, r2) c = length (List.filter at_pair entity_pairs))
  /\ (is_Some (Dict.get (r1, r2) c)
      <-> exists p,
            p ∈ entity_pairs
            /\ cooccur kg1_triples kg2_triples entity_pairs r1 r2 p)
  /\ NoDup (map fst c)
  /\ (forall t e,
        kg1_to_kg2 entity_pairs !! t = Some e
        <-> exists l1 l2,
              entity_pairs = l1 ++ (t, e) :: l2 /\ t ∉ map fst l2).
Proof.
  intros c.
  set (m := kg1_to_kg2 entity_pairs).
  set (aligned := fun ts1 ts2 : gset Z =>
         existsb (fun kg1_tail =>
                    match m !! kg1_tail with
                    | Some kg2_aligned_tail =>
                        bool_decide (kg2_aligned_tail ∈ ts2)
                    | None => false
                    end) (elements ts1)).
  set (at_pair := fun p : Z * Z =>
         match Dict.get r1 (default [] (entity_rels kg1_triples !! p.1)),
               Dict.get r2 (default [] (entity_rels kg2_triples !! p.2)) with
         | Some ts1, Some ts2 => aligned ts1 ts2
         | _, _ => false
         end).
  assert (Hat : forall p,
            at_pair p = true
            <-> cooccur kg1_triples kg2_triples entity_pairs r1 r2 p).
  { intros p. unfold at_pair, cooccur. fold m.
    rewrite (proj2 (entity_rels_get kg1_triples p.1) r1),
            (proj2 (entity_rels_get kg2_triples p.2) r2).
    split.
    - case_decide as E1; [discriminate |]. case_decide as E2; [discriminate |].
      intros H. apply aligned_tails_spec in H as (t & e & Ht & Hm & He).
      apply elem_of_tails_of in Ht as (tr1 & ? & ? & ? & <-).
      apply elem_of_tails_of in He as (tr2 & ? & ? & ? & <-).
      by exists tr1, tr2.
    - intros (tr1 & tr2 & H1 & H2 & Hh1 & Hr1 & Hh2 & Hr2 & Hm).
      assert (Ht1 : tail_id tr1 ∈ tails_of kg1_triples p.1 r1)
        by (apply elem_of_tails_of; by exists tr1).
      assert (Ht2 : tail_id tr2 ∈ tails_of kg2_triples p.2 r2)
        by (apply elem_of_tails_of; by exists tr2).
      rewrite !decide_False by set_solver.
      apply aligned_tails_spec. by exists (tail_id tr1), (tail_id tr2). }
  assert (Hcount : forall pairs c0,
            count_of (r1, r2)
              (foldl (fun c p =>
                        foldl (fun c r1 =>
                                 foldl (fun c r2 =>
                                          if aligned r1.2 r2.2
                                          then bump (r1.1, r2.1) c else c)
                                       c
                                       (default []
                                          (entity_rels kg2_triples !! p.2)))
                              c (default [] (entity_rels kg1_triples !! p.1)))
                     c0 pairs)
            = (count_of (r1, r2) c0
               + length (List.filter at_pair pairs))%nat).
  { induction pairs as [| p pairs IH]; intros c0; [simpl; lia |].
    cbn [foldl List.filter]. rewrite IH.
    rewrite (count_middle aligned r1 r2)
      by (apply entity_rels_get).
    unfold at_pair.
    destruct (Dict.get r1 _) as [ts1 |];
      [destruct (Dict.get r2 _) as [ts2 |];
       [destruct (aligned ts1 ts2) |] |]; simpl; lia. }
  assert (Hc : count_of (r1, r2) c = length (List.filter at_pair entity_pairs)).
  { unfold c, compute_cooccurrence_patterns. fold (kg1_to_kg2 entity_pairs).
    fold m. exact (Hcount entity_pairs []). }
  split; [exists at_pair; by split |].
  split; [| split; [apply cooccurrence_keys_nodup | apply kg1_to_kg2_last]].
  split.
  - intros [n Hn].
    assert (Hpos : (1 <= n)%nat).
    { pose proof (cooccurrence_counts_positive kg1_triples kg2_triples
                    entity_pairs) as Hall.
      rewrite Forall_forall in Hall.
      apply (Hall (r1, r2, n)), dict_get_elem, Hn. }
    unfold count_of in Hc. fold c in Hc. rewrite Hn in Hc. simpl in Hc.
    destruct (List.filter at_pair entity_pairs) as [| p l] eqn:Ef;
      [simpl in Hc; lia |].
    assert (Hp : In p (List.filter at_pair entity_pairs))
      by (rewrite Ef; by left).
    apply filter_In in Hp as [Hin Hp]. exists p.
    split; [by apply list_elem_of_In | by apply Hat].
  - intros (p & Hin & Hp). apply Hat in Hp.
    assert (Hf : In p (List.filter at_pair entity_pairs))
      by (apply filter_In; split; [by apply list_elem_of_In | exact Hp]).
    unfold count_of in Hc. fold c in Hc.
    destruct (Dict.get (r1, r2) c) as [n |]; [by eexists |].
    simpl in Hc. destruct (List.filter at_pair entity_pairs); [done |].
    simpl in Hc. lia.
Qed.

End RelationAlignmentMore.

(* ===================================================================== *)
(** * Linking the retrieval results and loading the three scales *)
(* ===================================================================== *)

Module ProjectionMore.

Import Tsv Fusion FusionFacts Projection FusionMain.
Local Open Scope string_scope.
Local Open Scope list_scope.
Local Open Scope Z_scope.

(** ** [link_retrieval_results_to_original] *)

Lemma link_line_pairs (aspect_mapping : gmap Z Z) (l : line)
    (written : list line) :
  link_line aspect_mapping l = Some written ->
  omap parse_pair written
  = map (fun p => (p.1, resolve aspect_mapping p.2)) (omap parse_pair [l]).
Proof.
  unfold link_line, resolve.
  destruct l as [| kg1_id [| [retrieved_id |] rest]];
    [intros [= <-]; reflexivity | intros [= <-]; by destruct kg1_id
    | | discriminate].
  destruct (aspect_mapping !! retrieved_id) as [original_id |] eqn:E;
    intros [= <-]; destruct kg1_id; cbn; by rewrite ?E.
Qed.

Lemma link_lines_pairs (aspect_mapping : gmap Z Z) (lines out : list line) :
  link_lines aspect_mapping lines = (true, out) ->
  omap parse_pair out
  = map (fun p => (p.1, resolve aspect_mapping p.2)) (omap parse_pair lines).
Proof.
  revert out. induction lines as [| l lines IH]; intros out.
  - intros [= <-]. reflexivity.
  - cbn [link_lines].
    destruct (link_line aspect_mapping l) as [written |] eqn:El;
      [| discriminate].
    destruct (link_lines aspect_mapping lines) as [ok out'].
    intros [= -> <-].
    change (l :: lines) with ([l] ++ lines).
    rewrite !omap_app, map_app, (IH out' eq_refl).
    by rewrite (link_line_pairs _ _ _ El).
Qed.

Lemma link_lines_raises (aspect_mapping : gmap Z Z) (lines : list line) :
  (link_lines aspect_mapping lines).1 = false
  <-> exists l kg1_id rest, l ∈ lines /\ l = kg1_id :: None :: rest.
Proof.
  induction lines as [| l lines IH].
  - simpl. split; [discriminate | intros (l & ? & ? & H & _)].
    by apply elem_of_nil in H.
  - cbn [link_lines].
    destruct (link_line aspect_mapping l) as [written |] eqn:El.
    + destruct (link_lines aspect_mapping lines) as [ok out].
      cbn [fst] in *. rewrite IH. split.
      * intros (l' & k & rest & Hin & ->).
        exists (k :: None :: rest), k, rest.
        split; [by apply list_elem_of_further | reflexivity].
      * intros (l' & k & rest & Hin & ->).
        apply elem_of_cons in Hin as [<- | Hin].
        -- discriminate El.
        -- by exists (k :: None :: rest), k, rest.
    + split; [intros _ | reflexivity].
      unfold link_line in El.
      destruct l as [| kg1_id [| [retrieved_id |] rest]];
        [discriminate .. | | ].
      * by destruct (aspect_mapping !! retrieved_id).
      * exists (kg1_id :: None :: rest), kg1_id, rest.
        split; [apply list_elem_of_here | reflexivity].
Qed.

(** X20.  [link_retrieval_results_to_original] leaves the linked file alone
    when there is no retrieval output; it raises exactly when a line with two
    fields or more has no integer in the second; and when it returns, the
    linked file holds the pairs of the retrieval output in the same order,
    each aspect id replaced by the original entity of the mapping. *)
Theorem linked_file_resolves_aspects (aspect_mapping : gmap Z Z)
    (lines : list line) (linked_output_file : file) :
  let r := link_retrieval_results_to_original aspect_mapping (Some lines)
             linked_output_file in
  link_retrieval_results_to_original aspect_mapping None linked_output_file
  = (true, linked_output_file)
  /\ (r.1 = false
      <-> exists l kg1_id rest, l ∈ lines /\ l = kg1_id :: None :: rest)
  /\ (r.1 = true ->
      file_pairs r.2
      = map (fun p => (p.1, resolve aspect_mapping p.2))
            (file_pairs (Some lines))).
Proof.
  intros r. subst r. split; [reflexivity |].
  unfold link_retrieval_results_to_original.
  pose proof (link_lines_raises aspect_mapping lines) as Hraise.
  pose proof (link_lines_pairs aspect_mapping lines) as Hpairs.
  destruct (link_lines aspect_mapping lines) as [ok out]. cbn [fst snd] in *.
  split; [exact Hraise |]. intros ->. by apply Hpairs.
Qed.

(** ** [load_multi_scale_pairs] *)

Lemma empty_entry_candidates (s : string) :
  IntraScale.get_candidates empty_entry s = [].
Proof.
  unfold IntraScale.get_candidates, empty_entry.
  destruct (decide (s = "L1")) as [-> | H1]; [reflexivity |].
  destruct (decide (s = "L2")) as [-> | H2]; [reflexivity |].
  destruct (decide (s = "L3")) as [-> | H3]; [reflexivity |].
  by rewrite !lookup_insert_ne, lookup_empty by congruence.
Qed.

Lemma three_scales_empty_entry : three_scales empty_entry.
Proof.
  intros s. unfold empty_entry, IntraScale.scales.
  rewrite !lookup_insert_is_Some, lookup_empty, is_Some_alt. set_solver.
Qed.

Lemma append_candidate_candidates (scale s : string) (kg1_id kg2_id k : Z)
    (msp : gmap Z (gmap string (list Z))) :
  IntraScale.get_candidates
    (default empty_entry (append_candidate scale kg1_id kg2_id msp !! k)) s
  = IntraScale.get_candidates (default empty_entry (msp !! k)) s
    ++ (if Z.eqb kg1_id k && String.eqb s scale then [kg2_id] else []).
Proof.
  unfold append_candidate.
  destruct (Z.eqb_spec kg1_id k) as [-> | Hk].
  - rewrite lookup_insert_eq. cbn [default from_option id andb].
    destruct (String.eqb_spec s scale) as [-> | Hs].
    + unfold IntraScale.get_candidates at 1. by rewrite lookup_insert_eq.
    + unfold IntraScale.get_candidates at 1.
      rewrite lookup_insert_ne by congruence. by rewrite app_nil_r.
  - rewrite lookup_insert_ne by assumption. by rewrite app_nil_r.
Qed.

Lemma candidates_of_cons (l : line) (lines : list line) (k : Z) :
  candidates_of (Some (l :: lines)) k
  = match parse_pair l with
    | Some p => if Z.eqb p.1 k then [p.2] else []
    | None => []
    end ++ candidates_of (Some lines) k.
Proof.
  unfold candidates_of, file_pairs. cbn [omap list_omap].
  change (list_omap _ _ parse_pair lines) with (omap parse_pair lines).
  destruct (parse_pair l) as [p |]; [| reflexivity].
  cbn [List.filter]. by destruct (Z.eqb p.1 k).
Qed.

Lemma load_scale_candidates (scale s : string) (f : file) (k : Z)
    (msp : gmap Z (gmap string (list Z))) :
  IntraScale.get_candidates (default empty_entry (load_scale scale f msp !! k)) s
  = IntraScale.get_candidates (default empty_entry (msp !! k)) s
    ++ (if String.eqb s scale then candidates_of f k else []).
Proof.
  destruct f as [lines |];
    [| simpl; by destruct (String.eqb s scale); rewrite app_nil_r].
  unfold load_scale. revert msp.
  induction lines as [| l lines IH]; intros msp.
  - simpl. by destruct (String.eqb s scale); rewrite app_nil_r.
  - cbn [foldl]. rewrite IH, candidates_of_cons.
    destruct (parse_pair l) as [[a b] |]; [| reflexivity].
    rewrite append_candidate_candidates. cbn [fst snd].
    destruct (Z.eqb a k), (String.eqb s scale); cbn [andb];
      by rewrite <- ?app_assoc, ?app_nil_r.
Qed.

Lemma load_scale_entries (scale : string) (f : file) (k : Z)
    (msp : gmap Z (gmap string (list Z))) :
  scale ∈ IntraScale.scales ->
  (is_Some (load_scale scale f msp !! k)
   <-> is_Some (msp !! k) \/ candidates_of f k <> [])
  /\ ((forall e, msp !! k = Some e -> three_scales e) ->
      forall e, load_scale scale f msp !! k = Some e -> three_scales e).
Proof.
  intros Hscale. destruct f as [lines |];
    [| simpl; split; [split; [by left | intros [? | ?]; done] | done]].
  unfold load_scale. revert msp.
  induction lines as [| l lines IH]; intros msp.
  - simpl. split; [split; [by left | intros [? | ?]; done] | done].
  - cbn [foldl]. rewrite candidates_of_cons.
    destruct (parse_pair l) as [[a b] |]; [| apply IH].
    destruct (IH (append_candidate scale a b msp)) as [IH1 IH2].
    cbn [fst snd]. unfold append_candidate in *.
    destruct (Z.eqb_spec a k) as [-> | Hne].
    + split.
      * rewrite IH1, lookup_insert_eq. split; [intros _; by right |].
        intros _. left. by eexists.
      * intros Hwf. apply IH2. intros e' He'.
        rewrite lookup_insert_eq in He'. injection He' as <-.
        assert (Hold : three_scales (default empty_entry (msp !! k))).
        { destruct (msp !! k) as [e0 |] eqn:E0; [by apply Hwf |].
          apply three_scales_empty_entry. }
        intros s. rewrite lookup_insert_is_Some. rewrite (Hold s).
        split; [intros [<- | [_ ?]]; assumption | intros ?].
        destruct (decide (scale = s)); [by left | by right].
    + split.
      * rewrite IH1, lookup_insert_ne by assumption. reflexivity.
      * intros Hwf. apply IH2. intros e'.
        rewrite lookup_insert_ne by assumption. apply Hwf.
Qed.

Lemma loaded_candidates (fs : scale_files) (k : Z) (scale : string) :
  scale ∈ IntraScale.scales ->
  IntraScale.get_candidates
    (default empty_entry (load_multi_scale_pairs fs !! k)) scale
  = candidates_of (scale_file fs scale) k.
Proof.
  intros Hscale. unfold load_multi_scale_pairs.
  rewrite !load_scale_candidates, lookup_empty. cbn [default from_option id].
  rewrite empty_entry_candidates. unfold scale_file, IntraScale.scales in *.
  apply elem_of_cons in Hscale as [-> | Hscale];
    [cbn [String.eqb Ascii.eqb Bool.eqb app]; by rewrite ?app_nil_r |].
  apply elem_of_cons in Hscale as [-> | Hscale];
    [cbn [String.eqb Ascii.eqb Bool.eqb app]; by rewrite ?app_nil_r |].
  apply list_elem_of_singleton in Hscale as ->.
  cbn [String.eqb Ascii.eqb Bool.eqb app]. by rewrite ?app_nil_r.
Qed.

(** X21.  [load_multi_scale_pairs]: the candidates of an entity at a scale are
    the second fields of the well-formed lines of that scale's file that start
    with the entity, in file order (none when the file is missing); an entity
    is loaded exactly when some scale lists a candidate for it; and a loaded
    entry holds the three scales and at least one candidate. *)
Theorem load_multi_scale_pairs_by_file (fs : scale_files) (kg1_id : Z) :
  let multi_scale_pairs := load_multi_scale_pairs fs in
  let entry := default empty_entry (multi_scale_pairs !! kg1_id) in
  (forall scale,
     scale ∈ IntraScale.scales ->
     IntraScale.get_candidates entry scale
     = candidates_of (scale_file fs scale) kg1_id)
  /\ (is_Some (multi_scale_pairs !! kg1_id)
      <-> exists scale,
            scale ∈ IntraScale.scales
            /\ candidates_of (scale_file fs scale) kg1_id <> [])
  /\ (forall e,
        multi_scale_pairs !! kg1_id = Some e ->
        three_scales e /\ all_candidates e <> ∅).
Proof.
  intros msp entry.
  assert (Hcands : forall scale,
            scale ∈ IntraScale.scales ->
            IntraScale.get_candidates entry scale
            = candidates_of (scale_file fs scale) kg1_id)
    by (intros; by apply loaded_candidates).
  assert (H1 : "L1" ∈ IntraScale.scales) by (unfold IntraScale.scales; set_solver).
  assert (H2 : "L2" ∈ IntraScale.scales) by (unfold IntraScale.scales; set_solver).
  assert (H3 : "L3" ∈ IntraScale.scales) by (unfold IntraScale.scales; set_solver).
  assert (Hsome : is_Some (msp !! kg1_id)
                  <-> exists scale,
                        scale ∈ IntraScale.scales
                        /\ candidates_of (scale_file fs scale) kg1_id <> []).
  { unfold msp, load_multi_scale_pairs.
    rewrite (proj1 (load_scale_entries "L3" _ kg1_id _ H3)),
            (proj1 (load_scale_entries "L2" _ kg1_id _ H2)),
            (proj1 (load_scale_entries "L1" _ kg1_id _ H1)),
            lookup_empty, is_Some_alt.
    change (L1_hypergraph fs) with (scale_file fs "L1").
    change (L2_hypergraph fs) with (scale_file fs "L2").
    change (L3_hypergraph fs) with (scale_file fs "L3").
    split.
    - intros [[[[] | ?] | ?] | ?]; [by exists "L1" | by exists "L2"
                                    | by exists "L3"].
    - intros (scale & Hs & Hne). unfold IntraScale.scales in Hs.
      apply elem_of_cons in Hs as [-> | Hs]; [tauto |].
      apply elem_of_cons in Hs as [-> | Hs]; [tauto |].
      apply list_elem_of_singleton in Hs as ->. tauto. }
  split; [exact Hcands |]. split; [exact Hsome |].
  intros e He. split.
  - revert e He. unfold msp, load_multi_scale_pairs.
    apply (proj2 (load_scale_entries "L3" _ kg1_id _ H3)).
    apply (proj2 (load_scale_entries "L2" _ kg1_id _ H2)).
    apply (proj2 (load_scale_entries "L1" _ kg1_id _ H1)).
    intros e. by rewrite lookup_empty.
  - destruct (proj1 Hsome) as (scale & Hs & Hne); [by rewrite He |].
    rewrite <- (Hcands scale Hs) in Hne. unfold entry in Hne.
    rewrite He in Hne. cbn [default from_option id] in Hne.
    destruct (IntraScale.get_candidates e scale) as [| c cs] eqn:Ec; [done |].
    intros Hempty.
    assert (Hc : c ∈ all_candidates e).
    { apply elem_of_all_candidates. exists scale. split; [exact Hs |].
      rewrite Ec. apply list_elem_of_here. }
    rewrite Hempty in Hc. by apply elem_of_empty in Hc.
Qed.

Lemma candidates_of_resolved (aspect_mapping : gmap Z Z)
    (pairs : list (Z * Z)) (k : Z) :
  map snd (List.filter (fun p => Z.eqb p.1 k)
             (map (fun p => (p.1, resolve aspect_mapping p.2)) pairs))
  = map (resolve aspect_mapping)
        (map snd (List.filter (fun p => Z.eqb p.1 k) pairs)).
Proof.
  induction pairs as [| [a b] pairs IH]; [reflexivity |].
  cbn [map List.filter fst snd]. destruct (Z.eqb a k); cbn; by rewrite IH.
Qed.

Lemma resolve_nothing (l : list Z) : map (resolve ∅) l = l.
Proof.
  induction l as [| x l IH]; [reflexivity |].
  cbn. unfold resolve at 1. rewrite lookup_empty. cbn. by rewrite IH.
Qed.

(** X22.  When steps 8 and 9 of [s4_to_retrieval] succeed on a frontier file
    and a retrieval output, the three scales that fusion loads are: at L1 the
    candidates of the frontier file, at L2 the retrieved ids, and at L3 the
    retrieved ids again, in the same order, each aspect id replaced by its
    original entity. *)
Theorem scales_after_projection (aspect_mapping : gmap Z Z)
    (mp : message_pool) (top lines : list line) (kg1_id : Z) :
  integration_top_pair mp = Some top ->
  retriever_outputs mp = Some lines ->
  (link_and_represent aspect_mapping mp).1 = true ->
  let entry :=
    default empty_entry
      (load_multi_scale_pairs
         (multi_scale_hypergraph (link_and_represent aspect_mapping mp).2)
       !! kg1_id) in
  IntraScale.get_candidates entry "L1" = candidates_of (Some top) kg1_id
  /\ IntraScale.get_candidates entry "L2" = candidates_of (Some lines) kg1_id
  /\ IntraScale.get_candidates entry "L3"
     = map (resolve aspect_mapping) (IntraScale.get_candidates entry "L2").
Proof.
  intros Htop Hlines Hok entry. subst entry.
  assert (H1 : "L1" ∈ IntraScale.scales) by (unfold IntraScale.scales; set_solver).
  assert (H2 : "L2" ∈ IntraScale.scales) by (unfold IntraScale.scales; set_solver).
  assert (H3 : "L3" ∈ IntraScale.scales) by (unfold IntraScale.scales; set_solver).
  rewrite !loaded_candidates by assumption.
  unfold link_and_represent in *. rewrite Htop, Hlines in *.
  destruct (decide (aspect_mapping = ∅)) as [-> | Hne].
  - cbn. by rewrite resolve_nothing.
  - unfold link_retrieval_results_to_original in *.
    pose proof (link_lines_pairs aspect_mapping lines) as Hres.
    destruct (link_lines aspect_mapping lines) as [ok out].
    cbn [fst snd] in *. destruct ok; [| discriminate].
    split; [reflexivity |]. split; [reflexivity |].
    cbn [create_multi_scale_hypergraph_representation multi_scale_hypergraph
         retriever_outputs_linked retriever_outputs L2_hypergraph
         L3_hypergraph copy_if_exists fst snd].
    unfold candidates_of, file_pairs, scale_file.
    cbn [String.eqb Ascii.eqb Bool.eqb L2_hypergraph L3_hypergraph].
    rewrite (Hres out eq_refl).
    by rewrite candidates_of_resolved.
Qed.

(** Entity 1 with the retrieved ids 1000000, an aspect of entity 7, and 9. *)
Lemma scales_after_projection_witness :
  let mp :=
    {| integration_top_pair := Some [[Some 1; Some 7]];
       retriever_outputs := Some [[Some 1; Some 1000000]; [Some 1; Some 9]];
       retriever_outputs_linked := None;
       multi_scale_hypergraph := mk_scale_files None None None |} in
  let entry :=
    default empty_entry
      (load_multi_scale_pairs
         (multi_scale_hypergraph
            (link_and_represent {[ 1000000 := 7 ]} mp).2) !! 1) in
  IntraScale.get_candidates entry "L1" = [7]
  /\ IntraScale.get_candidates entry "L2" = [1000000; 9]
  /\ IntraScale.get_candidates entry "L3"
     = map (resolve {[ 1000000 := 7 ]}) (IntraScale.get_candidates entry "L2").
Proof.
  apply (scales_after_projection {[ 1000000 := 7 ]}
           {| integration_top_pair := Some [[Some 1; Some 7]];
              retriever_outputs :=
                Some [[Some 1; Some 1000000]; [Some 1; Some 9]];
              retriever_outputs_linked := None;
              multi_scale_hypergraph := mk_scale_files None None None |}
           [[Some 1; Some 7]] [[Some 1; Some 1000000]; [Some 1; Some 9]] 1).
  - reflexivity.
  - reflexivity.
  - vm_compute. reflexivity.
Defined.

End ProjectionMore.

(* ===================================================================== *)
(** * The main function of the fusion *)
(* ===================================================================== *)

Module FusionMainFacts.

Import Tsv Fusion FusionFacts FusionMore Projection FusionMain ProjectionMore.
Local Open Scope string_scope.
Local Open Scope list_scope.
Local Open Scope Z_scope.

(** ** The order of a batch *)

Lemma filter_permutation {A} (f : A -> bool) (l l' : list A) :
  l ≡ₚ l' -> List.filter f l ≡ₚ List.filter f l'.
Proof.
  induction 1 as [| x l l' _ IH | x y l | l l' l'' _ IH1 _ IH2]; simpl.
  - reflexivity.
  - destruct (f x); [by constructor | exact IH].
  - destruct (f x), (f y); try reflexivity. apply Permutation_swap.
  - by etrans.
Qed.

Lemma accepted_ignore_order (fs : files)
    (aligned_pairs aligned_pairs' : list (Z * Z)) :
  aligned_pairs ≡ₚ aligned_pairs' ->
  (add_to_sup_pairs fs aligned_pairs).2
  = (add_to_sup_pairs fs aligned_pairs').2.
Proof.
  intros Hperm.
  rewrite (add_to_sup_pairs_unfold fs aligned_pairs),
          (add_to_sup_pairs_unfold fs aligned_pairs'). cbv zeta.
  pose proof (filter_permutation
                (eligible (load_sup_pairs (sup_pairs_file fs))) _ _ Hperm)
    as Hacc.
  destruct (List.filter _ aligned_pairs) as [| a accepted] eqn:E.
  - apply Permutation_nil in Hacc. by rewrite Hacc.
  - destruct (List.filter _ aligned_pairs') as [| a' accepted'] eqn:E'.
    + symmetry in Hacc. by apply Permutation_nil in Hacc.
    + assert (Hset : (list_to_set (a :: accepted) : gset (Z * Z))
                     = list_to_set (a' :: accepted'))
        by (by apply list_to_set_perm_L).
      cbn [snd]. by rewrite Hset.
Qed.

(** X23.  [add_to_sup_pairs] does not depend on the order of the batch:
    two batches with the same pairs give the same count and the same
    files. *)
Theorem add_to_sup_pairs_ignores_order (fs : files)
    (aligned_pairs aligned_pairs' : list (Z * Z)) :
  aligned_pairs ≡ₚ aligned_pairs' ->
  add_to_sup_pairs fs aligned_pairs = add_to_sup_pairs fs aligned_pairs'.
Proof.
  intros Hperm. apply injective_projections;
    [| by apply accepted_ignore_order].
  rewrite (add_to_sup_pairs_unfold fs aligned_pairs),
          (add_to_sup_pairs_unfold fs aligned_pairs'). cbv zeta.
  pose proof (filter_permutation
                (eligible (load_sup_pairs (sup_pairs_file fs))) _ _ Hperm)
    as Hacc.
  apply Permutation_length in Hacc.
  destruct (List.filter _ aligned_pairs), (List.filter _ aligned_pairs');
    simpl in *; congruence.
Qed.

(** The batch of the example and its reverse. *)
Lemma add_to_sup_pairs_ignores_order_witness :
  add_to_sup_pairs example_files [(2, 300); (3, 300)]
  = add_to_sup_pairs example_files [(3, 300); (2, 300)].
Proof.
  apply (add_to_sup_pairs_ignores_order example_files
           [(2, 300); (3, 300)] [(3, 300); (2, 300)]).
  apply Permutation_swap.
Defined.

(** ** The pairs the tasks record *)

Lemma firsts_determine {A B} (l : list (A * B)) (p q : A * B) :
  NoDup (map fst l) -> p ∈ l -> q ∈ l -> p.1 = q.1 -> p = q.
Proof.
  induction l as [| x l IH]; intros Hnd Hp Hq E;
    [by apply elem_of_nil in Hp |].
  simpl in Hnd. apply NoDup_cons in Hnd as [Hx Hnd].
  apply elem_of_cons in Hp as [-> | Hp], Hq as [-> | Hq].
  - reflexivity.
  - exfalso. apply Hx. rewrite E. by apply list_elem_of_fmap_2.
  - exfalso. apply Hx. rewrite <- E. by apply list_elem_of_fmap_2.
  - by apply IH.
Qed.

Lemma nodup_by_firsts {A B} (l : list (A * B)) :
  NoDup (map fst l) -> NoDup l.
Proof.
  induction l as [| x l IH]; simpl; intros Hnd; [constructor |].
  apply NoDup_cons in Hnd as [Hx Hnd]. apply NoDup_cons.
  split; [| by apply IH]. intros Hin. apply Hx. by apply list_elem_of_fmap_2.
Qed.

Section Main.

Variable set_iter : gset Z -> list Z.
Variable pair_iter : gset (Z * Z) -> list (Z * Z).
Variable oracle : Z -> gmap string (list Z) -> option string.
Variable queue_order : list (Z * Z) -> list (Z * Z).

Hypothesis set_iter_sound : forall s k, k ∈ set_iter s -> k ∈ s.
Hypothesis pair_iter_enumerates : forall s, pair_iter s ≡ₚ elements s.
Hypothesis queue_is_a_permutation : forall l, queue_order l ≡ₚ l.

Lemma tasks_firsts (l : list (Z * gmap string (list Z))) :
  NoDup (map fst l) ->
  NoDup (map fst (flat_map (fun kc => fusion_task set_iter oracle kc.1 kc.2) l))
  /\ forall p,
       p ∈ flat_map (fun kc => fusion_task set_iter oracle kc.1 kc.2) l ->
       p.1 ∈ map fst l.
Proof.
  induction l as [| [k ci] l IH]; simpl; intros Hnd.
  - split; [constructor | intros p H; by apply elem_of_nil in H].
  - apply NoDup_cons in Hnd as [Hk Hnd]. destruct (IH Hnd) as [IH1 IH2].
    assert (Htask : forall p, p ∈ fusion_task set_iter oracle k ci -> p.1 = k)
      by (intros p Hp; by apply fusion_task_pairs in Hp as [? _]).
    split.
    + rewrite map_app. apply NoDup_app. split; [| split; [| exact IH1]].
      * pose proof (fusion_task_length set_iter oracle k ci) as Hlen.
        destruct (fusion_task set_iter oracle k ci) as [| p [| q rest]];
          [constructor | apply NoDup_singleton | simpl in Hlen; lia].
      * intros x Hx Hx'.
        apply list_elem_of_fmap in Hx as (p & -> & Hp).
        apply list_elem_of_fmap in Hx' as (q & E & Hq).
        apply Hk. rewrite <- (Htask p Hp), E. by apply IH2.
    + intros p [Hp | Hp]%elem_of_app.
      * rewrite (Htask p Hp). apply list_elem_of_here.
      * apply list_elem_of_further. by apply IH2.
Qed.

Lemma run_tasks_firsts (msp : gmap Z (gmap string (list Z))) :
  NoDup (map fst (run_tasks set_iter oracle msp)).
Proof.
  unfold run_tasks. apply tasks_firsts.
  apply (NoDup_fst_map_to_list msp).
Qed.

Lemma run_tasks_listed (fs : scale_files) (p : Z * Z) :
  p ∈ run_tasks set_iter oracle (load_multi_scale_pairs fs) ->
  exists scale,
    scale ∈ IntraScale.scales /\ p ∈ file_pairs (scale_file fs scale).
Proof.
  unfold run_tasks. intros Hp.
  apply list_elem_of_In, in_flat_map in Hp as ([k ci] & Hkc & Hp).
  apply list_elem_of_In in Hkc, Hp. apply elem_of_map_to_list in Hkc.
  cbn [fst snd] in Hp.
  apply fusion_task_pairs in Hp as (Hk & content & _ & Hparse).
  apply parse_answer_first in Hparse as (_ & l1 & l2 & Hl & _).
  assert (Hc : p.2 ∈ all_candidates ci)
    by (apply set_iter_sound; rewrite Hl; set_solver).
  apply elem_of_all_candidates in Hc as (scale & Hs & Hc).
  exists scale. split; [exact Hs |].
  pose proof (loaded_candidates fs k scale Hs) as Hload.
  rewrite Hkc in Hload. cbn [default from_option id] in Hload.
  rewrite Hload in Hc. unfold candidates_of in Hc.
  apply list_elem_of_fmap in Hc as ([a b] & Hb & Hin).
  apply list_elem_of_In, filter_In in Hin as [Hin Ha].
  cbn [fst snd] in *. apply Z.eqb_eq in Ha. subst a.
  destruct p as [p1 p2]. cbn [fst snd] in *. subst. by apply list_elem_of_In.
Qed.

(** The returned list enumerates the pairs the tasks recorded. *)
Lemma aligned_pairs_are_the_recorded (w : fusion_dir) :
  load_multi_scale_pairs (scales_dir w) <> ∅ ->
  let tasks := run_tasks set_iter oracle (load_multi_scale_pairs (scales_dir w)) in
  let r := multi_scale_fusion set_iter pair_iter oracle queue_order w in
  r.1 ≡ₚ tasks
  /\ fusion_results r.2
     = Some (map line_of_pair (sorted_pairs (list_to_set tasks)))
  /\ scales_dir r.2 = scales_dir w
  /\ sup_files r.2 = (add_to_sup_pairs (sup_files w) r.1).2.
Proof.
  intros Hne tasks r. subst r. unfold multi_scale_fusion.
  rewrite decide_False by assumption. fold tasks.
  unfold deduplicate_output_file. rewrite omap_parse_written.
  assert (Hset : (list_to_set (queue_order tasks) : gset (Z * Z))
                 = list_to_set tasks).
  { apply set_eq. intros p. rewrite !elem_of_list_to_set.
    by rewrite queue_is_a_permutation. }
  rewrite Hset. fold (sorted_pairs (list_to_set tasks)).
  set (unique_pairs := list_to_set tasks : gset (Z * Z)).
  assert (Hel : elements unique_pairs ≡ₚ tasks).
  { apply elements_list_to_set, nodup_by_firsts, run_tasks_firsts. }
  assert (Hal : (if decide (unique_pairs = ∅) then []
                 else pair_iter unique_pairs) ≡ₚ tasks).
  { case_decide as He; [| by rewrite pair_iter_enumerates].
    rewrite He, elements_empty in Hel. exact Hel. }
  cbn [fst snd fusion_results scales_dir sup_files].
  split; [exact Hal |]. split; [reflexivity |]. split; [reflexivity |].
  by destruct (if decide (unique_pairs = ∅) then [] else pair_iter unique_pairs).
Qed.

End Main.

(** The scale files of the worked examples: entity 1 with candidate 300 at
    L1 and candidates 300 and 400 at L2. *)
Lemma example_dir_is_loaded :
  load_multi_scale_pairs
    (mk_scale_files (Some [[Some 1; Some 300]])
                    (Some [[Some 1; Some 300]; [Some 1; Some 400]]) None)
  <> ∅.
Proof.
  intros H.
  assert (Hl : load_multi_scale_pairs
                 (mk_scale_files (Some [[Some 1; Some 300]])
                    (Some [[Some 1; Some 300]; [Some 1; Some 400]]) None)
               !! 1 = None) by (by rewrite H, lookup_empty).
  vm_compute in Hl. discriminate.
Qed.

(** X24.  Whatever the oracle answers and in whatever order the tasks finish:
    every returned pair joins an entity with one of the candidates the scale
    files list for it; no KG1 entity is returned twice; the supervision set
    only grows, and only by returned pairs; and when no KG1 id occurred twice
    in the supervision set before, none does afterwards. *)
Theorem fusion_returns_listed_candidates
    (set_iter : gset Z -> list Z) (pair_iter : gset (Z * Z) -> list (Z * Z))
    (oracle : Z -> gmap string (list Z) -> option string)
    (queue_order : list (Z * Z) -> list (Z * Z)) (w : fusion_dir) :
  (forall s k, k ∈ set_iter s -> k ∈ s) ->
  (forall s, pair_iter s ≡ₚ elements s) ->
  (forall l, queue_order l ≡ₚ l) ->
  let r := multi_scale_fusion set_iter pair_iter oracle queue_order w in
  (forall p,
     p ∈ r.1 ->
     exists scale,
       scale ∈ IntraScale.scales
       /\ p ∈ file_pairs (scale_file (scales_dir w) scale))
  /\ NoDup (map fst r.1)
  /\ supervision_set (sup_files w) ⊆ supervision_set (sup_files r.2)
  /\ (forall p,
        p ∈ supervision_set (sup_files r.2) ->
        p ∈ supervision_set (sup_files w) \/ p ∈ r.1)
  /\ (kg1_unique (supervision_set (sup_files w)) ->
      kg1_unique (supervision_set (sup_files r.2))).
Proof.
  intros Hset Hpair Hqueue r.
  destruct (decide (load_multi_scale_pairs (scales_dir w) = ∅)) as [He | Hne].
  { subst r. unfold multi_scale_fusion. rewrite decide_True by assumption.
    cbn [fst snd]. split; [intros p H; by apply elem_of_nil in H |].
    split; [constructor |]. split; [done |]. split; [by left | done]. }
  destruct (aligned_pairs_are_the_recorded set_iter pair_iter oracle
              queue_order Hpair Hqueue w Hne) as (Hal & _ & _ & Hsup).
  fold r in Hal, Hsup.
  assert (Hfirsts : NoDup (map fst r.1)).
  { rewrite Hal. apply run_tasks_firsts. }
  destruct (merge_grows (sup_files w) r.1) as [Hsub Hfrom].
  rewrite <- Hsup in Hsub, Hfrom.
  split; [| split; [exact Hfirsts | split; [exact Hsub | split; [exact Hfrom |]]]].
  - intros p Hp. rewrite Hal in Hp. by eapply run_tasks_listed.
  - intros Huniq p q Hp Hq E.
    assert (Hacc : forall x,
              x ∈ supervision_set (sup_files r.2) ->
              x ∉ supervision_set (sup_files w) ->
              x ∈ r.1 /\ forall k2, (x.1, k2) ∉ supervision_set (sup_files w)).
    { intros x Hx Hnew. rewrite Hsup in Hx.
      pose proof (add_to_sup_pairs_unfold (sup_files w) r.1) as Hun.
      cbv zeta in Hun.
      destruct (List.filter _ r.1) as [| a accepted] eqn:Ef.
      - rewrite Hun in Hx. cbn [snd] in Hx. done.
      - destruct (merge_written (sup_files w) r.1) as [_ Hm];
          [by rewrite Ef |].
        rewrite Hm, Ef in Hx. apply elem_of_union in Hx as [Hx | Hx]; [done |].
        apply elem_of_list_to_set in Hx. rewrite <- Ef in Hx.
        apply accepted_iff in Hx. tauto. }
    destruct (decide (p ∈ supervision_set (sup_files w))) as [Hp0 | Hp0],
             (decide (q ∈ supervision_set (sup_files w))) as [Hq0 | Hq0].
    + by apply Huniq.
    + exfalso. destruct (Hacc q Hq Hq0) as [_ Hno].
      apply (Hno p.2). rewrite <- E. by destruct p.
    + exfalso. destruct (Hacc p Hp Hp0) as [_ Hno].
      apply (Hno q.2). rewrite E. by destruct q.
    + destruct (Hacc p Hp Hp0) as [Hp1 _], (Hacc q Hq Hq0) as [Hq1 _].
      by apply (firsts_determine r.1).
Qed.

(** An oracle that answers 300 for entity 1. *)
Lemma fusion_returns_listed_candidates_witness :
  NoDup
    (map fst
       (multi_scale_fusion elements elements (fun _ _ => Some "300")
          (fun l => l)
          (mk_fusion_dir
             (mk_scale_files (Some [[Some 1; Some 300]])
                (Some [[Some 1; Some 300]; [Some 1; Some 400]]) None)
             None example_files)).1).
Proof.
  apply (fusion_returns_listed_candidates elements elements
           (fun _ _ => Some "300") (fun l => l)
           (mk_fusion_dir
              (mk_scale_files (Some [[Some 1; Some 300]])
                 (Some [[Some 1; Some 300]; [Some 1; Some 400]]) None)
              None example_files)).
  - intros s k. apply elem_of_elements.
  - reflexivity.
  - reflexivity.
Defined.

(** X25.  The files after the fusion do not depend on the order in which the
    tasks finish nor on the order in which the set of recorded pairs is turned
    into a list, and the returned list is the same up to order. *)
Theorem fusion_ignores_the_order_of_tasks
    (set_iter : gset Z -> list Z)
    (pair_iter pair_iter' : gset (Z * Z) -> list (Z * Z))
    (oracle : Z -> gmap string (list Z) -> option string)
    (queue_order queue_order' : list (Z * Z) -> list (Z * Z))
    (w : fusion_dir) :
  (forall s, pair_iter s ≡ₚ elements s) ->
  (forall s, pair_iter' s ≡ₚ elements s) ->
  (forall l, queue_order l ≡ₚ l) ->
  (forall l, queue_order' l ≡ₚ l) ->
  let r := multi_scale_fusion set_iter pair_iter oracle queue_order w in
  let r' := multi_scale_fusion set_iter pair_iter' oracle queue_order' w in
  r.1 ≡ₚ r'.1 /\ r.2 = r'.2.
Proof.
  intros Hpair Hpair' Hqueue Hqueue' r r'.
  destruct (decide (load_multi_scale_pairs (scales_dir w) = ∅)) as [He | Hne].
  { subst r r'. unfold multi_scale_fusion. rewrite !decide_True by assumption.
    by split. }
  destruct (aligned_pairs_are_the_recorded set_iter pair_iter oracle
              queue_order Hpair Hqueue w Hne) as (Hal & Hout & Hdir & Hsup).
  destruct (aligned_pairs_are_the_recorded set_iter pair_iter' oracle
              queue_order' Hpair' Hqueue' w Hne)
    as (Hal' & Hout' & Hdir' & Hsup').
  fold r in Hal, Hout, Hdir, Hsup. fold r' in Hal', Hout', Hdir', Hsup'.
  assert (Hperm : r.1 ≡ₚ r'.1) by (by rewrite Hal, Hal').
  split; [exact Hperm |].
  destruct r.2 as [d o s], r'.2 as [d' o' s']. cbn in *.
  rewrite Hdir, Hdir', Hout, Hout', Hsup, Hsup'.
  by rewrite (accepted_ignore_order _ _ _ Hperm).
Qed.

(** The queue as it is against the queue reversed. *)
Lemma fusion_ignores_the_order_of_tasks_witness :
  (multi_scale_fusion elements elements (fun _ _ => Some "300") (fun l => l)
     (mk_fusion_dir
        (mk_scale_files (Some [[Some 1; Some 300]; [Some 2; Some 300]])
                        None None)
        None example_files)).2
  = (multi_scale_fusion elements elements (fun _ _ => Some "300") (@rev _)
       (mk_fusion_dir
          (mk_scale_files (Some [[Some 1; Some 300]; [Some 2; Some 300]])
                          None None)
          None example_files)).2.
Proof.
  apply (fusion_ignores_the_order_of_tasks elements elements elements
           (fun _ _ => Some "300") (fun l => l) (@rev _)
           (mk_fusion_dir
              (mk_scale_files (Some [[Some 1; Some 300]; [Some 2; Some 300]])
                              None None)
              None example_files)).
  - reflexivity.
  - reflexivity.
  - reflexivity.
  - intros l. symmetry. apply Permutation_rev.
Defined.

(** X26.  When every oracle call raises, as it does while no client is
    configured, the fusion returns no pair, leaves an empty results file and
    does not touch the supervision files. *)
Theorem fusion_without_answers
    (set_iter : gset Z -> list Z) (pair_iter : gset (Z * Z) -> list (Z * Z))
    (oracle : Z -> gmap string (list Z) -> option string)
    (queue_order : list (Z * Z) -> list (Z * Z)) (w : fusion_dir) :
  (forall l, queue_order l ≡ₚ l) ->
  (forall kg1_entity candidate_info,
     oracle kg1_entity candidate_info = None) ->
  load_multi_scale_pairs (scales_dir w) <> ∅ ->
  multi_scale_fusion set_iter pair_iter oracle queue_order w
  = ([], {| scales_dir := scales_dir w;
            fusion_results := Some [];
            sup_files := sup_files w |}).
Proof.
  intros Hqueue Hnone Hne. unfold multi_scale_fusion.
  rewrite decide_False by assumption.
  assert (Htasks : run_tasks set_iter oracle
                     (load_multi_scale_pairs (scales_dir w)) = []).
  { unfold run_tasks.
    induction (map_to_list (load_multi_scale_pairs (scales_dir w)))
      as [| [k ci] l IH]; [reflexivity |].
    simpl. rewrite IH, app_nil_r. unfold fusion_task. rewrite Hnone.
    by case_decide. }
  rewrite Htasks.
  assert (queue_order [] = []) as ->
    by (apply Permutation_nil; symmetry; apply Hqueue).
  cbn [map deduplicate_output_file omap list_omap list_to_set foldr].
  rewrite decide_True by reflexivity. by rewrite elements_empty.
Qed.

(** The client left unconfigured. *)
Lemma fusion_without_answers_witness :
  multi_scale_fusion elements elements (fun _ _ => None) (fun l => l)
    (mk_fusion_dir
       (mk_scale_files (Some [[Some 1; Some 300]])
                       (Some [[Some 1; Some 300]; [Some 1; Some 400]]) None)
       None example_files)
  = ([], {| scales_dir :=
              mk_scale_files (Some [[Some 1; Some 300]])
                (Some [[Some 1; Some 300]; [Some 1; Some 400]]) None;
            fusion_results := Some [];
            sup_files := example_files |}).
Proof.
  apply (fusion_without_answers elements elements (fun _ _ => None)
           (fun l => l)
           (mk_fusion_dir
              (mk_scale_files (Some [[Some 1; Some 300]])
                 (Some [[Some 1; Some 300]; [Some 1; Some 400]]) None)
              None example_files)).
  - reflexivity.
  - reflexivity.
  - apply example_dir_is_loaded.
Defined.

End FusionMainFacts.

(* ===================================================================== *)
(** * The alignment file between the two stages *)
(* ===================================================================== *)

Module AlignmentFileFacts.

Import PrimFloat Tsv Decomposition RelationAlignment64 AlignmentFile
       DecompositionMore.
Local Open Scope string_scope.
Local Open Scope list_scope.
Local Open Scope Z_scope.

Lemma rows_of_saved (int_of : string -> field)
    (kg1_relations kg2_relations : list (Z * string))
    (alignments : list alignment) :
  omap alignment_row (map (row int_of kg1_relations kg2_relations) alignments)
  = map al_key alignments.
Proof.
  induction alignments as [| x l IH]; [reflexivity |].
  cbn [map omap list_omap row alignment_row].
  change (list_omap _ _ alignment_row
            (map (row int_of kg1_relations kg2_relations) l))
    with (omap alignment_row
            (map (row int_of kg1_relations kg2_relations) l)).
  by rewrite IH.
Qed.

(** A line of two fields or more whose first field is no integer makes
    [load_relations] raise. *)
Lemma load_relation_lines_raises (int_of : string -> field)
    (lines : list text_line) (relations : list (Z * string))
    (p0 p1 : string) (rest : list string) :
  (p0 :: p1 :: rest) ∈ lines -> int_of p0 = None ->
  load_relation_lines int_of lines relations = None.
Proof.
  revert relations. induction lines as [| parts lines IH];
    intros relations Hin Hint; [by apply elem_of_nil in Hin |].
  apply elem_of_cons in Hin as [<- | Hin].
  - cbn [load_relation_lines]. by rewrite Hint.
  - cbn [load_relation_lines].
    destruct parts as [| q0 [| q1 qs]]; [by apply IH | by apply IH |].
    destruct (int_of q0); [by apply IH | reflexivity].
Qed.

(** A line that raises makes the loading raise. *)
Lemma load_lines_raises {A B : Type} (parse : A -> option (list B))
    (lines : list A) (l : A) :
  l ∈ lines -> parse l = None -> load_lines parse lines = None.
Proof.
  induction lines as [| l0 lines IH]; intros Hin Hl;
    [by apply elem_of_nil in Hin |].
  cbn [load_lines]. apply elem_of_cons in Hin as [<- | Hin].
  - by rewrite Hl.
  - destruct (parse l0); [| reflexivity]. by rewrite IH.
Qed.

(** X28.  The records the decomposition reads from the alignment file are
    the relation pairs of the list that was saved, in the same order.
    [run_relation_alignment_stage] returns [None] and writes nothing when a
    relation file is missing.  With both files there, it raises and writes
    nothing when [find_relation_alignments] raises, which it does whenever
    a line of a relation file has two fields or more and a first field
    that is no integer, and, with relations in both files and the
    co-occurrence method in use, whenever a line of the frontier file has
    two fields or more and no integer in one of the first two; when no
    alignment is found it returns the path and leaves the alignment file
    of an earlier run as it is; otherwise it returns the path, changes no
    other file, and the decomposition that loads the file afterwards holds,
    for a KG1 relation, exactly the KG2 relations the found alignments pair
    with it. *)
Theorem alignment_file_round_trip (int_of : string -> field) (w : data_dir)
    (text_threshold : float) (use_cooccurrence : bool) :
  let found :=
    find_relation_alignments int_of w use_cooccurrence text_threshold in
  let r :=
    run_relation_alignment_stage int_of w text_threshold use_cooccurrence in
  (forall l kg1_relations kg2_relations,
     alignment_rows
       (Some (save_relation_alignments int_of l kg1_relations kg2_relations))
     = map al_key l)
  /\ (rel_ids_1 w = None \/ rel_ids_2 w = None -> r = (ReturnsNone, w))
  /\ (forall lines1 lines2,
        rel_ids_1 w = Some lines1 -> rel_ids_2 w = Some lines2 ->
        (found = None -> r = (Raises, w))
        /\ (forall p0 p1 rest,
              (p0 :: p1 :: rest) ∈ lines1 ++ lines2 -> int_of p0 = None ->
              found = None)
        /\ (forall kg1_relations kg2_relations lines p0 p1 rest,
              load_relations int_of (rel_ids_1 w) = Some kg1_relations ->
              load_relations int_of (rel_ids_2 w) = Some kg2_relations ->
              kg1_relations <> [] -> kg2_relations <> [] ->
              use_cooccurrence = true ->
              integration_top_pair w = Some lines ->
              (p0 :: p1 :: rest) ∈ lines -> p0 = None \/ p1 = None ->
              found = None)
        /\ (found = Some [] -> r = (ReturnsPath, w))
        /\ (forall alignments,
              found = Some alignments -> alignments <> [] ->
              r.1 = ReturnsPath
              /\ rel_ids_1 r.2 = rel_ids_1 w /\ rel_ids_2 r.2 = rel_ids_2 w
              /\ triples_1 r.2 = triples_1 w /\ triples_2 r.2 = triples_2 w
              /\ integration_top_pair r.2 = integration_top_pair w
              /\ alignment_rows (relation_alignment_txt r.2)
                 = map al_key alignments
              /\ forall pairs kg1_triples kg2_triples r1 r2,
                   r2 ∈ default ∅
                          (relation_alignment
                             (load_data pairs kg1_triples kg2_triples
                                (alignment_rows (relation_alignment_txt r.2))
                                init) !! r1)
                   <-> exists x, x ∈ alignments /\ al_key x = (r1, r2))).
Proof.
  intros found r.
  assert (Hsaved : forall l kg1_relations kg2_relations,
            alignment_rows
              (Some (save_relation_alignments int_of l kg1_relations
                                              kg2_relations))
            = map al_key l).
  { intros l k1 k2. unfold alignment_rows, save_relation_alignments.
    destruct l as [| x l]; [reflexivity |].
    cbn [length map Nat.leb tail].
    apply (rows_of_saved int_of _ _ (x :: l)). }
  split; [exact Hsaved |]. split.
  - subst r. unfold run_relation_alignment_stage.
    intros [-> | ->]; [reflexivity | by destruct (rel_ids_1 w)].
  - intros lines1 lines2 E1 E2. subst r.
    unfold run_relation_alignment_stage. rewrite E1, E2. fold found.
    split; [by intros -> |]. split; [| split; [| split; [by intros -> |]]].
    + intros p0 p1 rest Hin Hint. subst found.
      unfold find_relation_alignments, load_relations. rewrite E1, E2.
      apply elem_of_app in Hin as [Hin | Hin].
      * by rewrite (load_relation_lines_raises _ _ _ _ _ _ Hin Hint).
      * rewrite (load_relation_lines_raises _ lines2 _ _ _ _ Hin Hint).
        by destruct (load_relation_lines int_of lines1 []).
    + intros k1 k2 lines p0 p1 rest L1 L2 N1 N2 -> Ep Hin Hp. subst found.
      unfold find_relation_alignments. rewrite E1, E2, L1, L2.
      destruct k1 as [| a k1]; [done |]. destruct k2 as [| b k2]; [done |].
      unfold cooccurrence_part, load_entity_pairs. rewrite Ep.
      rewrite (load_lines_raises parse_entity_pair lines (p0 :: p1 :: rest));
        [reflexivity | exact Hin |].
      cbn [parse_entity_pair]. destruct Hp as [-> | ->];
        [reflexivity | by destruct p0].
    + intros alignments Hfound Hne. rewrite Hfound.
      destruct alignments as [| x l]; [done |].
      assert (exists k1 k2,
                 load_relations int_of (Some lines1) = Some k1
                 /\ load_relations int_of (Some lines2) = Some k2)
        as (k1 & k2 & L1 & L2).
      { subst found. unfold find_relation_alignments in Hfound.
        rewrite E1, E2 in Hfound.
        destruct (load_relations int_of (Some lines1)) as [k1 |];
          [| discriminate].
        destruct (load_relations int_of (Some lines2)) as [k2 |];
          [| discriminate].
        by exists k1, k2. }
      rewrite L1, L2. cbn [fst snd rel_ids_1 rel_ids_2 triples_1 triples_2
                           integration_top_pair relation_alignment_txt].
      rewrite Hsaved. repeat (split; [reflexivity |]).
      intros pairs kg1_triples kg2_triples r1 r2. unfold load_data, init.
      cbn [relation_alignment].
      rewrite elem_of_alignment_rows, lookup_empty.
      cbn [default from_option id]. rewrite list_elem_of_fmap. split.
      * intros [H | (y & E & Hy)]; [by apply elem_of_empty in H |].
        by exists y.
      * intros (y & Hy & E). right. by exists y.
Qed.

End AlignmentFileFacts.

(* ===================================================================== *)
(** * Replacing and restoring ent_ids_1 *)
(* ===================================================================== *)

Module EntityFileFacts.

Import EntityFile.
Local Open Scope string_scope.
Local Open Scope list_scope.

(** X29.  From step 6 on, [s4_to_retrieval] puts the original [ent_ids_1]
    back whether the retrieval steps return or raise, as long as these
    steps leave [ent_ids_1] and its backup alone: with the query file
    written, [ent_ids_1] has its original lines afterwards and no backup
    is left, and [True] is returned exactly when the steps did not
    raise. *)
Theorem ent_ids_1_is_restored (retrieve : ent_files -> bool * ent_files)
    (w : ent_files) (original query : list string) :
  (forall w0,
     ent_ids_1 (retrieve w0).2 = ent_ids_1 w0
     /\ ent_ids_1_backup (retrieve w0).2 = ent_ids_1_backup w0) ->
  ent_ids_1 w = Some original ->
  query_ent_ids_1 w = Some query ->
  let r := replace_retrieve_restore retrieve w in
  ent_ids_1 r.2 = Some original
  /\ ent_ids_1_backup r.2 = None
  /\ r.1 = (retrieve (replaced w)).1.
Proof.
  intros Hframe Horig Hquery r. subst r.
  unfold replace_retrieve_restore, replaced. rewrite Horig, Hquery.
  destruct (Hframe {| ent_ids_1 := Some query;
                      ent_ids_1_backup := Some original;
                      query_ent_ids_1 := Some query |}) as [_ Hb].
  destruct (retrieve _) as [ok w2]. cbn [fst snd] in *.
  unfold restore_from_backup. rewrite Hb. by cbn.
Qed.

(** Retrieval raises after the replacement. *)
Lemma ent_ids_1_is_restored_witness :
  ent_ids_1
    (replace_retrieve_restore (fun w0 => (false, w0))
       (mk_ent_files (Some ["1 a"; "2 b"]) None (Some ["1 a"]))).2
  = Some ["1 a"; "2 b"].
Proof.
  apply (ent_ids_1_is_restored (fun w0 => (false, w0))
           (mk_ent_files (Some ["1 a"; "2 b"]) None (Some ["1 a"]))
           ["1 a"; "2 b"] ["1 a"]).
  - intros w0. by split.
  - reflexivity.
  - reflexivity.
Defined.

(** X30.  [ensure_ent_ids_1_restored] never leaves a backup behind; a
    backup it finds replaces [ent_ids_1], so that the replacement of step 6
    of [s4_to_retrieval] is undone when the restoring never ran; it
    answers [True] exactly when [ent_ids_1] then exists with at least 1000
    lines that are not blank; and running it again changes nothing. *)
Theorem ensure_ent_ids_1_restored_moves_the_backup (w : ent_files) :
  let r := ensure_ent_ids_1_restored w in
  ent_ids_1_backup r.2 = None
  /\ (forall saved,
        ent_ids_1_backup w = Some saved -> ent_ids_1 r.2 = Some saved)
  /\ (ent_ids_1_backup w = None -> r.2 = w)
  /\ (forall original query,
        ent_ids_1 w = Some original -> query_ent_ids_1 w = Some query ->
        ent_ids_1 (ensure_ent_ids_1_restored (replaced w)).2 = Some original)
  /\ (r.1 = true
      <-> exists lines,
            ent_ids_1 r.2 = Some lines /\ (1000 <= line_count lines)%nat)
  /\ ensure_ent_ids_1_restored r.2 = r.
Proof.
  intros r. subst r.
  assert (Hrun : forall w0,
            ensure_ent_ids_1_restored w0
            = (match ent_ids_1 (restore_from_backup w0) with
               | Some lines => negb (line_count lines <? 1000)%nat
               | None => false
               end, restore_from_backup w0)).
  { intros w0. unfold ensure_ent_ids_1_restored.
    destruct (ent_ids_1 (restore_from_backup w0)) as [lines |];
      [by destruct (line_count lines <? 1000)%nat | reflexivity]. }
  assert (Hidem : forall w0,
            restore_from_backup (restore_from_backup w0)
            = restore_from_backup w0).
  { intros [e [saved |] q]; reflexivity. }
  rewrite !Hrun. cbn [fst snd]. rewrite Hidem.
  split; [by destruct w as [e [saved |] q] |].
  split; [intros saved Hs; unfold restore_from_backup; by rewrite Hs |].
  split; [intros Hs; unfold restore_from_backup; by rewrite Hs |].
  split; [| split; [| reflexivity]].
  - intros original query He Hq. unfold replaced, restore_from_backup.
    by rewrite He, Hq.
  - destruct (ent_ids_1 (restore_from_backup w)) as [lines |]; split.
    + intros H. exists lines. split; [reflexivity |].
      destruct (Nat.ltb_spec (line_count lines) 1000); [discriminate | lia].
    + intros (lines' & [= <-] & H).
      destruct (Nat.ltb_spec (line_count lines) 1000); [lia | reflexivity].
    + discriminate.
    + by intros (lines & H & _).
Qed.

End EntityFileFacts.
